(** * ai-review/utils.js: diff filtering, line location, key lookup and
      translation-change extraction

    A shallow embedding of the helper module of the translation review
    action, together with the part of the host language it relies on:
    strings as sequences of UTF-16 code units, the regular expressions the
    module writes down (matched by a backtracking matcher in the style of
    the ECMAScript specification), [String.prototype.split], [replace],
    [match] and [RegExp.prototype.exec].  The callers of the module in
    ai-review/ai-review.js are embedded as far as they compute on texts:
    the loop over the changed files of a diff and the step that gives a
    reported issue its line number; what the repository host answers is an
    argument of the embedding. *)

From Stdlib Require Import String Ascii List NArith ZArith Lia Bool.
Import ListNotations.

Set Implicit Arguments.

#[local] Arguments N.eqb : simpl never.
#[local] Arguments N.leb : simpl never.
#[local] Arguments N.ltb : simpl never.

(** * The program *)

(** ** Strings *)

(** A JavaScript string is a sequence of UTF-16 code units. *)
Definition char := N.
Definition jsstring := list char.

Definition str (s : string) : jsstring :=
  map N_of_ascii (list_ascii_of_string s).
Arguments str s%_string.

Definition chr (a : ascii) : char := N_of_ascii a.

Fixpoint jseqb (a b : jsstring) : bool :=
  match a, b with
  | [], [] => true
  | x :: a', y :: b' => N.eqb x y && jseqb a' b'
  | _, _ => false
  end.

(** [s.startsWith(p)] *)
Fixpoint startsWith (s p : jsstring) {struct p} : bool :=
  match p, s with
  | [], _ => true
  | c :: p', d :: s' => N.eqb c d && startsWith s' p'
  | _ :: _, [] => false
  end.

(** [s.endsWith(p)] *)
Definition endsWith (s p : jsstring) : bool :=
  startsWith (rev s) (rev p).

(** [s.slice(a, b)] for [0 <= a <= b <= s.length] *)
Definition slice (s : jsstring) (a b : nat) : jsstring :=
  firstn (b - a) (skipn a s).

(** [s.split('\n')] *)
Definition LF : char := 10%N.

Fixpoint split_on (sep : char) (s : jsstring) : list jsstring :=
  match s with
  | [] => [[]]
  | c :: s' =>
      if N.eqb c sep then [] :: split_on sep s'
      else match split_on sep s' with
           | [] => [[c]]
           | l :: ls => (c :: l) :: ls
           end
  end.

Definition count_char (c : char) (s : jsstring) : nat :=
  length (filter (N.eqb c) s).

(** ** Character classes *)

Inductive cset : Type :=
| COneOf (cs : list char)
| CRange (lo hi : char)
| CSpace
| CDigit
| CWord
| CNewline
| CNot (s : cset)
| COr (s1 s2 : cset).

(** LineTerminator: LF, CR, LS, PS. *)
Definition is_newline (c : char) : bool :=
  N.eqb c 10 || N.eqb c 13 || N.eqb c 8232 || N.eqb c 8233.

(** The class [\s]: WhiteSpace and LineTerminator. *)
Definition is_space (c : char) : bool :=
  N.eqb c 9 || N.eqb c 11 || N.eqb c 12 || N.eqb c 32 || N.eqb c 160
  || N.eqb c 5760 || (N.leb 8192 c && N.leb c 8202) || N.eqb c 8239
  || N.eqb c 8287 || N.eqb c 12288 || N.eqb c 65279 || is_newline c.

Definition is_digit (c : char) : bool := N.leb 48 c && N.leb c 57.

Definition is_word (c : char) : bool :=
  (N.leb 97 c && N.leb c 122) || (N.leb 65 c && N.leb c 90)
  || is_digit c || N.eqb c 95.

Fixpoint cmem (s : cset) (c : char) : bool :=
  match s with
  | COneOf cs => existsb (N.eqb c) cs
  | CRange lo hi => N.leb lo c && N.leb c hi
  | CSpace => is_space c
  | CDigit => is_digit c
  | CWord => is_word c
  | CNewline => is_newline c
  | CNot s' => negb (cmem s' c)
  | COr s1 s2 => cmem s1 c || cmem s2 c
  end.

(** ** Regular expressions *)

Inductive regex : Type :=
| Eps
| Cset (s : cset)
| Seq (r1 r2 : regex)
| Alt (r1 r2 : regex)
| Star (greedy : bool) (r : regex)
| Grp (n : nat) (r : regex)
| Bol
| Eol
| WordB (neg : bool).

Definition Chr (c : char) : regex := Cset (COneOf [c]).
Arguments Chr c%_N.
Definition Dot : regex := Cset (CNot CNewline).
Definition Plus (greedy : bool) (r : regex) : regex := Seq r (Star greedy r).
Definition Opt (r : regex) : regex := Alt r Eps.

(** A literal run of characters. *)
Fixpoint Lit (s : jsstring) : regex :=
  match s with
  | [] => Eps
  | c :: s' => Seq (Chr c) (Lit s')
  end.

(** ** The backtracking matcher

    A match state is a position in the input, kept as the consumed part
    (last character first) and the part still to read, with the captures
    recorded so far.  Matchers take a continuation, as in the ECMAScript
    specification: alternatives are tried in priority order and the first
    one whose continuation succeeds wins. *)

Record mstate : Type := MState {
  before : jsstring;
  after : jsstring;
  caps : list (nat * jsstring)
}.

Definition cont := mstate -> option mstate.

Fixpoint get_cap (n : nat) (cs : list (nat * jsstring)) : option jsstring :=
  match cs with
  | [] => None
  | (k, v) :: cs' => if Nat.eqb k n then Some v else get_cap n cs'
  end.

(** The characters read between state [x] and the later state [y]. *)
Definition consumed (x y : mstate) : jsstring :=
  rev (firstn (length (before y) - length (before x)) (before y)).

Definition set_cap (n : nat) (x y : mstate) : mstate :=
  MState (before y) (after y) ((n, consumed x y) :: caps y).

Definition at_bol (ml : bool) (x : mstate) : bool :=
  match before x with
  | [] => true
  | c :: _ => ml && is_newline c
  end.

Definition at_eol (ml : bool) (x : mstate) : bool :=
  match after x with
  | [] => true
  | c :: _ => ml && is_newline c
  end.

Definition word_at (s : jsstring) : bool :=
  match s with
  | [] => false
  | c :: _ => is_word c
  end.

Definition at_wordb (x : mstate) : bool :=
  xorb (word_at (before x)) (word_at (after x)).

(** RepeatMatcher: an iteration that reads nothing is rejected, so every
    iteration shortens the remaining input and [fuel], the length of the
    remaining input on entry, is never exhausted before the input is. *)
Fixpoint repeat_m (body : cont -> cont) (greedy : bool) (fuel : nat)
    (k : cont) (x : mstate) : option mstate :=
  match fuel with
  | O => k x
  | S fuel' =>
      let again y :=
        if Nat.ltb (length (after y)) (length (after x))
        then repeat_m body greedy fuel' k y
        else None in
      if greedy then
        match body again x with
        | Some z => Some z
        | None => k x
        end
      else
        match k x with
        | Some z => Some z
        | None => body again x
        end
  end.

Section Matcher.
(** The [m] (multiline) flag. *)
Variable ml : bool.

Fixpoint mt (r : regex) (k : cont) (x : mstate) {struct r} : option mstate :=
  match r with
  | Eps => k x
  | Cset s =>
      match after x with
      | c :: rest =>
          if cmem s c then k (MState (c :: before x) rest (caps x)) else None
      | [] => None
      end
  | Seq r1 r2 => mt r1 (mt r2 k) x
  | Alt r1 r2 =>
      match mt r1 k x with
      | Some z => Some z
      | None => mt r2 k x
      end
  | Star g r' => repeat_m (mt r') g (length (after x)) k x
  | Grp n r' => mt r' (fun y => k (set_cap n x y)) x
  | Bol => if at_bol ml x then k x else None
  | Eol => if at_eol ml x then k x else None
  | WordB neg => if xorb neg (at_wordb x) then k x else None
  end.

(** One attempt at the current position. *)
Definition match_here (r : regex) (x : mstate) : option mstate :=
  mt r (fun y => Some y) x.

(** The leftmost match at or after the current position: the position
    where it starts and the state where it ends. *)
Fixpoint search (r : regex) (bef aft : jsstring) : option (mstate * mstate) :=
  let x := MState bef aft [] in
  match match_here r x with
  | Some z => Some (x, z)
  | None =>
      match aft with
      | [] => None
      | c :: aft' => search r (c :: bef) aft'
      end
  end.
End Matcher.

(** ** Regular expression objects and the string methods that take them *)

(** What [exec] reports: [index], [match[0]] and the numbered groups. *)
Record match_result : Type := MatchResult {
  index : nat;
  matched : jsstring;
  groups : list (nat * jsstring)
}.

Definition result_of (xz : mstate * mstate) : match_result :=
  MatchResult (length (before (fst xz))) (consumed (fst xz) (snd xz))
              (caps (snd xz)).

Definition group (n : nat) (m : match_result) : jsstring :=
  match get_cap n (groups m) with
  | Some s => s
  | None => []
  end.

(** [r.exec(s)] with [lastIndex = from]; without the [g] flag [from] is 0. *)
Definition exec_from (ml : bool) (r : regex) (s : jsstring) (from : nat)
  : option match_result :=
  if Nat.ltb (length s) from then None
  else option_map result_of (search ml r (rev (firstn from s)) (skipn from s)).

(** [s.match(r)] and [r.exec(s)] for a regular expression without [g]. *)
Definition exec (ml : bool) (r : regex) (s : jsstring) : option match_result :=
  exec_from ml r s 0.

(** [r.test(s)] *)
Definition test (ml : bool) (r : regex) (s : jsstring) : bool :=
  match exec ml r s with
  | Some _ => true
  | None => false
  end.

(** [s.split(r)] for a regular expression without groups: a match is
    attempted at every position [q] before the end; a match that ends at
    the start [p] of the current piece is passed over. [piece] holds the
    characters since [p], last first, and [skip] counts the characters of the
    separator still to pass. *)
Fixpoint split_go (ml : bool) (r : regex) (bef aft piece : jsstring)
    (skip : nat) {struct aft} : list jsstring :=
  match aft with
  | [] => [rev piece]
  | c :: aft' =>
      match skip with
      | S n => split_go ml r (c :: bef) aft' piece n
      | O =>
          match match_here ml r (MState bef aft []) with
          | None => split_go ml r (c :: bef) aft' (c :: piece) 0
          | Some z =>
              match length (before z) - length bef, piece with
              | O, [] => split_go ml r (c :: bef) aft' (c :: piece) 0
              | O, _ => rev piece :: split_go ml r (c :: bef) aft' [c] 0
              | S n, _ => rev piece :: split_go ml r (c :: bef) aft' [] n
              end
          end
      end
  end.

Definition split_re (ml : bool) (r : regex) (s : jsstring) : list jsstring :=
  match s with
  | [] =>
      match match_here ml r (MState [] [] []) with
      | Some _ => []
      | None => [[]]
      end
  | _ => split_go ml r [] s [] 0
  end.

(** [s.replace(r, template)] for a regular expression with the [g] flag;
    [repl] is the expansion of the template for one match. *)
Fixpoint replace_go (ml : bool) (r : regex) (repl : match_result -> jsstring)
    (bef aft : jsstring) (skip : nat) {struct aft} : jsstring :=
  let x := MState bef aft [] in
  match aft with
  | [] =>
      match skip with
      | S _ => []
      | O =>
          match match_here ml r x with
          | Some z => repl (result_of (x, z))
          | None => []
          end
      end
  | c :: aft' =>
      match skip with
      | S n => replace_go ml r repl (c :: bef) aft' n
      | O =>
          match match_here ml r x with
          | None => c :: replace_go ml r repl (c :: bef) aft' 0
          | Some z =>
              repl (result_of (x, z)) ++
              match length (before z) - length bef with
              | O => c :: replace_go ml r repl (c :: bef) aft' 0
              | S n => replace_go ml r repl (c :: bef) aft' n
              end
          end
      end
  end.

Definition replace_all (ml : bool) (r : regex) (repl : match_result -> jsstring)
    (s : jsstring) : jsstring :=
  replace_go ml r repl [] s 0.

(** ** The RegExp constructor

    [new RegExp(pattern)] parses its argument.  The parser below covers
    alternation, groups, the quantifiers [*], [+], [?] and their lazy
    forms, the assertions [^], [$], [\b], [\B], the class escapes, the
    control escapes, the escapes [\x] and [\u] with their hexadecimal
    digits and identity escapes; bracketed classes, braced quantifiers,
    [(?...)] groups, quantified groups, back-references and the [\c]
    escape are reported as [PUnsupported], which stands for no statement
    about the pattern at all. *)

Inductive presult (A : Type) : Type :=
| POk (a : A)
| PSyntaxError
| PUnsupported.
Arguments POk {A} a.
Arguments PSyntaxError {A}.
Arguments PUnsupported {A}.

Definition isc (c : char) (a : ascii) : bool := N.eqb c (chr a).
Arguments isc c a%_char.

Definition pbind {A B} (p : presult A) (f : A -> presult B) : presult B :=
  match p with
  | POk a => f a
  | PSyntaxError => PSyntaxError
  | PUnsupported => PUnsupported
  end.

(** The value of a hexadecimal digit. *)
Definition hex_value (c : char) : option N :=
  if is_digit c then Some (c - 48)%N
  else if N.leb 97 c && N.leb c 102 then Some (c - 87)%N
  else if N.leb 65 c && N.leb c 70 then Some (c - 55)%N
  else None.

(** The number written by the first [n] characters of [s], if they are
    hexadecimal digits, and the rest of [s]. *)
Fixpoint hex_number (n : nat) (s : jsstring) (acc : N) : option (N * jsstring) :=
  match n with
  | O => Some (acc, s)
  | S n' =>
      match s with
      | c :: s' =>
          match hex_value c with
          | Some d => hex_number n' s' (16 * acc + d)%N
          | None => None
          end
      | [] => None
      end
  end.

(** [\c] for a character [c] after a backslash, with what is left of the
    pattern after the escape; the boolean tells whether the atom may take
    a quantifier.  Without the [u] flag, [\x] and [\u] that are not
    followed by their two or four hexadecimal digits stand for the letter,
    and so does [\k] in a pattern without named groups. *)
Definition parse_escape (c : char) (rest : jsstring)
  : presult (regex * bool * jsstring) :=
  if isc c "d" then POk (Cset CDigit, true, rest)
  else if isc c "D" then POk (Cset (CNot CDigit), true, rest)
  else if isc c "w" then POk (Cset CWord, true, rest)
  else if isc c "W" then POk (Cset (CNot CWord), true, rest)
  else if isc c "s" then POk (Cset CSpace, true, rest)
  else if isc c "S" then POk (Cset (CNot CSpace), true, rest)
  else if isc c "b" then POk (WordB false, false, rest)
  else if isc c "B" then POk (WordB true, false, rest)
  else if isc c "n" then POk (Chr 10, true, rest)
  else if isc c "t" then POk (Chr 9, true, rest)
  else if isc c "r" then POk (Chr 13, true, rest)
  else if isc c "f" then POk (Chr 12, true, rest)
  else if isc c "v" then POk (Chr 11, true, rest)
  else if isc c "0" then
    match rest with
    | d :: _ => if is_digit d then PUnsupported else POk (Chr 0, true, rest)
    | [] => POk (Chr 0, true, rest)
    end
  else if is_digit c then PUnsupported
  else if isc c "c" then PUnsupported
  else if isc c "x" then
    match hex_number 2 rest 0 with
    | Some (code, rest') => POk (Cset (COneOf [code]), true, rest')
    | None => POk (Chr c, true, rest)
    end
  else if isc c "u" then
    match hex_number 4 rest 0 with
    | Some (code, rest') => POk (Cset (COneOf [code]), true, rest')
    | None => POk (Chr c, true, rest)
    end
  else POk (Chr c, true, rest).

(** A quantifier, if one follows the atom [r]. *)
Definition parse_quantifier (r : regex) (s : jsstring) : regex * jsstring :=
  match s with
  | q :: s1 =>
      let lazy := match s1 with l :: _ => isc l "?" | [] => false end in
      let s2 := if lazy then tl s1 else s1 in
      if isc q "*" then (Star (negb lazy) r, s2)
      else if isc q "+" then (Plus (negb lazy) r, s2)
      else if isc q "?" then ((if lazy then Alt Eps r else Opt r), s2)
      else (r, s)
  | [] => (r, s)
  end.

Inductive pmode : Type := PDisjunction | PAlternative | PTerm.

(** [n] is the number of groups opened so far; the result carries the rest
    of the pattern and the new count. *)
Fixpoint parse (fuel : nat) (mode : pmode) (s : jsstring) (n : nat)
  : presult (regex * jsstring * nat) :=
  match fuel with
  | O => PUnsupported
  | S fuel' =>
      match mode with
      | PDisjunction =>
          pbind (parse fuel' PAlternative s n) (fun '(r1, s1, n1) =>
            match s1 with
            | c :: s2 =>
                if isc c "|" then
                  pbind (parse fuel' PDisjunction s2 n1) (fun '(r2, s3, n2) =>
                    POk (Alt r1 r2, s3, n2))
                else POk (r1, s1, n1)
            | [] => POk (r1, s1, n1)
            end)
      | PAlternative =>
          match s with
          | [] => POk (Eps, s, n)
          | c :: _ =>
              if isc c "|" || isc c ")" then POk (Eps, s, n)
              else
                pbind (parse fuel' PTerm s n) (fun '(t, s1, n1) =>
                  pbind (parse fuel' PAlternative s1 n1) (fun '(r, s2, n2) =>
                    POk (Seq t r, s2, n2)))
          end
      | PTerm =>
          match s with
          | [] => PSyntaxError
          | c :: s1 =>
              if isc c "\" then
                match s1 with
                | [] => PSyntaxError
                | e :: s2 =>
                    pbind (parse_escape e s2) (fun '(a, quantifiable, s2') =>
                      if quantifiable
                      then let '(r, s3) := parse_quantifier a s2' in POk (r, s3, n)
                      else POk (a, s2', n))
                end
              else if isc c "(" then
                match s1 with
                | q :: _ =>
                    if isc q "?" then PUnsupported
                    else
                      pbind (parse fuel' PDisjunction s1 (S n)) (fun '(r, s2, n1) =>
                        match s2 with
                        | _ :: s3 =>
                            match s3 with
                            | q' :: _ =>
                                if isc q' "*" || isc q' "+" || isc q' "?"
                                then PUnsupported
                                else POk (Grp (S n) r, s3, n1)
                            | [] => POk (Grp (S n) r, s3, n1)
                            end
                        | [] => PSyntaxError
                        end)
                | [] => PSyntaxError
                end
              else if isc c "*" || isc c "+" || isc c "?" || isc c ")" then PSyntaxError
              else if isc c "[" || isc c "{" then PUnsupported
              else if isc c "." then let '(r, s2) := parse_quantifier Dot s1 in POk (r, s2, n)
              else if isc c "^" then POk (Bol, s1, n)
              else if isc c "$" then POk (Eol, s1, n)
              else let '(r, s2) := parse_quantifier (Chr c) s1 in POk (r, s2, n)
          end
      end
  end.

(** [new RegExp(pattern)] *)
Definition RegExp_new (pattern : jsstring) : presult regex :=
  pbind (parse (4 + 4 * length pattern) PDisjunction pattern 0) (fun '(r, rest, _) =>
    match rest with
    | [] => POk r
    | _ :: _ => PSyntaxError
    end).

(** ** JSON values and [JSON.stringify] *)

(** The reference mapping is a tree of string leaves; an object lists its
    own properties in enumeration order.  What an object inherits is part
    of the property access, below. *)
Set Warnings "-register-all".
Inductive json : Type :=
| JString (s : jsstring)
| JObject (props : list (jsstring * json)).

Fixpoint lookup (k : jsstring) (props : list (jsstring * json)) : option json :=
  match props with
  | [] => None
  | (k', v) :: props' => if jseqb k' k then Some v else lookup k props'
  end.

Definition hex_digit (n : N) : char :=
  if N.ltb n 10 then (48 + n)%N else (87 + n)%N.

(** [\uXXXX] with lower-case digits *)
Definition unicode_escape (c : char) : jsstring :=
  str "\u" ++ [hex_digit (N.modulo (N.div c 4096) 16); hex_digit (N.modulo (N.div c 256) 16);
               hex_digit (N.modulo (N.div c 16) 16); hex_digit (N.modulo c 16)].

Definition is_high_surrogate (c : char) : bool := N.leb 55296 c && N.leb c 56319.
Definition is_low_surrogate (c : char) : bool := N.leb 56320 c && N.leb c 57343.

(** The body of QuoteJSONString. *)
Fixpoint quote_chars (s : jsstring) : jsstring :=
  match s with
  | [] => []
  | c :: s' =>
      if N.eqb c 8 then str "\b" ++ quote_chars s'
      else if N.eqb c 9 then str "\t" ++ quote_chars s'
      else if N.eqb c 10 then str "\n" ++ quote_chars s'
      else if N.eqb c 12 then str "\f" ++ quote_chars s'
      else if N.eqb c 13 then str "\r" ++ quote_chars s'
      else if N.eqb c 34 then str "\" ++ [c] ++ quote_chars s'
      else if N.eqb c 92 then str "\\" ++ quote_chars s'
      else if N.ltb c 32 then unicode_escape c ++ quote_chars s'
      else if is_high_surrogate c then
        match s' with
        | d :: s'' =>
            if is_low_surrogate d then c :: d :: quote_chars s''
            else unicode_escape c ++ quote_chars s'
        | [] => unicode_escape c
        end
      else if is_low_surrogate c then unicode_escape c ++ quote_chars s'
      else c :: quote_chars s'
  end.

Definition DQ : char := 34%N.

Definition quote (s : jsstring) : jsstring := DQ :: quote_chars s ++ [DQ].

(** [a.join(sep)] *)
Fixpoint join (sep : jsstring) (l : list jsstring) : jsstring :=
  match l with
  | [] => []
  | [x] => x
  | x :: l' => x ++ sep ++ join sep l'
  end.

Fixpoint JSON_stringify (v : json) : jsstring :=
  match v with
  | JString s => quote s
  | JObject props =>
      str "{" ++
      join (str ",")
        ((fix members (ps : list (jsstring * json)) : list jsstring :=
            match ps with
            | [] => []
            | (k, v') :: ps' => (quote k ++ str ":" ++ JSON_stringify v') :: members ps'
            end) props)
      ++ str "}"
  end.

(** ** Property access

    An object of the reference mapping has its own properties and inherits
    from [Object.prototype], whose properties are the built-in methods and
    the accessor [__proto__].  So a property access can also yield
    [Object.prototype] itself, a function, [null] or [undefined]. *)
Inductive jsvalue : Type :=
| VData (v : json)
| VObjectPrototype
| VFunction
| VNull
| VUndefined.

(** The objects that a property is read from. *)
Inductive jsobject : Type :=
| OData (props : list (jsstring * json))
| OObjectPrototype.

Definition PROTO : jsstring := str "__proto__".

(** The names of the function-valued properties of [Object.prototype]. *)
Definition objectPrototypeMethods : list jsstring :=
  [str "constructor"; str "__defineGetter__"; str "__defineSetter__";
   str "hasOwnProperty"; str "__lookupGetter__"; str "__lookupSetter__";
   str "isPrototypeOf"; str "propertyIsEnumerable"; str "toString";
   str "valueOf"; str "toLocaleString"].

(** The prototype of an object: [Object.prototype] for an object of the
    mapping, [null] for [Object.prototype]. *)
Definition prototype_of (o : jsobject) : jsvalue :=
  match o with
  | OData _ => VObjectPrototype
  | OObjectPrototype => VNull
  end.

(** [k in Object.prototype] *)
Definition in_object_prototype (k : jsstring) : bool :=
  jseqb k PROTO || existsb (jseqb k) objectPrototypeMethods.

(** The property [k] of [Object.prototype], read for the object [o]: the
    accessor [__proto__] answers with the prototype of [o]. *)
Definition inherited (o : jsobject) (k : jsstring) : jsvalue :=
  if jseqb k PROTO then prototype_of o
  else if existsb (jseqb k) objectPrototypeMethods then VFunction
  else VUndefined.

(** [o[k]]: an own property first, then the prototype. *)
Definition get (o : jsobject) (k : jsstring) : jsvalue :=
  match o with
  | OData props =>
      match lookup k props with
      | Some v => VData v
      | None => inherited o k
      end
  | OObjectPrototype => inherited o k
  end.

(** [k in o] *)
Definition has_property (o : jsobject) (k : jsstring) : bool :=
  match o with
  | OData props =>
      match lookup k props with
      | Some _ => true
      | None => in_object_prototype k
      end
  | OObjectPrototype => in_object_prototype k
  end.

(** [v && typeof v === 'object']: the object that [v] is, if it is one.
    A string has the type [string], a function the type [function], and
    [null] and [undefined] are falsy. *)
Definition as_object (v : jsvalue) : option jsobject :=
  match v with
  | VData (JObject props) => Some (OData props)
  | VObjectPrototype => Some OObjectPrototype
  | VData (JString _) | VFunction | VNull | VUndefined => None
  end.

(** [JSON.stringify(v)]; [None] is [undefined], the result for a function
    and for [undefined].  [Object.prototype] has no enumerable property. *)
Definition stringify (v : jsvalue) : option jsstring :=
  match v with
  | VData v' => Some (JSON_stringify v')
  | VObjectPrototype => Some (str "{}")
  | VNull => Some (str "null")
  | VFunction | VUndefined => None
  end.

(** [typeof v === 'string' ? v : JSON.stringify(v)] *)
Definition string_or_stringify (v : jsvalue) : option jsstring :=
  match v with
  | VData (JString s) => Some s
  | _ => stringify v
  end.

(** ** utils.js *)

(** A value handed to a function that expects a string. *)
Inductive jsarg : Type :=
| JNull
| JUndefined
| JStr (s : jsstring).

(** A value handed to a function that expects an object. *)
Inductive jsref : Type :=
| RNull
| RUndefined
| RObj (props : list (jsstring * json)).

Fixpoint seqs (rs : list regex) : regex :=
  match rs with
  | [] => Eps
  | [r] => r
  | r :: rs' => Seq r (seqs rs')
  end.

Definition IGNORED_FILES : list jsstring :=
  [str "package.json"; str "package-lock.json"; str "yarn.lock"].

Definition ignoredSource : jsstring :=
  str "^(" ++ join (str "|") IGNORED_FILES ++ str ")$|^node_modules/".

Definition ignoredRegex : regex :=
  match RegExp_new ignoredSource with
  | POk r => r
  | _ => Eps
  end.

(** [/^diff --git Q?a\/(.+?)Q? Q?b\/(.+?)Q?$/gm], with Q for the double
    quote character *)
Definition headerRegex : regex :=
  seqs [Bol; Lit (str "diff --git "); Opt (Chr DQ); Lit (str "a/");
        Grp 1 (Plus false Dot); Opt (Chr DQ); Lit (str " "); Opt (Chr DQ);
        Lit (str "b/"); Grp 2 (Plus false Dot); Opt (Chr DQ); Eol].

(** [/^Q|Q$/g], with Q for the double quote character *)
Definition quoteEnds : regex :=
  Alt (Seq Bol (Chr DQ)) (Seq (Chr DQ) Eol).

Record header : Type := Header {
  h_index : nat;
  h_path : jsstring
}.

(** The loop [while ((m = headerRegex.exec(diff)) !== null)], with the
    [lastIndex] of the regular expression object passed along. *)
Fixpoint collect_headers (fuel : nat) (diff : jsstring) (lastIndex : nat)
  : option (list header) :=
  match fuel with
  | O => None
  | S fuel' =>
      match exec_from true headerRegex diff lastIndex with
      | None => Some []
      | Some m =>
          let path := replace_all false quoteEnds (fun _ => []) (group 2 m) in
          option_map (cons (Header (index m) path))
            (collect_headers fuel' diff (index m + length (matched m)))
      end
  end.

(** The loop over [matches]: the span of a header runs to the next header
    or to the end of the text. *)
Fixpoint append_kept (diff : jsstring) (matches : list header) (result : jsstring)
  : jsstring :=
  match matches with
  | [] => result
  | h :: rest =>
      let start := h_index h in
      let end_ := match rest with
                  | h' :: _ => h_index h'
                  | [] => length diff
                  end in
      append_kept diff rest
        (if negb (test false ignoredRegex (h_path h))
         then result ++ slice diff start end_
         else result)
  end.

(** The result is [None] only if the header loop does not finish within
    its bound. *)
Definition filterDiffByIgnoredFiles (diff : jsarg) : option jsarg :=
  match diff with
  | JStr ((_ :: _) as d) =>
      match collect_headers (S (length d)) d 0 with
      | None => None
      | Some [] => Some diff
      | Some ((h0 :: _) as matches) =>
          let result := if Nat.ltb 0 (h_index h0) then slice d 0 (h_index h0) else [] in
          Some (JStr (append_kept d matches result))
      end
  | _ => Some diff
  end.

(** [/([.*+?^=!:${}()|[\]/-])/g] *)
Definition specialChars : regex :=
  Grp 1 (Cset (COneOf (str ".*+?^=!:${}()|[]/-"))).

(** [/\s+/g] *)
Definition whitespaceRun : regex := Plus true (Cset CSpace).

Definition convertToRegexPattern (input : jsstring) : jsstring :=
  replace_all false whitespaceRun (fun _ => str "\s+")
    (replace_all false specialChars (fun m => str "\" ++ group 1 m) input).

(** [POk n] is a returned number, [PSyntaxError] the exception of the
    RegExp constructor. *)
Definition getLineNumber (text searchString : jsarg) : presult Z :=
  match text, searchString with
  | JStr ((_ :: _) as t), JStr ((_ :: _) as s) =>
      let regexPattern := convertToRegexPattern s in
      pbind (RegExp_new regexPattern) (fun regex =>
        match exec false regex t with
        | None => POk (-1)%Z
        | Some m =>
            let textBeforeMatch := slice t 0 (index m) in
            let startLine := length (split_on LF textBeforeMatch) in
            let matchedLineCount := length (split_on LF (matched m)) in
            POk (Z.of_nat startLine + Z.of_nat matchedLineCount - 1)%Z
        end)
  | _, _ => POk (-1)%Z
  end.

Definition DOT : char := 46%N.

(** The loop over the parts of a dotted key; [None] is the early
    [return undefined]. *)
Fixpoint descend (parts : list jsstring) (current : jsvalue) : option jsvalue :=
  match parts with
  | [] => Some current
  | part :: parts' =>
      match as_object current with
      | Some o =>
          if has_property o part then descend parts' (get o part) else None
      | None => None
      end
  end.

(** [None] is [undefined]. *)
Definition getNestedValue (obj : jsref) (key : jsstring) : option jsstring :=
  match obj with
  | RObj props =>
      match get (OData props) key with
      | VUndefined =>
          let parts := split_on DOT key in
          match descend parts (VData (JObject props)) with
          | Some current => string_or_stringify current
          | None => None
          end
      | direct => string_or_stringify direct
      end
  | _ => None
  end.

Record change : Type := Change {
  file : jsstring;
  key : jsstring;
  value : jsstring;
  englishValue : jsstring;
  line : jsstring
}.

(** [/^diff --git/m] *)
Definition sectionStart : regex := Seq Bol (Lit (str "diff --git")).

(** [/\s+Q?b\/([^Q\s]+\.json)Q?\s*$/], with Q for the double quote
    character *)
Definition fileRegex : regex :=
  seqs [Plus true (Cset CSpace); Opt (Chr DQ); Lit (str "b/");
        Grp 1 (Seq (Plus true (Cset (CNot (COr (COneOf [DQ]) CSpace))))
                   (Lit (str ".json")));
        Opt (Chr DQ); Star true (Cset CSpace); Eol].

(** [/^\s*Q([^Q]+)Q:\s*Q(V)Q/], with Q for the double quote character
    and V for a dot under a greedy star *)
Definition kvRegex : regex :=
  seqs [Bol; Star true (Cset CSpace); Chr DQ;
        Grp 1 (Plus true (Cset (CNot (COneOf [DQ])))); Chr DQ; Lit (str ":");
        Star true (Cset CSpace); Chr DQ; Grp 2 (Star true Dot); Chr DQ].

Definition noEnglish : jsstring := str "(no English source found)".

(** [a || b] on a possibly undefined string *)
Definition or_else (a : option jsstring) (b : jsstring) : jsstring :=
  match a with
  | Some ((_ :: _) as s) => s
  | _ => b
  end.

Definition nonempty (s : jsstring) : bool :=
  match s with
  | [] => false
  | _ :: _ => true
  end.

(** The body of the inner loop: [changes] after one [line]. *)
Definition scanLine (englishTranslations : jsref) (filePath : jsstring)
    (changes : list change) (line : jsstring) : list change :=
  if startsWith line (str "+") && negb (startsWith line (str "+++")) then
    let content := skipn 1 line in
    match exec false kvRegex content with
    | Some kvMatch =>
        let key := group 1 kvMatch in
        let value := group 2 kvMatch in
        let englishValue := getNestedValue englishTranslations key in
        changes ++ [Change filePath key value (or_else englishValue noEnglish) content]
    | None => changes
    end
  else changes.

(** The body of the outer loop: [changes] after one [section]. *)
Definition scanSection (englishTranslations : jsref) (changes : list change)
    (section : jsstring) : list change :=
  let firstLine := hd [] (split_on LF section) in
  match exec false fileRegex firstLine with
  | None => changes
  | Some fileMatch =>
      let filePath := group 1 fileMatch in
      if negb (endsWith filePath (str ".json")) || jseqb filePath (str "en.json")
      then changes
      else
        let lines := split_on LF section in
        fold_left (scanLine englishTranslations filePath) lines changes
  end.

Definition parseTranslationChangesFromDiff (diff : jsstring)
    (englishTranslations : jsref) : list change :=
  let fileSections := filter nonempty (split_re true sectionStart diff) in
  fold_left (scanSection englishTranslations) fileSections [].

(** ** ai-review.js *)

(** A negative lookahead [(?!r)] in front of the continuation [k]: the
    pattern [r] is tried at the current position with a continuation that
    accepts at once; if it can be read the lookahead fails, otherwise the
    continuation goes on from the same position. *)
Definition not_followed_by (ml : bool) (r : regex) (k : cont) : cont :=
  fun x =>
    match mt ml r (fun y => Some y) x with
    | Some _ => None
    | None => k x
    end.

(** The leftmost match of a matcher that is given by its attempt at one
    position. *)
Fixpoint search_with (m : mstate -> option mstate) (bef aft : jsstring)
  : option (mstate * mstate) :=
  let x := MState bef aft [] in
  match m x with
  | Some z => Some (x, z)
  | None =>
      match aft with
      | [] => None
      | c :: aft' => search_with m (c :: bef) aft'
      end
  end.

Definition exec_with (m : mstate -> option mstate) (s : jsstring) (from : nat)
  : option match_result :=
  if Nat.ltb (length s) from then None
  else option_map result_of (search_with m (rev (firstn from s)) (skipn from s)).

(** [/^diff --git Q?a\/(.+?)Q? Q?b\/(.+?)Q?\n(?!deleted file mode)/gm], with
    Q for the double quote character: the part before the lookahead, and
    one attempt of the whole pattern. *)
Definition pathHead : regex :=
  seqs [Bol; Lit (str "diff --git "); Opt (Chr DQ); Lit (str "a/");
        Grp 1 (Plus false Dot); Opt (Chr DQ); Lit (str " "); Opt (Chr DQ);
        Lit (str "b/"); Grp 2 (Plus false Dot); Opt (Chr DQ); Chr 10].

Definition deletedMark : jsstring := str "deleted file mode".

Definition pathRegex (x : mstate) : option mstate :=
  mt true pathHead (not_followed_by true (Lit deletedMark) (fun y => Some y)) x.

(** The loop [while ((match = pathRegex.exec(diff)) !== null)] of
    [getTouchedFilesContent], with the [lastIndex] of the regular
    expression object passed along. *)
Fixpoint collect_files (fuel : nat) (diff : jsstring) (lastIndex : nat)
    (files : list jsstring) : option (list jsstring) :=
  match fuel with
  | O => None
  | S fuel' =>
      match exec_with pathRegex diff lastIndex with
      | None => Some files
      | Some m =>
          let path := replace_all false quoteEnds (fun _ => []) (group 2 m) in
          let lastIndex' := index m + length (matched m) in
          if test false ignoredRegex path
          then collect_files fuel' diff lastIndex' files
          else if endsWith path (str ".json")
          then collect_files fuel' diff lastIndex' (files ++ [path])
          else collect_files fuel' diff lastIndex' files
      end
  end.

(** An entry of [fileContents]; [None] is a [null] content. *)
Record fileContent : Type := FileContent {
  path : jsstring;
  content : option jsstring
}.

Definition has_content (f : fileContent) : bool :=
  match content f with
  | Some _ => true
  | None => false
  end.

(** [getFileContent path commit] stands for the answer of the repository:
    the text of the file, or [null]. The result is [None] only if the
    header loop does not finish within its bound. *)
Definition getTouchedFilesContent
    (getFileContent : jsstring -> jsstring -> option jsstring)
    (diff commit : jsstring) : option (list fileContent) :=
  match collect_files (S (length diff)) diff 0 [] with
  | None => None
  | Some files =>
      let fileContents :=
        map (fun path => FileContent path (getFileContent path commit)) files in
      Some (filter has_content fileContents)
  end.

(** An entry of [review.issues] with its three texts; [None] in
    [lineNumber] is a property that is not set. *)
Record issue : Type := Issue {
  filePath : jsstring;
  lineContent : jsstring;
  comment : jsstring;
  lineNumber : option Z
}.

(** A [content] as an argument of [getLineNumber]. *)
Definition text_arg (c : option jsstring) : jsarg :=
  match c with
  | Some s => JStr s
  | None => JNull
  end.

(** What is added to the comment of an issue whose line is not found:
    a line feed, the path and a colon, and the line content between two
    lines of three backquotes. *)
Definition notFoundNote (filePath lineContent : jsstring) : jsstring :=
  [LF] ++ filePath ++ str ":" ++ [LF] ++ str "```" ++ [LF]
  ++ lineContent ++ [LF] ++ str "```".

(** The body of [review.issues?.forEach]: the element after the step.
    A [SyntaxError] of [getLineNumber] is caught and leaves the element as
    it is; [PUnsupported] stands for a pattern outside the model of the
    RegExp constructor. *)
Definition locateIssue (fileContents : list fileContent) (element : issue)
  : presult issue :=
  let filePath := filePath element in
  match find (fun file => jseqb (path file) filePath) fileContents with
  | Some fileContent =>
      match getLineNumber (text_arg (content fileContent))
                          (JStr (lineContent element)) with
      | POk lineNumber =>
          POk (Issue filePath (lineContent element)
                 (if Z.eqb lineNumber (-1)
                  then comment element ++ notFoundNote filePath (lineContent element)
                  else comment element)
                 (Some lineNumber))
      | PSyntaxError => POk element
      | PUnsupported => PUnsupported
      end
  | None => POk element
  end.

(** * The vocabulary of the properties *)

(** ** What the matcher accepts

    [Matches r x y]: the regular expression [r] can read the input from
    state [x] to state [y].  The matcher returns a result exactly when some
    such reading makes its continuation succeed. *)

Inductive Matches (ml : bool) : regex -> mstate -> mstate -> Prop :=
| MEps x : Matches ml Eps x x
| MCset s c rest x :
    after x = c :: rest -> cmem s c = true ->
    Matches ml (Cset s) x (MState (c :: before x) rest (caps x))
| MSeq r1 r2 x y z :
    Matches ml r1 x y -> Matches ml r2 y z -> Matches ml (Seq r1 r2) x z
| MAltL r1 r2 x y : Matches ml r1 x y -> Matches ml (Alt r1 r2) x y
| MAltR r1 r2 x y : Matches ml r2 x y -> Matches ml (Alt r1 r2) x y
| MStar0 g r x : Matches ml (Star g r) x x
| MStarS g r x y z :
    Matches ml r x y -> length (after y) < length (after x) ->
    Matches ml (Star g r) y z -> Matches ml (Star g r) x z
| MGrp n r x y : Matches ml r x y -> Matches ml (Grp n r) x (set_cap n x y)
| MBol x : at_bol ml x = true -> Matches ml Bol x x
| MEol x : at_eol ml x = true -> Matches ml Eol x x
| MWordB neg x : xorb neg (at_wordb x) = true -> Matches ml (WordB neg) x x.

(** ** Runs of characters and readings *)

Definition all_in (p : char -> bool) (w : jsstring) : Prop :=
  Forall (fun c => p c = true) w.

(** The longest prefix of [s] in the class [p], and what follows it. *)
Fixpoint span (p : char -> bool) (s : jsstring) : jsstring * jsstring :=
  match s with
  | [] => ([], [])
  | c :: s' =>
      if p c then let '(w, r) := span p s' in (c :: w, r) else ([], s)
  end.

(** The state reached from [x] by reading [w], with [rest] left. *)
Definition read (w : jsstring) (rest : jsstring) (x : mstate) : mstate :=
  MState (rev w ++ before x) rest (caps x).

(** ** Priorities: greedy repetition of a class, and the leftmost start *)

(** A greedy star over a class tries the longest run first and gives back
    one character at a time. *)
Fixpoint greedy_run (p : char -> bool) (k : cont) (bef aft : jsstring)
    (cps : list (nat * jsstring)) : option mstate :=
  match aft with
  | c :: rest =>
      if p c then
        match greedy_run p k (c :: bef) rest cps with
        | Some z => Some z
        | None => k (MState bef aft cps)
        end
      else k (MState bef aft cps)
  | [] => k (MState bef aft cps)
  end.

(** ** The key/value line pattern *)

Definition COLON : char := 58%N.

Definition not_dq (c : char) : bool := negb (N.eqb c DQ || false).
Definition not_newline (c : char) : bool := negb (is_newline c).

(** A line content of the shape [ws Q key Q : ws Q value Q rest]: the key
    is not empty and holds no quote, the value holds no line terminator and
    runs up to the last quote that a text without line terminators can
    reach. *)
Definition kv_shape (content k v : jsstring) : Prop :=
  exists ws1 ws2 rest,
    content = ws1 ++ DQ :: k ++ DQ :: COLON :: ws2 ++ DQ :: v ++ DQ :: rest
    /\ all_in is_space ws1 /\ k <> [] /\ all_in not_dq k
    /\ all_in is_space ws2 /\ all_in not_newline v
    /\ (forall v' rest', v ++ DQ :: rest = v' ++ DQ :: rest' ->
          all_in not_newline v' -> length v' <= length v).

(** [content.match(kvRegex)] and the destructuring [[, key, value]]. *)
Definition kvMatch (content : jsstring) : option (jsstring * jsstring) :=
  option_map (fun m => (group 1 m, group 2 m)) (exec false kvRegex content).

(** The pattern up to the quote that opens the value, and the rest. *)
Definition kv_head : regex :=
  seqs [Bol; Star true (Cset CSpace); Chr DQ;
        Grp 1 (Plus true (Cset (CNot (COneOf [DQ])))); Chr DQ; Lit (str ":");
        Star true (Cset CSpace); Chr DQ].

Definition kv_tail : regex := Seq (Grp 2 (Star true Dot)) (Chr DQ).

(** The state after the quote that opens the value. *)
Definition kv_head_state (ws1 k ws2 rest : jsstring) : mstate :=
  MState (DQ :: rev ws2 ++ COLON :: DQ :: rev k ++ DQ :: rev ws1) rest [(1, k)].

(** The closing quote after the value, seen from the state [y] where the
    value starts. *)
Definition kv_close (y : mstate) : cont :=
  fun y' => mt false (Chr DQ) (fun z => Some z) (set_cap 2 y y').

(** ** Change extraction *)

Definition PLUS : char := 43%N.
Definition MINUS : char := 45%N.

(** The sections of a diff: the non-empty pieces between the
    [diff --git] line starts. *)
Definition sections (diff : jsstring) : list jsstring :=
  filter nonempty (split_re true sectionStart diff).

(** The destination path of a section that is not skipped. *)
Definition retainedFile (section : jsstring) : option jsstring :=
  match exec false fileRegex (hd [] (split_on LF section)) with
  | Some fileMatch =>
      let filePath := group 1 fileMatch in
      if negb (endsWith filePath (str ".json")) || jseqb filePath (str "en.json")
      then None else Some filePath
  | None => None
  end.

(** An added line with a key and a value: one [+], not [+++], and the
    key/value shape after the marker. *)
Definition qualifies (line k v : jsstring) : Prop :=
  exists content, line = PLUS :: content
    /\ startsWith line (str "+++") = false /\ kv_shape content k v.

(** The record for a qualifying line of the file [f]. *)
Definition record_of (ref : jsref) (f line k v : jsstring) : change :=
  Change f k v (or_else (getNestedValue ref k) noEnglish) (skipn 1 line).

(** The records of one section. *)
Definition section_changes (ref : jsref) (section : jsstring) : list change :=
  match retainedFile section with
  | Some f => flat_map (scanLine ref f []) (split_on LF section)
  | None => []
  end.

(** ** Nested-key lookup *)

(** The object with the properties [props] has the own property [k], with
    the value [v]. *)
Definition own_property (props : list (jsstring * json)) (k : jsstring)
    (v : json) : Prop :=
  exists pre post, props = pre ++ (k, v) :: post /\ ~ In k (map fst pre).

Definition no_own_property (props : list (jsstring * json)) (k : jsstring)
  : Prop :=
  ~ In k (map fst props).

(** [Resolves v parts w]: following the path [parts] from [v], one own
    property after the other, ends in [w]. *)
Inductive Resolves : json -> list jsstring -> json -> Prop :=
| ResolvesHere v : Resolves v [] v
| ResolvesStep props part parts v w :
    own_property props part v -> Resolves v parts w ->
    Resolves (JObject props) (part :: parts) w.

(** The path cannot be followed at [part]: the value is a string, or an
    object without that property. *)
Definition missing_at (v : json) (part : jsstring) : Prop :=
  match v with
  | JString _ => True
  | JObject props => no_own_property props part
  end.

(** The key names the value [w] of the mapping: as one flat key or, when
    there is no such flat key, as a dotted path. *)
Definition resolves_to (ref : jsref) (k : jsstring) (w : json) : Prop :=
  exists props, ref = RObj props
    /\ (own_property props k w
        \/ (no_own_property props k
            /\ Resolves (JObject props) (split_on DOT k) w)).

(** The key is absent from the mapping. *)
Definition absent_from (ref : jsref) (k : jsstring) : Prop :=
  forall w, ~ resolves_to ref k w.

(** A value of the mapping as a text: a string as it is, an object as
    its JSON text. *)
Definition value_text (w : json) : jsstring :=
  match w with
  | JString s => s
  | JObject _ => JSON_stringify w
  end.

(** No part of the dotted key is [__proto__]. *)
Definition no_proto_part (k : jsstring) : Prop :=
  ~ In PROTO (split_on DOT k).

(** ** The diff filter *)

(** Header positions at or after [from], in increasing order, inside the
    text. *)
Fixpoint increasing (s : jsstring) (from : nat) (hs : list header) : Prop :=
  match hs with
  | [] => True
  | h :: rest =>
      from <= h_index h /\ h_index h < length s /\ increasing s (S (h_index h)) rest
  end.

(** The headers of a text. *)
Definition headers (d : jsstring) : list header :=
  match collect_headers (S (length d)) d 0 with
  | Some hs => hs
  | None => []
  end.

(** One span for each header: the text from the header up to the next
    header or the end. *)
Fixpoint spans (d : jsstring) (hs : list header) : list (header * jsstring) :=
  match hs with
  | [] => []
  | h :: rest =>
      (h, slice d (h_index h)
            (match rest with
             | h' :: _ => h_index h'
             | [] => length d
             end)) :: spans d rest
  end.

(** The text before the first header. *)
Definition preamble (d : jsstring) (hs : list header) : jsstring :=
  match hs with
  | [] => d
  | h :: _ => firstn (h_index h) d
  end.

(** The span is not dropped. *)
Definition kept (hs : header * jsstring) : bool :=
  negb (test false ignoredRegex (h_path (fst hs))).

(** ** The line locator *)

Definition falsy (v : jsarg) : bool :=
  match v with
  | JStr (_ :: _) => false
  | _ => true
  end.

(** One attempt of the pattern at index [i] of the text. *)
Definition match_at (r : regex) (t : jsstring) (i : nat) : option mstate :=
  match_here false r (MState (rev (firstn i t)) (skipn i t) []).

(** The text read by an attempt at index [i] that ended in [z]. *)
Definition text_of (t : jsstring) (i : nat) (z : mstate) : jsstring :=
  consumed (MState (rev (firstn i t)) (skipn i t) []) z.

(** The text is empty or starts with a character outside the class [p]. *)
Definition stops (p : char -> bool) (post : jsstring) : Prop :=
  match post with
  | [] => True
  | c :: _ => p c = false
  end.

(** The class of the first replacement of [convertToRegexPattern]. *)
Definition special_set : cset := COneOf (str ".*+?^=!:${}()|[]/-").

Definition not_space (c : char) : bool := negb (is_space c).

(** ** The destination path of a section *)

(** A character of the class [[^Q\s]], with Q the double quote. *)
Definition path_char (c : char) : bool :=
  negb ((N.eqb c DQ || false) || is_space c).

(** Nothing, or one double quote. *)
Definition quote_opt (q : jsstring) : Prop := q = [] \/ q = [DQ].

Definition B_SLASH : jsstring := str "b/".
Definition DOT_JSON : jsstring := str ".json".

(** A first line names the file [f]: it ends in whitespace, an optional
    quote, [b/], the file, an optional quote and optional whitespace, and
    the file is a stem of one or more characters other than whitespace and
    quotes followed by [.json]. *)
Definition names_file (firstLine f : jsstring) : Prop :=
  exists pre ws q1 stem q2 trail,
    firstLine = pre ++ ws ++ q1 ++ B_SLASH ++ stem ++ DOT_JSON ++ q2 ++ trail
    /\ ws <> [] /\ all_in is_space ws /\ quote_opt q1
    /\ stem <> [] /\ all_in path_char stem /\ quote_opt q2
    /\ all_in is_space trail
    /\ f = stem ++ DOT_JSON.

(** ** Snippets without a backslash *)

Definition BACKSLASH : char := 92%N.

Definition is_special (c : char) : bool := cmem special_set c.

(** What the first replacement makes of one character. *)
Definition escape_char (c : char) : jsstring :=
  if is_special c then [BACKSLASH; c] else [c].

(** The pattern of a snippet, character by character; [in_ws] tells
    whether the character before was whitespace. *)
Fixpoint pattern_of (in_ws : bool) (s : jsstring) : jsstring :=
  match s with
  | [] => []
  | c :: s' =>
      if is_space c
      then (if in_ws then [] else str "\s+") ++ pattern_of true s'
      else escape_char c ++ pattern_of false s'
  end.

(** The regular expression of a snippet. *)
Fixpoint regex_of (in_ws : bool) (s : jsstring) : regex :=
  match s with
  | [] => Eps
  | c :: s' =>
      if is_space c
      then (if in_ws then regex_of true s'
            else Seq (Plus true (Cset CSpace)) (regex_of true s'))
      else Seq (Chr c) (regex_of false s')
  end.

(** [variant in_ws s m]: the text [m] is the snippet [s] with every run of
    whitespace replaced by some run of whitespace that is not empty. *)
Inductive variant : bool -> jsstring -> jsstring -> Prop :=
| VariantNil b : variant b [] []
| VariantChar b c s m :
    is_space c = false -> variant false s m -> variant b (c :: s) (c :: m)
| VariantRun c s w m :
    is_space c = true -> w <> [] -> all_in is_space w ->
    variant true s m -> variant false (c :: s) (w ++ m)
| VariantMore c s m :
    is_space c = true -> variant true s m -> variant true (c :: s) m.

Definition no_backslash (s : jsstring) : Prop :=
  Forall (fun c => c <> BACKSLASH) s.

(** The text starts with no special character. *)
Definition plain_head (s : jsstring) : Prop :=
  match s with
  | [] => True
  | h :: _ => is_special h = false
  end.

(** ** Literal snippets *)

(** The snippet holds no whitespace. *)
Definition no_space (s : jsstring) : Prop := all_in not_space s.

(** The snippet [s] starts at the index [i] of the text [t] and at no
    index before it. *)
Definition first_at (t s : jsstring) (i : nat) : bool :=
  startsWith (skipn i t) s
  && forallb (fun j => negb (startsWith (skipn j t) s)) (seq 0 i).

(** ** Ignored paths *)

(** The regular expression of a pattern text without operators other than
    the dot. *)
Fixpoint wild (pat : jsstring) : regex :=
  match pat with
  | [] => Eps
  | c :: p => Seq (if N.eqb c DOT then Dot else Chr c) (wild p)
  end.

(** [wild_eqb pat s]: the text [s] is [pat], except that where [pat] has a
    dot [s] has any one character that is not a line terminator. *)
Fixpoint wild_eqb (pat s : jsstring) : bool :=
  match pat, s with
  | [], [] => true
  | c :: pat', d :: s' =>
      (if N.eqb c DOT then negb (is_newline d) else N.eqb d c) && wild_eqb pat' s'
  | _, _ => false
  end.

(** The paths the ignore pattern accepts. *)
Definition ignored (path : jsstring) : bool :=
  existsb (fun f => wild_eqb f path) IGNORED_FILES
  || startsWith path (str "node_modules/").

(** ** Header lines of the file loop *)

(** A header line that the file loop accepts at the index [length pre] of
    the text: it starts a line, begins with [diff --git ], ends in [b/],
    the text [g] of the second group and an optional quote, is followed by
    a line feed, and the next line does not begin with
    [deleted file mode]. *)
Definition touched_at (diff pre g : jsstring) : Prop :=
  exists mid q post,
    diff = pre ++ (str "diff --git " ++ mid ++ B_SLASH ++ g ++ q) ++ LF :: post
    /\ (pre = [] \/ exists pre' c, pre = pre' ++ [c] /\ is_newline c = true)
    /\ g <> [] /\ all_in not_newline g /\ quote_opt q
    /\ startsWith post deletedMark = false.

(** The file pattern matches at the index [length pre] of the text, with
    [g] in its second group. *)
Definition path_match (diff pre g : jsstring) : Prop :=
  exists post z,
    diff = pre ++ post /\ pathRegex (MState (rev pre) post []) = Some z
    /\ get_cap 2 (caps z) = Some g.

(** A text without the double quote that ends it, if there is one. *)
Fixpoint drop_last_quote (s : jsstring) : jsstring :=
  match s with
  | [] => []
  | c :: s' =>
      match s' with
      | [] => if N.eqb c DQ then [] else [c]
      | _ :: _ => c :: drop_last_quote s'
      end
  end.

(** A text without the double quote that starts it and without the one
    that ends it. *)
Definition strip_quotes (g : jsstring) : jsstring :=
  match g with
  | [] => []
  | c :: t => if N.eqb c DQ then drop_last_quote t else c :: drop_last_quote t
  end.

(** ** The blocks of a diff *)

(** The words that start a section. *)
Definition DIFF_GIT : jsstring := str "diff --git".

(** The position after the text [bef] (last character first) starts a
    line. *)
Definition line_start (bef : jsstring) : bool :=
  match bef with
  | [] => true
  | c :: _ => is_newline c
  end.

(** Every part but the last one ends a line. *)
Fixpoint closed_blocks (l : list jsstring) : Prop :=
  match l with
  | [] => True
  | s :: l' => (l' <> [] -> line_start (rev s) = true) /\ closed_blocks l'
  end.

(** A header of the text [d]: its index is inside the text, at the start
    of a line, and the text goes on with [diff --git ] there. *)
Definition header_ok (d : jsstring) (h : header) : Prop :=
  h_index h < length d
  /\ line_start (rev (firstn (h_index h) d)) = true
  /\ startsWith (skipn (h_index h) d) (str "diff --git ") = true.

(** No section starts inside the text [s]: at no index but the first, at
    the start of a line, does the text go on with [diff --git]. *)
Definition no_section_start (s : jsstring) : Prop :=
  forall a b, s = a ++ b -> a <> [] -> line_start (rev a) = true ->
    startsWith b DIFF_GIT = false.

(** A text in which no section starts, at the first index either. *)
Definition plain (p : jsstring) : Prop :=
  startsWith p DIFF_GIT = false /\ no_section_start p.

(** The text [p ++ diff --git b1 ++ diff --git b2 ++ ...] cut where its
    sections start: [p] is plain, no section starts inside a [b], and every
    [diff --git] is at the start of a line. *)
Definition cut_at_sections (d p : jsstring) (bodies : list jsstring) : Prop :=
  d = p ++ concat (map (app DIFF_GIT) bodies)
  /\ plain p
  /\ Forall no_section_start bodies
  /\ closed_blocks (map (app DIFF_GIT) bodies)
  /\ (bodies <> [] -> line_start (rev p) = true).

(** No section starts in [s] when the text before it is [bef] (last
    character first). *)
Definition plain_after (bef s : jsstring) : Prop :=
  forall a b, s = a ++ b -> line_start (rev a ++ bef) = true ->
    startsWith b DIFF_GIT = false.

(** No section starts in [s] when the text before it is [bef], as a
    check. *)
Fixpoint section_free (bef s : jsstring) : bool :=
  match s with
  | [] => true
  | c :: s' =>
      negb (line_start bef && startsWith s DIFF_GIT) && section_free (c :: bef) s'
  end.

(** ** Matching inside one line *)

(** Two results that are both absent, or both present and related. *)
Definition orel (P : mstate -> mstate -> Prop) (a b : option mstate) : Prop :=
  match a, b with
  | Some z, Some z' => P z z'
  | None, None => True
  | _, _ => False
  end.

(** A class that holds no line terminator, and a regular expression that
    reads no line terminator and looks at nothing but the start and the
    end of the line. *)
Definition line_cset (s : cset) : bool :=
  match s with
  | COneOf cs => forallb not_newline cs
  | CNot CNewline => true
  | _ => false
  end.

Fixpoint line_regex (r : regex) : bool :=
  match r with
  | Eps | Bol | Eol => true
  | Cset s => line_cset s
  | Seq r1 r2 | Alt r1 r2 => line_regex r1 && line_regex r2
  | Star _ r' | Grp _ r' => line_regex r'
  | WordB _ => false
  end.

(** The text is empty or starts with a line terminator. *)
Definition line_end (r : jsstring) : bool :=
  match r with
  | [] => true
  | c :: _ => is_newline c
  end.

(** Two states at the same place of the same line, in two texts: [B] and
    [B'] are what the texts hold before the line (last character first),
    [r] and [r'] what they hold from the end of the line on, [w] is the
    part of the line that is read and [l] the part still to read. *)
Definition same_line (B B' r r' : jsstring) (x x' : mstate) : Prop :=
  exists w l,
    before x = rev w ++ B /\ before x' = rev w ++ B'
    /\ after x = l ++ r /\ after x' = l ++ r'
    /\ caps x = caps x' /\ all_in not_newline l.

(** Two continuations that give results related by [Q] at two states at
    the same place of the line. *)
Definition krel (Q : mstate -> mstate -> Prop) (B B' r r' : jsstring)
    (k k' : cont) : Prop :=
  forall y y', same_line B B' r r' y y' -> orel Q (k y) (k' y').

(** The header found by an attempt at index [i] that ended in [z]. *)
Definition header_of (i : nat) (z : mstate) : header :=
  Header i (replace_all false quoteEnds (fun _ => [])
              (match get_cap 2 (caps z) with
               | Some s => s
               | None => []
               end)).

(** The headers at every position from the state [(bef, aft)] on, [i]
    being the index of that position. *)
Fixpoint scan_headers (i : nat) (bef aft : jsstring) : list header :=
  match match_here true headerRegex (MState bef aft []) with
  | Some z => [header_of i z]
  | None => []
  end ++
  match aft with
  | [] => []
  | c :: aft' => scan_headers (S i) (c :: bef) aft'
  end.

(** A header moved forward by [n] characters. *)
Definition shift (n : nat) (h : header) : header :=
  Header (n + h_index h) (h_path h).

(** A block holds one header, at its start, with the path of [sp]. *)
Definition block_ok (sp : header * jsstring) : Prop :=
  scan_headers 0 [] (snd sp) = [Header 0 (h_path (fst sp))].

(** ** Header lines of the filter *)

(** A header line at the index [length pre] of the text: it starts a
    line, begins with [diff --git ], ends in [b/], the text [g] of the
    second group and an optional quote, and the line ends there. *)
Definition header_at (d pre g : jsstring) : Prop :=
  exists mid q post,
    d = pre ++ (str "diff --git " ++ mid ++ B_SLASH ++ g ++ q) ++ post
    /\ (pre = [] \/ exists pre' c, pre = pre' ++ [c] /\ is_newline c = true)
    /\ g <> [] /\ all_in not_newline g /\ quote_opt q
    /\ line_end post = true.

(** ** The header pattern and the file pattern *)

(** What the header pattern of the filter and the file pattern of the
    review have in common: everything up to the optional quote after the
    second group. *)
Definition headerStem : regex :=
  seqs [Bol; Lit (str "diff --git "); Opt (Chr DQ); Lit (str "a/");
        Grp 1 (Plus false Dot); Opt (Chr DQ); Lit (str " "); Opt (Chr DQ);
        Lit (str "b/"); Grp 2 (Plus false Dot); Opt (Chr DQ)].

(** Two results with the same captures. *)
Definition same_caps (z z' : mstate) : Prop := caps z = caps z'.

(** ** Example inputs *)

(** [qstr s] is [str s] with every backquote turned into a double quote. *)
Definition qstr (s : string) : jsstring :=
  map (fun c => if N.eqb c 96 then DQ else c) (str s).
Arguments qstr s%_string.

(** [s.includes(sub)] *)
Fixpoint includes (s sub : jsstring) : bool :=
  startsWith s sub ||
  match s with
  | [] => false
  | _ :: s' => includes s' sub
  end.

Definition png_diff : jsstring := str "diff --git a/src/App.tsx b/src/App.tsx
--- a/src/App.tsx
+++ b/src/App.tsx
@@ -1 +1 @@
-old
+new
diff --git a/assets/icon.png b/assets/icon.png
Binary files differ".

Definition yarn_diff : jsstring := str "diff --git a/src/App.tsx b/src/App.tsx
--- a/src/App.tsx
+++ b/src/App.tsx
@@ -1,3 +1,4 @@
+import { useState } from 'react';
diff --git a/yarn.lock b/yarn.lock
--- a/yarn.lock
+++ b/yarn.lock
@@ -1,3 +1,4 @@
+some-package@1.0.0:".

Definition json_text : jsstring := qstr "{
  `greeting`: `Hello\nWorld`,
}".

Definition json_line : jsstring := qstr "  `greeting`: `Hello\nWorld`,".

Definition title_diff : jsstring := qstr "diff --git a/de.json b/de.json
--- a/de.json
+++ b/de.json
@@ -1,3 +1,3 @@
+  `title`: `Titel`,".

Definition title_ref : jsref := RObj [(str "title", JString [])].

Definition title_change : change :=
  Change (str "de.json") (str "title") (str "Titel") noEnglish
         (qstr "  `title`: `Titel`,").

Definition spaced_path_diff : jsstring := qstr "diff --git `a/my file.json` `b/my file.json`
--- `a/my file.json`
+++ `b/my file.json`
@@ -1 +1 @@
+  `starting_point`: `Startpunkt`,".

Definition spaced_path_section : jsstring := qstr " `a/my file.json` `b/my file.json`
--- `a/my file.json`
+++ `b/my file.json`
@@ -1 +1 @@
+  `starting_point`: `Startpunkt`,".

Definition zh_section : jsstring := qstr " `a/zh-CN.json` `b/zh-CN.json`
--- `a/zh-CN.json`
+++ `b/zh-CN.json`
@@ -1,3 +1,3 @@
+  `starting_point`: `x`,".

(** The inputs of the test suite. *)
Definition translations : jsref :=
  RObj [(str "simple_key", JString (str "Simple value"));
        (str "nested",
           JObject [(str "child", JString (str "Nested value"));
                    (str "deep", JObject [(str "key", JString (str "Deep nested value"))])]);
        (str "charger",
           JObject [(str "zero", JString (str "No charges"));
                    (str "one", JString (str "One charge"));
                    (str "other", JString (str "{{count}} charges"))])].

Definition englishTranslations : jsref :=
  RObj [(str "starting_point", JString (str "Starting point"));
        (str "ending_point", JString (str "The end of your trip"));
        (str "settings", JString (str "Settings"));
        (str "charger",
           JObject [(str "zero", JString (str "No charges"));
                    (str "one", JString (str "One charge"))])].

Definition de_diff : jsstring := qstr "diff --git a/de.json b/de.json
index 123..456 789
--- a/de.json
+++ b/de.json
@@ -1,3 +1,3 @@
 {
-  `starting_point`: `Startpunkttt`,
+  `starting_point`: `Startpunkt`,
   `ending_point`: `Ende der Reise`
 }".

Definition en_diff : jsstring := qstr "diff --git a/en.json b/en.json
--- a/en.json
+++ b/en.json
@@ -1,3 +1,3 @@
 {
+  `new_key`: `New value`,
 }".

Definition two_files_diff : jsstring := qstr "diff --git a/de.json b/de.json
--- a/de.json
+++ b/de.json
@@ -1,3 +1,3 @@
+  `starting_point`: `Startpunkt`,
diff --git a/fr.json b/fr.json
--- a/fr.json
+++ b/fr.json
@@ -1,3 +1,3 @@
+  `starting_point`: `Point de depart`,".

Definition readme_diff : jsstring := qstr "diff --git a/README.md b/README.md
--- a/README.md
+++ b/README.md
+  `not_a_translation`: `value`,".

Definition zh_diff : jsstring := qstr "diff --git `a/zh-CN.json` `b/zh-CN.json`
--- `a/zh-CN.json`
+++ `b/zh-CN.json`
@@ -1,3 +1,3 @@
+  `starting_point`: `x`,".

Definition sampleCode : jsstring := str "import React from 'react';

const Component = () => {
  const [count, setCount] = useState(0);
  
  const handleClick = () => {
    setCount(count + 1);
  };
  
  return <div>{count}</div>;
};

export default Component;".

Definition codeWithDuplicates : jsstring := str "console.log('first');
console.log('middle');
console.log('first');".

Definition podfile_diff : jsstring := str "diff --git a/ios/Podfile.lock b/ios/Podfile.lock
--- a/ios/Podfile.lock
+++ b/ios/Podfile.lock
@@ -1 +1 @@
-old
+new".

Definition nitrogen_diff : jsstring :=
  str "diff --git a/packages/nitrogen/generated/File.ts b/packages/nitrogen/generated/File.ts
--- a/packages/nitrogen/generated/File.ts
+++ b/packages/nitrogen/generated/File.ts
@@ -1 +1 @@
-old
+new
diff --git a/src/real-code.ts b/src/real-code.ts
--- a/src/real-code.ts
+++ b/src/real-code.ts
@@ -1 +1 @@
-old
+new".

Definition preamble_diff : jsstring := str "Some preamble text
Another line of metadata
diff --git a/src/App.tsx b/src/App.tsx
--- a/src/App.tsx
+++ b/src/App.tsx
@@ -1 +1 @@
-old
+new".

Definition quoted_diff : jsstring :=
  qstr "diff --git `a/path with spaces/file.ts` `b/path with spaces/file.ts`
--- `a/path with spaces/file.ts`
+++ `b/path with spaces/file.ts`
@@ -1 +1 @@
-old
+new".

(** The text of a result, empty when there is none. *)
Definition text_or_empty (r : option jsarg) : jsstring :=
  match r with
  | Some (JStr s) => s
  | _ => []
  end.

Definition review_diff : jsstring := qstr "diff --git a/de.json b/de.json
--- a/de.json
+++ b/de.json
@@ -1,3 +1,3 @@
+  `starting_point`: `Startpunkt`,
diff --git a/package.json b/package.json
--- a/package.json
+++ b/package.json
@@ -1,3 +1,3 @@
+  `version`: `2.0.0`,
diff --git `a/zh-CN.json` `b/zh-CN.json`
--- `a/zh-CN.json`
+++ `b/zh-CN.json`
@@ -1,3 +1,3 @@
+  `settings`: `x`,
".

Definition review_kept : jsstring :=
  Eval vm_compute in text_or_empty (filterDiffByIgnoredFiles (JStr review_diff)).

Definition de_contents : list fileContent :=
  [FileContent (str "de.json") (Some json_text)].

Definition greeting_issue : issue :=
  Issue (str "de.json") (qstr "  `greeting`: `Hello") (str "typo") None.

Definition greeting_located : issue :=
  Issue (str "de.json") (qstr "  `greeting`: `Hello") (str "typo") (Some 2%Z).

Definition de_part : jsstring := qstr "diff --git a/de.json b/de.json
--- a/de.json
+++ b/de.json
@@ -1,3 +1,3 @@
+  `starting_point`: `Startpunkt`,
".

Definition fr_part : jsstring := qstr "diff --git a/fr.json b/fr.json
--- a/fr.json
+++ b/fr.json
@@ -1,3 +1,3 @@
+  `starting_point`: `Point de depart`,".

Definition proto_diff : jsstring := qstr "diff --git a/de.json b/de.json
--- a/de.json
+++ b/de.json
@@ -1,3 +1,3 @@
+  `__proto__`: `Prototyp`,".

Definition windows_dir : jsstring := str "C:\".

Definition windows_text : jsstring := qstr "{
  `folder`: `Ordner C:\\`
}".

Definition de_body : jsstring := qstr " a/de.json b/de.json
--- a/de.json
+++ b/de.json
@@ -1,3 +1,3 @@
+  `starting_point`: `Startpunkt`,
".

Definition fr_body : jsstring := qstr " a/fr.json b/fr.json
--- a/fr.json
+++ b/fr.json
@@ -1,3 +1,3 @@
+  `starting_point`: `Point de depart`,".

(** * Properties *)

(** ** Strings *)

Lemma jseqb_eq a b : jseqb a b = true <-> a = b.
Proof.
  revert b; induction a as [|x a IH]; intros [|y b]; simpl; split;
    try congruence; try discriminate.
  - intros H; apply andb_true_iff in H as [H1 H2].
    apply N.eqb_eq in H1; apply IH in H2; congruence.
  - intros H; inversion H; subst.
    rewrite N.eqb_refl; simpl; apply IH; reflexivity.
Qed.

Lemma jseqb_refl a : jseqb a a = true.
Proof. apply jseqb_eq; reflexivity. Qed.

Lemma jseqb_neq a b : jseqb a b = false <-> a <> b.
Proof.
  split.
  - intros H E; apply jseqb_eq in E; congruence.
  - intros H; destruct (jseqb a b) eqn:E; [apply jseqb_eq in E; contradiction | reflexivity].
Qed.

(** ** Soundness and completeness of the matcher *)

Section Semantics.
Variable ml : bool.

Lemma repeat_sound body g r :
  (forall k x z, body k x = Some z -> exists y, Matches ml r x y /\ k y = Some z) ->
  forall fuel k x z, repeat_m body g fuel k x = Some z ->
    exists y, Matches ml (Star g r) x y /\ k y = Some z.
Proof.
  intros Hb; induction fuel as [|f IH]; intros k x z H; simpl in H.
  - exists x; split; [constructor | exact H].
  - assert (Hiter : forall z',
      body (fun y => if Nat.ltb (length (after y)) (length (after x))
                     then repeat_m body g f k y else None) x = Some z' ->
      exists y, Matches ml (Star g r) x y /\ k y = Some z').
    { intros z' E. apply Hb in E as (y & My & Hy).
      destruct (Nat.ltb (length (after y)) (length (after x))) eqn:L; [|discriminate].
      apply IH in Hy as (y' & My' & Hk).
      exists y'; split; [|exact Hk].
      eapply MStarS; eauto. apply Nat.ltb_lt; exact L. }
    destruct g.
    + destruct (body _ x) eqn:E.
      * inversion H; subst; apply Hiter; reflexivity.
      * exists x; split; [constructor | exact H].
    + destruct (k x) eqn:E.
      * inversion H; subst; exists x; split; [constructor | exact E].
      * apply Hiter; exact H.
Qed.

Lemma mt_sound r : forall k x z,
  mt ml r k x = Some z -> exists y, Matches ml r x y /\ k y = Some z.
Proof.
  induction r as [|s|r1 IH1 r2 IH2|r1 IH1 r2 IH2|g r IH|n r IH| | |neg];
    intros k x z H; simpl in H.
  - exists x; split; [constructor | exact H].
  - destruct (after x) as [|c rest] eqn:E; [discriminate|].
    destruct (cmem s c) eqn:Ec; [|discriminate].
    eexists; split; [eapply MCset; eauto | exact H].
  - apply IH1 in H as (y & My & H). apply IH2 in H as (y' & My' & H).
    exists y'; split; [econstructor; eauto | exact H].
  - destruct (mt ml r1 k x) eqn:E.
    + inversion H; subst. apply IH1 in E as (y & My & E).
      exists y; split; [apply MAltL; exact My | exact E].
    + apply IH2 in H as (y & My & H).
      exists y; split; [apply MAltR; exact My | exact H].
  - eapply repeat_sound; eauto.
  - apply IH in H as (y & My & H).
    eexists; split; [apply MGrp; exact My | exact H].
  - destruct (at_bol ml x) eqn:E; [|discriminate].
    exists x; split; [constructor; exact E | exact H].
  - destruct (at_eol ml x) eqn:E; [|discriminate].
    exists x; split; [constructor; exact E | exact H].
  - destruct (xorb neg (at_wordb x)) eqn:E; [|discriminate].
    exists x; split; [constructor; exact E | exact H].
Qed.

Lemma Matches_star_inv g r x y :
  Matches ml (Star g r) x y ->
  y = x \/ exists y1, Matches ml r x y1 /\ length (after y1) < length (after x)
                      /\ Matches ml (Star g r) y1 y.
Proof. inversion 1; subst; eauto. Qed.

Lemma repeat_complete body g r :
  (forall k x y z, Matches ml r x y -> k y = Some z -> exists z', body k x = Some z') ->
  forall fuel k x y z, length (after x) <= fuel ->
    Matches ml (Star g r) x y -> k y = Some z ->
    exists z', repeat_m body g fuel k x = Some z'.
Proof.
  intros Hb; induction fuel as [|f IH]; intros k x y z Hf M Hk; simpl.
  - destruct (Matches_star_inv M) as [E | (y1 & M1 & L & M2)]; [subst y; eauto | lia].
  - destruct (Matches_star_inv M) as [E | (y1 & M1 & L & M2)].
    + subst y. destruct g.
      * destruct (body _ x); eauto.
      * rewrite Hk; eauto.
    + assert (Hiter : exists z',
        body (fun y => if Nat.ltb (length (after y)) (length (after x))
                       then repeat_m body g f k y else None) x = Some z').
      { destruct (IH k y1 y z) as (z1 & Hz1); [lia | exact M2 | exact Hk |].
        eapply Hb; [exact M1|].
        apply Nat.ltb_lt in L; rewrite L; exact Hz1. }
      destruct Hiter as (z' & Hz').
      destruct g.
      * rewrite Hz'; eauto.
      * destruct (k x); eauto.
Qed.

Lemma Matches_eps_inv x y : Matches ml Eps x y -> y = x.
Proof. inversion 1; auto. Qed.

Lemma Matches_cset_inv s x y :
  Matches ml (Cset s) x y ->
  exists c rest, after x = c :: rest /\ cmem s c = true
                 /\ y = MState (c :: before x) rest (caps x).
Proof. inversion 1; subst; eauto. Qed.

Lemma Matches_seq_inv r1 r2 x z :
  Matches ml (Seq r1 r2) x z -> exists y, Matches ml r1 x y /\ Matches ml r2 y z.
Proof. inversion 1; subst; eauto. Qed.

Lemma Matches_alt_inv r1 r2 x y :
  Matches ml (Alt r1 r2) x y -> Matches ml r1 x y \/ Matches ml r2 x y.
Proof. inversion 1; subst; eauto. Qed.

Lemma Matches_grp_inv n r x y :
  Matches ml (Grp n r) x y -> exists y0, Matches ml r x y0 /\ y = set_cap n x y0.
Proof. inversion 1; subst; eauto. Qed.

Lemma Matches_bol_inv x y : Matches ml Bol x y -> y = x /\ at_bol ml x = true.
Proof. inversion 1; auto. Qed.

Lemma Matches_eol_inv x y : Matches ml Eol x y -> y = x /\ at_eol ml x = true.
Proof. inversion 1; auto. Qed.

Lemma Matches_wordb_inv neg x y :
  Matches ml (WordB neg) x y -> y = x /\ xorb neg (at_wordb x) = true.
Proof. inversion 1; auto. Qed.

Lemma mt_complete r : forall k x y z,
  Matches ml r x y -> k y = Some z -> exists z', mt ml r k x = Some z'.
Proof.
  induction r as [|s|r1 IH1 r2 IH2|r1 IH1 r2 IH2|g r IH|n r IH| | |neg];
    intros k x y z M Hk; simpl.
  - apply Matches_eps_inv in M; subst; eauto.
  - apply Matches_cset_inv in M as (c & rest & E & Hc & ->).
    rewrite E, Hc; eauto.
  - apply Matches_seq_inv in M as (y1 & M1 & M2).
    destruct (IH2 k _ _ _ M2 Hk) as (z1 & Hz1).
    eapply IH1; eauto.
  - apply Matches_alt_inv in M as [M | M].
    + destruct (IH1 k _ _ _ M Hk) as (z1 & Hz1). rewrite Hz1; eauto.
    + destruct (mt ml r1 k x); eauto.
  - eapply repeat_complete; eauto.
  - apply Matches_grp_inv in M as (y0 & M & ->). eapply IH; eauto.
  - apply Matches_bol_inv in M as (-> & E). rewrite E; eauto.
  - apply Matches_eol_inv in M as (-> & E). rewrite E; eauto.
  - apply Matches_wordb_inv in M as (-> & E). rewrite E; eauto.
Qed.

(** A reading moves some characters from [after] to [before]. *)
Lemma Matches_span r x y :
  Matches ml r x y ->
  exists w, after x = w ++ after y /\ before y = rev w ++ before x.
Proof.
  induction 1.
  - exists []; auto.
  - exists [c]; simpl; auto.
  - destruct IHMatches1 as (w1 & A1 & B1), IHMatches2 as (w2 & A2 & B2).
    exists (w1 ++ w2); rewrite A1, A2, B2, B1, rev_app_distr, !app_assoc; auto.
  - auto.
  - auto.
  - exists []; auto.
  - destruct IHMatches1 as (w1 & A1 & B1), IHMatches2 as (w2 & A2 & B2).
    exists (w1 ++ w2); rewrite A1, A2, B2, B1, rev_app_distr, !app_assoc; auto.
  - destruct IHMatches as (w & A & B). exists w; simpl; auto.
  - exists []; auto.
  - exists []; auto.
  - exists []; auto.
Qed.
End Semantics.

(** ** Runs of characters *)

(** A run of characters satisfying [p] that is followed by one that does
    not is determined by the text. *)
Lemma run_unique (p : char -> bool) w1 w2 d1 d2 a1 a2 :
  all_in p w1 -> all_in p w2 -> p d1 = false -> p d2 = false ->
  w1 ++ d1 :: a1 = w2 ++ d2 :: a2 ->
  w1 = w2 /\ d1 = d2 /\ a1 = a2.
Proof.
  intros H1; revert w2; induction H1 as [|c w1 Hc H1 IH]; intros w2 H2 D1 D2 E.
  - destruct H2 as [|c' w2 Hc' H2]; simpl in E.
    + inversion E; auto.
    + inversion E; subst; congruence.
  - destruct H2 as [|c' w2 Hc' H2]; simpl in E.
    + inversion E; subst; congruence.
    + inversion E; subst.
      destruct (IH w2 H2 D1 D2 H3) as (-> & -> & ->); auto.
Qed.

(** The same when the run reaches the end of the text on one side. *)
Lemma run_unique_end (p : char -> bool) w1 w2 d a :
  all_in p w1 -> all_in p w2 -> p d = false ->
  w1 = w2 ++ d :: a -> False.
Proof.
  intros H1 H2 D E; subst w1.
  apply Forall_app in H1 as (_ & H1). inversion H1; congruence.
Qed.

Lemma all_in_app p w1 w2 : all_in p (w1 ++ w2) <-> all_in p w1 /\ all_in p w2.
Proof. apply Forall_app. Qed.

Lemma all_in_rev p w : all_in p w -> all_in p (rev w).
Proof. apply Forall_rev. Qed.

Lemma span_spec p s :
  s = fst (span p s) ++ snd (span p s) /\ all_in p (fst (span p s))
  /\ match snd (span p s) with [] => True | c :: _ => p c = false end.
Proof.
  induction s as [|c s IH]; simpl.
  - repeat split; constructor.
  - destruct (p c) eqn:E.
    + destruct (span p s) as [w r]; simpl in *.
      destruct IH as (E1 & E2 & E3); repeat split; auto.
      * congruence.
      * constructor; auto.
    + simpl; repeat split; [constructor | exact E].
Qed.

(** ** States and readings *)

Lemma consumed_app w bef bef' aft aft' cps cps' :
  bef' = rev w ++ bef ->
  consumed (MState bef aft cps) (MState bef' aft' cps') = w.
Proof.
  intros ->; unfold consumed; simpl.
  rewrite length_app, length_rev, Nat.add_sub.
  rewrite <- (length_rev w), firstn_app, Nat.sub_diag, firstn_all; simpl.
  rewrite app_nil_r; apply rev_involutive.
Qed.

Lemma read_nil x : read [] (after x) x = x.
Proof. destruct x; reflexivity. Qed.

Lemma read_read w1 w2 r1 r2 x :
  read w2 r2 (read w1 r1 x) = read (w1 ++ w2) r2 x.
Proof. unfold read; simpl. rewrite rev_app_distr, app_assoc; reflexivity. Qed.

Lemma read_cons c w r1 r2 x :
  read w r2 (read [c] r1 x) = read (c :: w) r2 x.
Proof. apply (read_read [c] w). Qed.

Section Readings.
Variable ml : bool.

Lemma Matches_chr c x y :
  Matches ml (Chr c) x y <->
  exists rest, after x = c :: rest /\ y = read [c] rest x.
Proof.
  split.
  - intros M; apply Matches_cset_inv in M as (d & rest & E & Hc & ->).
    simpl in Hc; rewrite orb_false_r in Hc; apply N.eqb_eq in Hc; subst d.
    exists rest; auto.
  - intros (rest & E & ->). apply MCset; [exact E|].
    simpl; rewrite N.eqb_refl; reflexivity.
Qed.

Lemma Matches_lit s : forall x y,
  Matches ml (Lit s) x y <->
  exists rest, after x = s ++ rest /\ y = read s rest x.
Proof.
  induction s as [|c s IH]; intros x y; simpl.
  - split.
    + intros M; apply Matches_eps_inv in M; subst.
      exists (after x); split; [reflexivity | symmetry; apply read_nil].
    + intros (rest & E & ->). rewrite <- E, read_nil. constructor.
  - split.
    + intros M; apply Matches_seq_inv in M as (y1 & M1 & M2).
      apply Matches_chr in M1 as (r1 & E1 & ->).
      apply IH in M2 as (r2 & E2 & ->). simpl in E2; subst r1.
      exists r2; split; [exact E1 | apply read_cons].
    + intros (rest & E & ->).
      apply MSeq with (y := read [c] (s ++ rest) x).
      * apply Matches_chr; eauto.
      * apply IH. exists rest; split; [reflexivity | symmetry; apply read_cons].
Qed.

Lemma Matches_star_cset g cs : forall x y,
  Matches ml (Star g (Cset cs)) x y ->
  exists w rest, after x = w ++ rest /\ all_in (cmem cs) w /\ y = read w rest x.
Proof.
  intros x y M.
  remember (Star g (Cset cs)) as r eqn:Er.
  induction M; try discriminate.
  - exists [], (after x); repeat split; [constructor | symmetry; apply read_nil].
  - inversion Er; subst.
    apply Matches_cset_inv in M1 as (c & r1 & E1 & Hc & ->).
    destruct (IHM2 eq_refl) as (w & rest & E2 & Hw & ->).
    simpl in E2; subst r1.
    exists (c :: w), rest; repeat split.
    + exact E1.
    + constructor; auto.
    + apply read_cons.
Qed.

Lemma Matches_star_cset_intro g cs w : forall x rest,
  after x = w ++ rest -> all_in (cmem cs) w ->
  Matches ml (Star g (Cset cs)) x (read w rest x).
Proof.
  induction w as [|c w IH]; intros x rest E Hw.
  - simpl in E; rewrite <- E, read_nil; constructor.
  - inversion Hw; subst.
    apply MStarS with (y := read [c] (w ++ rest) x).
    + apply MCset; auto.
    + rewrite E; simpl; lia.
    + rewrite <- (read_cons c w (w ++ rest) rest x). apply IH; auto.
Qed.

Lemma Matches_plus_cset g cs x y :
  Matches ml (Plus g (Cset cs)) x y <->
  exists w rest, w <> [] /\ after x = w ++ rest /\ all_in (cmem cs) w
                 /\ y = read w rest x.
Proof.
  split.
  - intros M; apply Matches_seq_inv in M as (y1 & M1 & M2).
    apply Matches_cset_inv in M1 as (c & r1 & E1 & Hc & ->).
    apply Matches_star_cset in M2 as (w & rest & E2 & Hw & ->).
    simpl in E2; subst r1.
    exists (c :: w), rest; repeat split; try discriminate; auto.
    + constructor; auto.
    + apply read_cons.
  - intros (w & rest & N & E & Hw & ->).
    destruct w as [|c w]; [congruence|]. inversion Hw; subst.
    apply MSeq with (y := read [c] (w ++ rest) x).
    + apply MCset; auto.
    + rewrite <- (read_cons c w (w ++ rest) rest x).
      apply Matches_star_cset_intro; auto.
Qed.

Lemma Matches_opt_chr c x y :
  Matches ml (Opt (Chr c)) x y <->
  y = x \/ exists rest, after x = c :: rest /\ y = read [c] rest x.
Proof.
  split.
  - intros M; apply Matches_alt_inv in M as [M | M].
    + right; apply Matches_chr; exact M.
    + left; apply Matches_eps_inv in M; exact M.
  - intros [-> | H].
    + apply MAltR; constructor.
    + apply MAltL; apply Matches_chr; exact H.
Qed.
End Readings.

(** ** Priorities: greedy repetition of a class, and the leftmost start *)

Lemma repeat_cset_greedy ml cs k : forall fuel bef aft cps,
  length aft <= fuel ->
  repeat_m (mt ml (Cset cs)) true fuel k (MState bef aft cps)
  = greedy_run (cmem cs) k bef aft cps.
Proof.
  induction fuel as [|f IH]; intros bef aft cps L.
  - destruct aft; [reflexivity | simpl in L; lia].
  - destruct aft as [|c rest]; [reflexivity|].
    cbn [repeat_m mt after before caps greedy_run].
    destruct (cmem cs c); [|reflexivity].
    assert (E : Nat.ltb (length rest) (length (c :: rest)) = true)
      by (apply Nat.ltb_lt; simpl; lia).
    rewrite E, IH by (simpl in L; lia). reflexivity.
Qed.

Lemma mt_star_cset_greedy ml cs k bef aft cps :
  mt ml (Star true (Cset cs)) k (MState bef aft cps)
  = greedy_run (cmem cs) k bef aft cps.
Proof. apply repeat_cset_greedy; simpl; lia. Qed.

Lemma rev_cons_app (c : char) w bef : rev (c :: w) ++ bef = rev w ++ c :: bef.
Proof. simpl; rewrite <- app_assoc; reflexivity. Qed.

Lemma greedy_run_none p k cps : forall aft bef,
  greedy_run p k bef aft cps = None <->
  (forall w rest, aft = w ++ rest -> all_in p w ->
     k (MState (rev w ++ bef) rest cps) = None).
Proof.
  induction aft as [|c a IH]; intros bef; simpl.
  - split.
    + intros H w rest E _. symmetry in E; apply app_eq_nil in E as (-> & ->); exact H.
    + intros H; apply (H [] []); [reflexivity | constructor].
  - destruct (p c) eqn:Pc.
    + destruct (greedy_run p k (c :: bef) a cps) eqn:R.
      * split; [discriminate|]. intros H.
        assert (R' : greedy_run p k (c :: bef) a cps = None).
        { apply IH. intros w rest E Hw. rewrite <- rev_cons_app.
          apply H; [simpl; congruence | constructor; auto]. }
        congruence.
      * split.
        -- intros H w rest E Hw. destruct w as [|c' w]; simpl in E.
           ++ subst rest; exact H.
           ++ inversion E; subst. inversion Hw; subst.
              rewrite rev_cons_app.
              apply (proj1 (IH _) R); auto.
        -- intros H; apply (H [] (c :: a)); [reflexivity | constructor].
    + split.
      * intros H w rest E Hw. destruct w as [|c' w]; simpl in E.
        -- subst rest; exact H.
        -- inversion E; subst. inversion Hw; subst; congruence.
      * intros H; apply (H [] (c :: a)); [reflexivity | constructor].
Qed.

Lemma greedy_run_some p k cps z : forall aft bef,
  greedy_run p k bef aft cps = Some z <->
  exists w rest, aft = w ++ rest /\ all_in p w
    /\ k (MState (rev w ++ bef) rest cps) = Some z
    /\ (forall w' rest', aft = w' ++ rest' -> all_in p w' ->
          length w < length w' ->
          k (MState (rev w' ++ bef) rest' cps) = None).
Proof.
  induction aft as [|c a IH]; intros bef; simpl.
  - split.
    + intros H; exists [], []; repeat split; [constructor | exact H |].
      intros w' rest' E _ L. symmetry in E; apply app_eq_nil in E as (-> & _).
      simpl in L; lia.
    + intros (w & rest & E & _ & H & _).
      symmetry in E; apply app_eq_nil in E as (-> & ->); exact H.
  - destruct (p c) eqn:Pc.
    + destruct (greedy_run p k (c :: bef) a cps) eqn:R.
      * split.
        -- intros H; inversion H; subst.
           apply (proj1 (IH _)) in R as (w & rest & E & Hw & Hk & Hmax).
           exists (c :: w), rest; repeat split.
           ++ simpl; congruence.
           ++ constructor; auto.
           ++ rewrite rev_cons_app; exact Hk.
           ++ intros w' rest' E' Hw' L. destruct w' as [|c' w']; [simpl in L; lia|].
              simpl in E'; inversion E'; subst. inversion Hw'; subst.
              rewrite rev_cons_app. apply Hmax; auto. simpl in L; lia.
        -- intros (w & rest & E & Hw & Hk & Hmax).
           destruct w as [|c' w]; simpl in E.
           ++ exfalso.
              assert (R' : greedy_run p k (c :: bef) a cps = None).
              { apply greedy_run_none. intros w1 r1 E1 Hw1.
                rewrite <- rev_cons_app.
                apply Hmax; [simpl; congruence | constructor; auto | simpl; lia]. }
              congruence.
           ++ inversion E; subst. inversion Hw; subst.
              rewrite <- R. apply IH. exists w, rest; repeat split; auto.
              ** rewrite <- rev_cons_app; exact Hk.
              ** intros w' rest' E' Hw' L. rewrite <- rev_cons_app.
                 apply Hmax; [simpl; congruence | constructor; auto | simpl; lia].
      * split.
        -- intros H; exists [], (c :: a); repeat split; [constructor | exact H |].
           intros w' rest' E' Hw' L. destruct w' as [|c' w']; [simpl in L; lia|].
           simpl in E'; inversion E'; subst. inversion Hw'; subst.
           rewrite rev_cons_app. apply (proj1 (greedy_run_none _ _ _ _ _) R); auto.
        -- intros (w & rest & E & Hw & Hk & Hmax).
           destruct w as [|c' w]; simpl in E.
           ++ subst rest; exact Hk.
           ++ inversion E; subst. inversion Hw; subst.
              rewrite rev_cons_app in Hk.
              pose proof (proj1 (greedy_run_none _ _ _ _ _) R w rest eq_refl H2).
              congruence.
    + split.
      * intros H; exists [], (c :: a); repeat split; [constructor | exact H |].
        intros w' rest' E' Hw' L. destruct w' as [|c' w']; [simpl in L; lia|].
        simpl in E'; inversion E'; subst. inversion Hw'; subst; congruence.
      * intros (w & rest & E & Hw & Hk & _).
        destruct w as [|c' w]; simpl in E.
        -- subst rest; exact Hk.
        -- inversion E; subst. inversion Hw; subst; congruence.
Qed.

Section Search.
Variable ml : bool.
Variable r : regex.

Lemma search_none : forall aft bef,
  search ml r bef aft = None <->
  (forall pre post, aft = pre ++ post ->
     match_here ml r (MState (rev pre ++ bef) post []) = None).
Proof.
  induction aft as [|c a IH]; intros bef; cbn [search].
  - destruct (match_here ml r (MState bef [] [])) eqn:E.
    + split; [discriminate|].
      intros H; specialize (H [] [] eq_refl); cbn [rev app] in H; congruence.
    + split; [|reflexivity].
      intros _ pre post Ep. symmetry in Ep; apply app_eq_nil in Ep as (-> & ->).
      exact E.
  - destruct (match_here ml r (MState bef (c :: a) [])) eqn:E.
    + split; [discriminate|].
      intros H; specialize (H [] (c :: a) eq_refl); cbn [rev app] in H; congruence.
    + rewrite IH. split.
      * intros H pre post Ep. destruct pre as [|c' pre]; simpl in Ep.
        -- subst post; exact E.
        -- inversion Ep; subst. rewrite rev_cons_app. apply H; reflexivity.
      * intros H pre post Ep. rewrite <- rev_cons_app. apply H.
        simpl; congruence.
Qed.

Lemma search_some x z : forall aft bef,
  search ml r bef aft = Some (x, z) <->
  exists pre post, aft = pre ++ post /\ x = MState (rev pre ++ bef) post []
    /\ match_here ml r x = Some z
    /\ (forall pre' post', aft = pre' ++ post' -> length pre' < length pre ->
          match_here ml r (MState (rev pre' ++ bef) post' []) = None).
Proof.
  induction aft as [|c a IH]; intros bef; cbn [search].
  - destruct (match_here ml r (MState bef [] [])) eqn:E.
    + split.
      * intros H; inversion H; subst. exists [], []; repeat split; auto.
        intros pre' post' _ L; simpl in L; lia.
      * intros (pre & post & Ep & -> & Hm & _).
        symmetry in Ep; apply app_eq_nil in Ep as (-> & ->).
        cbn [rev app] in *; congruence.
    + split; [discriminate|].
      intros (pre & post & Ep & -> & Hm & _).
      symmetry in Ep; apply app_eq_nil in Ep as (-> & ->).
      cbn [rev app] in *; congruence.
  - destruct (match_here ml r (MState bef (c :: a) [])) eqn:E.
    + split.
      * intros H; inversion H; subst. exists [], (c :: a); repeat split; auto.
        intros pre' post' _ L; simpl in L; lia.
      * intros (pre & post & Ep & -> & Hm & Hmin).
        destruct pre as [|c' pre]; simpl in Ep.
        -- subst post; cbn [rev app] in *; congruence.
        -- specialize (Hmin [] (c :: a) eq_refl). cbn [rev app] in Hmin.
           rewrite Hmin in E; [discriminate | simpl; lia].
    + rewrite IH. split.
      * intros (pre & post & Ep & -> & Hm & Hmin).
        exists (c :: pre), post; rewrite rev_cons_app.
        split; [simpl; congruence|]. split; [reflexivity|]. split; [exact Hm|].
        intros pre' post' Ep' L.
        destruct pre' as [|c' pre']; simpl in Ep'.
        -- subst post'; exact E.
        -- inversion Ep'; subst. rewrite rev_cons_app.
           apply Hmin; [congruence | simpl in L; lia].
      * intros (pre & post & Ep & -> & Hm & Hmin).
        destruct pre as [|c' pre]; simpl in Ep.
        -- subst post; cbn [rev app] in *; congruence.
        -- inversion Ep; subst.
           rewrite rev_cons_app in Hm |- *.
           exists pre, post.
           split; [reflexivity|]. split; [reflexivity|]. split; [exact Hm|].
           intros pre' post' Ep' L. rewrite <- rev_cons_app.
           apply Hmin; [simpl; congruence | simpl; lia].
Qed.
End Search.

(** When the first part of a sequence can be read in one way only, the
    matcher's result is the continuation's result there. *)
Lemma mt_unique_head ml r k x y z :
  Matches ml r x y -> (forall y', Matches ml r x y' -> y' = y) ->
  k y = Some z -> mt ml r k x = Some z.
Proof.
  intros M U Hk.
  destruct (mt_complete k M Hk) as (z' & Hz').
  destruct (mt_sound _ _ _ _ Hz') as (y' & M' & Hk').
  apply U in M'; subst y'. congruence.
Qed.

Lemma mt_unique_head_none ml r k x y :
  (forall y', Matches ml r x y' -> y' = y) ->
  k y = None -> mt ml r k x = None.
Proof.
  intros U Hk. destruct (mt ml r k x) eqn:E; [|reflexivity].
  destruct (mt_sound _ _ _ _ E) as (y' & M' & Hk').
  apply U in M'; subst y'. congruence.
Qed.

Lemma mt_no_reading ml r k x :
  (forall y, ~ Matches ml r x y) -> mt ml r k x = None.
Proof.
  intros U. destruct (mt ml r k x) eqn:E; [|reflexivity].
  destruct (mt_sound _ _ _ _ E) as (y' & M' & _). elim (U _ M').
Qed.

Lemma consumed_read w rest x : consumed x (read w rest x) = w.
Proof. destruct x; apply consumed_app; reflexivity. Qed.

(** A regular expression that starts with [^] and has no [m] flag matches
    at the start of the text or nowhere. *)
Lemma search_anchored r aft :
  search false (Seq Bol r) [] aft
  = match match_here false (Seq Bol r) (MState [] aft []) with
    | Some z => Some (MState [] aft [], z)
    | None => None
    end.
Proof.
  destruct (match_here false (Seq Bol r) (MState [] aft [])) eqn:E.
  - destruct aft; cbn [search]; rewrite E; reflexivity.
  - apply search_none. intros pre post Ep.
    destruct pre as [|c pre]; simpl in Ep.
    + subst post; exact E.
    + rewrite app_nil_r. unfold match_here; cbn [mt at_bol before rev].
      destruct (rev pre ++ [c]) eqn:R; [|reflexivity].
      apply app_eq_nil in R as (_ & R); discriminate.
Qed.

Lemma exec_anchored r s :
  exec false (Seq Bol r) s
  = option_map (fun z => result_of (MState [] s [], z))
      (match_here false (Seq Bol r) (MState [] s [])).
Proof.
  unfold exec, exec_from. cbn [Nat.ltb Nat.leb firstn skipn rev]. rewrite search_anchored.
  destruct (match_here false (Seq Bol r) (MState [] s [])); reflexivity.
Qed.

(** ** The key/value line pattern *)

Lemma kv_split k x : mt false kvRegex k x = mt false kv_head (mt false kv_tail k) x.
Proof. reflexivity. Qed.

Lemma kv_head_reads content y :
  Matches false kv_head (MState [] content []) y <->
  exists ws1 k ws2 rest,
    content = ws1 ++ DQ :: k ++ DQ :: COLON :: ws2 ++ DQ :: rest
    /\ all_in is_space ws1 /\ k <> [] /\ all_in not_dq k /\ all_in is_space ws2
    /\ y = kv_head_state ws1 k ws2 rest.
Proof.
  unfold kv_head; cbn [seqs str list_ascii_of_string map]. split.
  - intros M.
    apply Matches_seq_inv in M as (y1 & M1 & M). apply Matches_bol_inv in M1 as (-> & _).
    apply Matches_seq_inv in M as (y2 & M2 & M).
    apply Matches_star_cset in M2 as (ws1 & r1 & E1 & H1 & ->).
    apply Matches_seq_inv in M as (y3 & M3 & M).
    apply Matches_chr in M3 as (r2 & E2 & ->).
    apply Matches_seq_inv in M as (y4 & M4 & M).
    apply Matches_grp_inv in M4 as (y4' & M4 & ->).
    apply Matches_plus_cset in M4 as (k & r3 & N3 & E3 & H3 & ->).
    apply Matches_seq_inv in M as (y5 & M5 & M).
    apply Matches_chr in M5 as (r4 & E4 & ->).
    apply Matches_seq_inv in M as (y6 & M6 & M).
    apply Matches_lit in M6 as (r5 & E5 & ->).
    apply Matches_seq_inv in M as (y7 & M7 & M).
    apply Matches_star_cset in M7 as (ws2 & r6 & E6 & H6 & ->).
    apply Matches_chr in M as (r7 & E7 & ->).
    cbn [after read set_cap] in E1, E2, E3, E4, E5, E6, E7. subst.
    exists ws1, k, ws2, r7. repeat split; auto.
    unfold set_cap. rewrite consumed_read. unfold kv_head_state, read.
    cbn [before after caps rev app]. rewrite app_nil_r. reflexivity.
  - intros (ws1 & k & ws2 & rest & -> & H1 & N & H2 & H3 & ->).
    set (x0 := MState [] (ws1 ++ DQ :: k ++ DQ :: COLON :: ws2 ++ DQ :: rest) []).
    set (x1 := read ws1 (DQ :: k ++ DQ :: COLON :: ws2 ++ DQ :: rest) x0).
    set (x2 := read [DQ] (k ++ DQ :: COLON :: ws2 ++ DQ :: rest) x1).
    set (x3 := read k (DQ :: COLON :: ws2 ++ DQ :: rest) x2).
    set (x4 := read [DQ] (COLON :: ws2 ++ DQ :: rest) (set_cap 1 x2 x3)).
    set (x5 := read [COLON] (ws2 ++ DQ :: rest) x4).
    set (x6 := read ws2 (DQ :: rest) x5).
    apply MSeq with (y := x0); [constructor; reflexivity|].
    apply MSeq with (y := x1); [apply Matches_star_cset_intro; auto|].
    apply MSeq with (y := x2); [apply Matches_chr; eexists; split; reflexivity|].
    apply MSeq with (y := set_cap 1 x2 x3).
    { apply MGrp. apply Matches_plus_cset. exists k, (DQ :: COLON :: ws2 ++ DQ :: rest).
      repeat split; auto. }
    apply MSeq with (y := x4); [apply Matches_chr; eexists; split; reflexivity|].
    apply MSeq with (y := x5).
    { apply (Matches_lit false [COLON]). eexists; split; reflexivity. }
    apply MSeq with (y := x6); [apply Matches_star_cset_intro; auto|].
    replace (kv_head_state ws1 k ws2 rest) with (read [DQ] rest x6).
    + apply Matches_chr; eexists; split; reflexivity.
    + unfold kv_head_state, x6, x5, x4, set_cap, x3. rewrite consumed_read.
      unfold x2, x1, x0, read. cbn [before after caps rev app].
      rewrite app_nil_r. reflexivity.
Qed.

Lemma space_not_dq : is_space DQ = false.
Proof. reflexivity. Qed.

Lemma kv_head_unique content y y' :
  Matches false kv_head (MState [] content []) y ->
  Matches false kv_head (MState [] content []) y' -> y' = y.
Proof.
  intros M M'.
  apply kv_head_reads in M as (ws1 & k & ws2 & rest & E & H1 & N & H2 & H3 & ->).
  apply kv_head_reads in M' as (ws1' & k' & ws2' & rest' & E' & H1' & N' & H2' & H3' & ->).
  rewrite E in E'.
  apply (run_unique (p := is_space)) in E' as (-> & _ & E'); auto.
  apply (run_unique (p := not_dq)) in E' as (-> & _ & E'); auto.
  inversion E' as [E'']; clear E'.
  apply (run_unique (p := is_space)) in E'' as (-> & _ & ->); auto.
Qed.

Lemma kv_close_spec bef rest cps w rest' z :
  kv_close (MState bef rest cps) (MState (rev w ++ bef) rest' cps) = Some z <->
  exists r, rest' = DQ :: r /\ z = MState (DQ :: rev w ++ bef) r ((2, w) :: cps).
Proof.
  unfold kv_close, set_cap. erewrite consumed_app by reflexivity.
  cbn [mt Chr after before caps cmem existsb].
  destruct rest' as [|c r].
  - split; [discriminate | intros (r & E & _); discriminate].
  - rewrite orb_false_r. destruct (N.eqb c DQ) eqn:E.
    + apply N.eqb_eq in E; subst c. split.
      * intros H; inversion H; subst. exists r; auto.
      * intros (r' & E & ->). inversion E; subst; reflexivity.
    + split; [discriminate|]. intros (r' & E' & _). inversion E'; subst.
      rewrite N.eqb_refl in E; discriminate.
Qed.

Lemma kv_tail_spec bef rest cps z :
  mt false kv_tail (fun y => Some y) (MState bef rest cps) = Some z <->
  exists v r, rest = v ++ DQ :: r /\ all_in not_newline v
    /\ z = MState (DQ :: rev v ++ bef) r ((2, v) :: cps)
    /\ (forall v' r', rest = v' ++ DQ :: r' -> all_in not_newline v' ->
          length v' <= length v).
Proof.
  change (mt false kv_tail (fun y => Some y) (MState bef rest cps))
    with (mt false (Star true (Cset (CNot CNewline)))
            (kv_close (MState bef rest cps)) (MState bef rest cps)).
  rewrite mt_star_cset_greedy, greedy_run_some. split.
  - intros (w & rest' & E & Hw & Hk & Hmax).
    apply kv_close_spec in Hk as (r & -> & ->).
    exists w, r; repeat split; auto.
    intros v' r' E' Hv'.
    destruct (Nat.le_gt_cases (length v') (length w)) as [L | L]; [exact L|].
    specialize (Hmax v' (DQ :: r') E' Hv' L).
    assert (X : kv_close (MState bef rest cps) (MState (rev v' ++ bef) (DQ :: r') cps)
                = Some (MState (DQ :: rev v' ++ bef) r' ((2, v') :: cps)))
      by (apply kv_close_spec; eauto).
    congruence.
  - intros (v & r & E & Hv & -> & Hmax).
    exists v, (DQ :: r); repeat split; auto.
    + apply kv_close_spec; eauto.
    + intros w' rest' E' Hw' L.
      destruct (kv_close (MState bef rest cps) (MState (rev w' ++ bef) rest' cps)) eqn:K;
        [|reflexivity].
      apply kv_close_spec in K as (r' & -> & _).
      specialize (Hmax w' r' E' Hw'). lia.
Qed.

Lemma kv_match_sound content z :
  match_here false kvRegex (MState [] content []) = Some z ->
  exists k v, kv_shape content k v /\ caps z = [(2, v); (1, k)].
Proof.
  unfold match_here. rewrite kv_split. intros H.
  apply mt_sound in H as (y & M & H).
  apply kv_head_reads in M as (ws1 & k & ws2 & rest & E & H1 & N & H2 & H3 & ->).
  apply kv_tail_spec in H as (v & r & -> & Hv & -> & Hmax).
  exists k, v; split; [|reflexivity].
  exists ws1, ws2, r. repeat split; auto.
Qed.

Lemma kv_match_complete content k v :
  kv_shape content k v ->
  exists z, match_here false kvRegex (MState [] content []) = Some z
            /\ caps z = [(2, v); (1, k)].
Proof.
  intros (ws1 & ws2 & rest & E & H1 & N & H2 & H3 & Hv & Hmax).
  assert (M : Matches false kv_head (MState [] content [])
                (kv_head_state ws1 k ws2 (v ++ DQ :: rest)))
    by (apply kv_head_reads; exists ws1, k, ws2, (v ++ DQ :: rest); repeat split; auto).
  eexists; split.
  - unfold match_here. rewrite kv_split.
    eapply mt_unique_head; [exact M | intros y'; apply (kv_head_unique M) |].
    apply kv_tail_spec. exists v, rest; repeat split; auto.
  - reflexivity.
Qed.

Lemma kvMatch_spec content k v :
  kvMatch content = Some (k, v) <-> kv_shape content k v.
Proof.
  unfold kvMatch.
  change kvRegex with (Seq Bol (Seq (Star true (Cset CSpace)) (Seq (Chr DQ)
    (Seq (Grp 1 (Plus true (Cset (CNot (COneOf [DQ]))))) (Seq (Chr DQ)
    (Seq (Lit (str ":")) (Seq (Star true (Cset CSpace)) (Seq (Chr DQ)
    (Seq (Grp 2 (Star true Dot)) (Chr DQ)))))))))).
  rewrite exec_anchored.
  change (Seq Bol (Seq (Star true (Cset CSpace)) (Seq (Chr DQ)
    (Seq (Grp 1 (Plus true (Cset (CNot (COneOf [DQ]))))) (Seq (Chr DQ)
    (Seq (Lit (str ":")) (Seq (Star true (Cset CSpace)) (Seq (Chr DQ)
    (Seq (Grp 2 (Star true Dot)) (Chr DQ)))))))))) with kvRegex.
  split.
  - destruct (match_here false kvRegex (MState [] content [])) as [z|] eqn:E;
      [|discriminate].
    apply kv_match_sound in E as (k0 & v0 & S & Hc).
    unfold group, result_of; simpl. rewrite Hc; simpl.
    intros H; inversion H; subst; exact S.
  - intros S. apply kv_match_complete in S as (z & E & Hc).
    rewrite E. unfold group, result_of; simpl. rewrite Hc; reflexivity.
Qed.

(** The shape determines the key and the value. *)
Lemma kv_shape_functional content k v k' v' :
  kv_shape content k v -> kv_shape content k' v' -> k' = k /\ v' = v.
Proof.
  intros S S'. apply kvMatch_spec in S, S'. rewrite S in S'.
  inversion S'; auto.
Qed.

(** ** Change extraction *)

Lemma scanLine_acc ref f acc line :
  scanLine ref f acc line = acc ++ scanLine ref f [] line.
Proof.
  unfold scanLine.
  destruct (startsWith line (str "+") && negb (startsWith line (str "+++")));
    [|symmetry; apply app_nil_r].
  destruct (exec false kvRegex (skipn 1 line)); [reflexivity | symmetry; apply app_nil_r].
Qed.

Lemma fold_scanLine ref f lines : forall acc,
  fold_left (scanLine ref f) lines acc = acc ++ flat_map (scanLine ref f []) lines.
Proof.
  induction lines as [|l lines IH]; intros acc; simpl.
  - symmetry; apply app_nil_r.
  - rewrite IH, scanLine_acc, app_assoc; reflexivity.
Qed.

Lemma scanSection_acc ref acc section :
  scanSection ref acc section = acc ++ section_changes ref section.
Proof.
  unfold scanSection, section_changes, retainedFile.
  destruct (exec false fileRegex (hd [] (split_on LF section))) as [m|];
    [|symmetry; apply app_nil_r].
  destruct (negb (endsWith (group 1 m) (str ".json")) || jseqb (group 1 m) (str "en.json"));
    [symmetry; apply app_nil_r | apply fold_scanLine].
Qed.

Lemma fold_scanSection ref secs : forall acc,
  fold_left (scanSection ref) secs acc = acc ++ flat_map (section_changes ref) secs.
Proof.
  induction secs as [|s secs IH]; intros acc; simpl.
  - symmetry; apply app_nil_r.
  - rewrite IH, scanSection_acc, app_assoc; reflexivity.
Qed.

Lemma startsWith_plus line :
  startsWith line (str "+") = true <-> exists content, line = PLUS :: content.
Proof.
  destruct line as [|c l]; simpl.
  - split; [discriminate | intros (x & H); discriminate].
  - rewrite andb_true_r. split.
    + intros H; apply N.eqb_eq in H; subst c. exists l; reflexivity.
    + intros (x & H); inversion H; subst; reflexivity.
Qed.

Lemma kvMatch_exec content k v :
  kvMatch content = Some (k, v) <->
  exists m, exec false kvRegex content = Some m /\ group 1 m = k /\ group 2 m = v.
Proof.
  unfold kvMatch. destruct (exec false kvRegex content) as [m|]; simpl.
  - split.
    + intros H; inversion H; subst; eauto.
    + intros (m' & H & <- & <-); inversion H; subst; reflexivity.
  - split; [discriminate | intros (m' & H & _); discriminate].
Qed.

Lemma scanLine_qualifies ref f line k v :
  qualifies line k v -> scanLine ref f [] line = [record_of ref f line k v].
Proof.
  intros (content & -> & N3 & S).
  apply kvMatch_spec, kvMatch_exec in S as (m & E & <- & <-).
  unfold scanLine. rewrite N3.
  change (startsWith (PLUS :: content) (str "+")) with true.
  cbn [andb negb skipn]. rewrite E. reflexivity.
Qed.

Lemma scanLine_cases ref f line :
  (exists k v, qualifies line k v /\ scanLine ref f [] line = [record_of ref f line k v])
  \/ ((forall k v, ~ qualifies line k v) /\ scanLine ref f [] line = []).
Proof.
  destruct (startsWith line (str "+")) eqn:P1.
  - apply startsWith_plus in P1 as (content & ->).
    destruct (startsWith (PLUS :: content) (str "+++")) eqn:P3.
    + right. split.
      * intros k v (c' & E & N3 & _). congruence.
      * unfold scanLine. rewrite P3, andb_false_r. reflexivity.
    + destruct (kvMatch content) as [[k v]|] eqn:K.
      * left. exists k, v.
        assert (Q : qualifies (PLUS :: content) k v)
          by (exists content; repeat split; auto; apply kvMatch_spec; exact K).
        split; [exact Q | apply scanLine_qualifies; exact Q].
      * right. split.
        -- intros k v (c' & E & _ & S). inversion E; subst c'.
           apply kvMatch_spec in S. congruence.
        -- unfold scanLine. rewrite P3.
           change (startsWith (PLUS :: content) (str "+")) with true.
           cbn [andb negb skipn]. unfold kvMatch in K.
           destruct (exec false kvRegex content); [discriminate | reflexivity].
  - right. split.
    + intros k v (c' & E & _). subst line. discriminate P1.
    + unfold scanLine. rewrite P1. reflexivity.
Qed.

(** Where a record comes from. *)
Lemma parse_In diff ref c :
  In c (parseTranslationChangesFromDiff diff ref) <->
  exists section f l k v,
    In section (sections diff) /\ retainedFile section = Some f
    /\ In l (split_on LF section) /\ qualifies l k v
    /\ c = record_of ref f l k v.
Proof.
  unfold parseTranslationChangesFromDiff. rewrite fold_scanSection. simpl.
  rewrite in_flat_map. unfold section_changes. split.
  - intros (section & Hs & Hc).
    destruct (retainedFile section) as [f|] eqn:R; [|contradiction].
    apply in_flat_map in Hc as (l & Hl & Hc).
    destruct (scanLine_cases ref f l) as [(k & v & Q & E) | (_ & E)];
      rewrite E in Hc; [|contradiction].
    destruct Hc as [<- | []].
    exists section, f, l, k, v; auto.
  - intros (section & f & l & k & v & Hs & R & Hl & Q & ->).
    exists section; split; [exact Hs|]. rewrite R.
    apply in_flat_map. exists l; split; [exact Hl|].
    rewrite (scanLine_qualifies ref f Q). left; reflexivity.
Qed.

Lemma retainedFile_checks section f :
  retainedFile section = Some f ->
  endsWith f (str ".json") = true /\ f <> str "en.json".
Proof.
  unfold retainedFile.
  destruct (exec false fileRegex (hd [] (split_on LF section))) as [m|]; [|discriminate].
  destruct (endsWith (group 1 m) (str ".json")) eqn:E1; [|discriminate].
  destruct (jseqb (group 1 m) (str "en.json")) eqn:E2; [discriminate|].
  simpl. intros H; inversion H; subst.
  split; [exact E1 | apply jseqb_neq; exact E2].
Qed.

(** ** Nested-key lookup *)

Lemma lookup_own k props v :
  lookup k props = Some v <-> own_property props k v.
Proof.
  induction props as [|[k' v'] props IH]; simpl.
  - split; [discriminate|]. intros (pre & post & E & _). destruct pre; discriminate.
  - destruct (jseqb k' k) eqn:E.
    + apply jseqb_eq in E. subst k'. split.
      * intros H. inversion H; subst. exists [], props. split; [reflexivity | intros []].
      * intros (pre & post & Ep & N). destruct pre as [|[k1 v1] pre].
        -- simpl in Ep. inversion Ep. reflexivity.
        -- simpl in Ep. inversion Ep; subst. elim N. left. reflexivity.
    + apply jseqb_neq in E. rewrite IH. split.
      * intros (pre & post & Ep & N). exists ((k', v') :: pre), post. split.
        -- simpl. rewrite Ep. reflexivity.
        -- simpl. intros [H | H]; [congruence | contradiction].
      * intros (pre & post & Ep & N). destruct pre as [|[k1 v1] pre].
        -- simpl in Ep. inversion Ep. congruence.
        -- simpl in Ep. inversion Ep; subst. exists pre, post. split; [reflexivity|].
           intros H. apply N. right. exact H.
Qed.

Lemma lookup_none k props :
  lookup k props = None <-> no_own_property props k.
Proof.
  unfold no_own_property. induction props as [|[k' v'] props IH]; simpl.
  - split; [intros _ [] | reflexivity].
  - destruct (jseqb k' k) eqn:E.
    + apply jseqb_eq in E. split; [discriminate|]. intros N. elim N. left; exact E.
    + apply jseqb_neq in E. rewrite IH. split.
      * intros N [H | H]; contradiction.
      * intros N H. apply N. right; exact H.
Qed.

Lemma own_property_functional props k v v' :
  own_property props k v -> own_property props k v' -> v' = v.
Proof. intros H H'. apply lookup_own in H, H'. congruence. Qed.

Lemma own_property_present props k v :
  own_property props k v -> ~ no_own_property props k.
Proof. intros H N. apply lookup_own in H. apply lookup_none in N. congruence. Qed.

Lemma Resolves_functional v parts w w' :
  Resolves v parts w -> Resolves v parts w' -> w' = w.
Proof.
  intros H; revert w'.
  induction H as [v | props part parts v w O R IH]; intros w' H'.
  - inversion H'; reflexivity.
  - inversion H' as [|props' part' parts' v' w'' O' R']; subst.
    assert (E : v' = v) by (eapply own_property_functional; eauto).
    subst v'. apply IH. exact R'.
Qed.

(** A path resolves or gets stuck at one of its parts, never both. *)
Lemma Resolves_or_stuck parts : forall v,
  (exists w, Resolves v parts w)
  \/ (exists pre part post u,
        parts = pre ++ part :: post /\ Resolves v pre u /\ missing_at u part).
Proof.
  induction parts as [|part parts IH]; intros v.
  - left. exists v. constructor.
  - destruct v as [s | props].
    + right. exists [], part, parts, (JString s). repeat split. constructor.
    + destruct (lookup part props) as [v'|] eqn:L.
      * apply lookup_own in L.
        destruct (IH v') as [(w & R) | (pre & p & post & u & E & R & M)].
        -- left. exists w. econstructor; eauto.
        -- right. exists (part :: pre), p, post, u. subst parts.
           repeat split; auto. econstructor; eauto.
      * apply lookup_none in L. right. exists [], part, parts, (JObject props).
        repeat split; [constructor | exact L].
Qed.

Lemma Resolves_not_stuck v parts w :
  Resolves v parts w ->
  ~ (exists pre part post u,
       parts = pre ++ part :: post /\ Resolves v pre u /\ missing_at u part).
Proof.
  induction 1 as [v | props part parts v w O R IH];
    intros (pre & p & post & u & E & R' & M).
  - destruct pre; discriminate.
  - destruct pre as [|p0 pre]; simpl in E; inversion E; subst.
    + inversion R'; subst. simpl in M. eapply own_property_present; eauto.
    + inversion R' as [|props' part' parts' v' w' O' R'']; subst.
      assert (Ev : v' = v) by (eapply own_property_functional; eauto).
      subst v'. apply IH. exists pre, p, post, u; auto.
Qed.

Lemma inherited_not_proto o k :
  k <> PROTO -> inherited o k = VFunction \/ inherited o k = VUndefined.
Proof.
  intros N. unfold inherited. apply jseqb_neq in N. rewrite N.
  destruct (existsb _ _); auto.
Qed.

Lemma inherited_member o k :
  k <> PROTO -> in_object_prototype k = true -> inherited o k = VFunction.
Proof.
  intros N. unfold inherited, in_object_prototype. apply jseqb_neq in N. rewrite N.
  simpl. intros ->. reflexivity.
Qed.

Lemma descend_function parts :
  descend parts VFunction = None \/ descend parts VFunction = Some VFunction.
Proof. destruct parts; [right | left]; reflexivity. Qed.

(** Without a part named [__proto__] the loop follows own properties: it
    ends in the value the path resolves to, and on a path that is stuck it
    ends in [undefined] or in an inherited method. *)
Lemma descend_own parts : ~ In PROTO parts -> forall v,
  (forall w, Resolves v parts w -> descend parts (VData v) = Some (VData w))
  /\ ((exists pre part post u,
         parts = pre ++ part :: post /\ Resolves v pre u /\ missing_at u part) ->
      descend parts (VData v) = None \/ descend parts (VData v) = Some VFunction).
Proof.
  induction parts as [|part parts IH]; intros NP v.
  - split.
    + intros w R. inversion R. reflexivity.
    + intros (pre & p & post & u & E & _). destruct pre; discriminate.
  - assert (Np : part <> PROTO) by (intros E; apply NP; left; exact E).
    assert (NP' : ~ In PROTO parts) by (intros H; apply NP; right; exact H).
    destruct v as [s | props].
    + split; [intros w R; inversion R | intros _; left; reflexivity].
    + cbn [descend as_object has_property get].
      destruct (lookup part props) as [v'|] eqn:L.
      * apply lookup_own in L. destruct (IH NP' v') as (IH1 & IH2). split.
        -- intros w R. inversion R as [|props' part' parts' v0 w' O R']; subst.
           assert (Ev : v0 = v') by (eapply own_property_functional; eauto).
           subst v0. apply IH1. exact R'.
        -- intros (pre & p & post & u & E & R & M). apply IH2.
           destruct pre as [|p0 pre]; simpl in E; inversion E; subst.
           ++ inversion R; subst. simpl in M. exfalso.
              eapply own_property_present; eauto.
           ++ inversion R as [|props' part' parts' v0 w' O R']; subst.
              assert (Ev : v0 = v') by (eapply own_property_functional; eauto).
              subst v0. exists pre, p, post, u; auto.
      * apply lookup_none in L. split.
        -- intros w R. inversion R as [|props' part' parts' v0 w' O R']; subst.
           exfalso. eapply own_property_present; eauto.
        -- intros _. destruct (in_object_prototype part) eqn:I.
           ++ rewrite (inherited_member (OData props) Np I). apply descend_function.
           ++ left. reflexivity.
Qed.

Lemma string_or_stringify_data w :
  string_or_stringify (VData w) = Some (value_text w).
Proof. destruct w; reflexivity. Qed.

(** The name of a method holds no dot: read as a path it is one part. *)
Lemma method_key_path props k w :
  existsb (jseqb k) objectPrototypeMethods = true ->
  Resolves (JObject props) (split_on DOT k) w -> ~ no_own_property props k.
Proof.
  intros H R. apply existsb_exists in H as (x & Hin & E).
  apply jseqb_eq in E. subst x.
  assert (Es : split_on DOT k = [k]).
  { simpl in Hin.
    repeat (destruct Hin as [<- | Hin]; [vm_compute; reflexivity|]).
    contradiction. }
  rewrite Es in R. inversion R; subst. eapply own_property_present; eauto.
Qed.

Lemma proto_is_a_part : In PROTO (split_on DOT PROTO).
Proof. vm_compute. left. reflexivity. Qed.

(** For a key without a part named [__proto__] the lookup follows the own
    properties of the mapping. *)
Lemma getNestedValue_own props k :
  no_proto_part k ->
  (forall w, resolves_to (RObj props) k w ->
     getNestedValue (RObj props) k = Some (value_text w))
  /\ (absent_from (RObj props) k -> getNestedValue (RObj props) k = None).
Proof.
  intros NP.
  assert (Nk : k <> PROTO) by (intros ->; apply NP; apply proto_is_a_part).
  unfold getNestedValue, get. destruct (lookup k props) as [v|] eqn:L.
  - apply lookup_own in L. split.
    + intros w (props' & E & [O | (N & _)]); inversion E; subst props'.
      * assert (Ew : w = v) by (eapply own_property_functional; eauto).
        subst w. apply string_or_stringify_data.
      * exfalso. eapply own_property_present; eauto.
    + intros A. exfalso. apply (A v). exists props. split; [reflexivity | left; exact L].
  - apply lookup_none in L.
    destruct (inherited_not_proto (OData props) Nk) as [E | E]; rewrite E.
    + assert (Hm : existsb (jseqb k) objectPrototypeMethods = true).
      { unfold inherited in E. apply jseqb_neq in Nk. rewrite Nk in E.
        destruct (existsb _ _); [reflexivity | discriminate]. }
      split; [|reflexivity].
      intros w (props' & E' & [O | (N & R)]); inversion E'; subst props'; exfalso.
      * eapply own_property_present; eauto.
      * eapply method_key_path; eauto.
    + cbn zeta. destruct (@descend_own _ NP (JObject props)) as (D1 & D2). split.
      * intros w (props' & E' & [O | (N & R)]); inversion E'; subst props'.
        -- exfalso. eapply own_property_present; eauto.
        -- rewrite (D1 _ R). apply string_or_stringify_data.
      * intros A.
        destruct (Resolves_or_stuck (split_on DOT k) (JObject props)) as [(w & R) | S].
        -- exfalso. apply (A w). exists props.
           split; [reflexivity | right; split; assumption].
        -- destruct (D2 S) as [-> | ->]; reflexivity.
Qed.

Lemma resolves_to_functional ref k w w' :
  resolves_to ref k w -> resolves_to ref k w' -> w' = w.
Proof.
  intros (props & E & H) (props' & E' & H'). subst ref. inversion E'; subst props'.
  destruct H as [O | (N & R)], H' as [O' | (N' & R')].
  - eapply own_property_functional; eauto.
  - exfalso. eapply own_property_present; eauto.
  - exfalso. eapply own_property_present; eauto.
  - eapply Resolves_functional; eauto.
Qed.

(** ** The diff filter *)

Lemma consumed_length x y w :
  before y = rev w ++ before x -> consumed x y = w.
Proof. destruct x, y; simpl; intros ->; apply consumed_app; reflexivity. Qed.

(** A match lies inside the text, at or after [lastIndex]. *)
Lemma exec_from_bounds ml r s from m :
  exec_from ml r s from = Some m ->
  from <= index m /\ index m + length (matched m) <= length s
  /\ exists z, Matches ml r
       (MState (rev (firstn (index m) s)) (skipn (index m) s) []) z
       /\ matched m = consumed (MState (rev (firstn (index m) s)) (skipn (index m) s) []) z
       /\ groups m = caps z
       /\ skipn (index m) s = matched m ++ after z.
Proof.
  unfold exec_from. destruct (Nat.ltb (length s) from) eqn:L; [discriminate|].
  apply Nat.ltb_ge in L.
  destruct (search ml r (rev (firstn from s)) (skipn from s)) as [[x z]|] eqn:E;
    [|discriminate].
  simpl. intros H; inversion H; subst; clear H.
  apply search_some in E as (pre & post & Ep & -> & Hm & _).
  apply mt_sound in Hm as (y & M & Hy). inversion Hy; subst y; clear Hy.
  destruct (Matches_span M) as (w & A & B). simpl in A, B.
  assert (Ei : length (rev pre ++ rev (firstn from s)) = from + length pre).
  { rewrite length_app, !length_rev, length_firstn. lia. }
  assert (Ef : firstn (from + length pre) s = firstn from s ++ pre).
  { rewrite <- (firstn_skipn from s) at 1. rewrite firstn_app, length_firstn.
    rewrite Nat.min_l by exact L.
    rewrite firstn_all2 by (rewrite length_firstn; lia).
    replace (from + length pre - from) with (length pre) by lia.
    rewrite Ep, firstn_app, Nat.sub_diag, firstn_all. simpl.
    rewrite app_nil_r; reflexivity. }
  assert (Es : skipn (from + length pre) s = post).
  { rewrite Nat.add_comm, <- skipn_skipn, Ep, skipn_app, Nat.sub_diag, skipn_all.
    reflexivity. }
  unfold result_of; cbn [index matched groups fst snd before].
  rewrite Ei. erewrite consumed_length by exact B.
  assert (Ls : length s = from + length pre + length w + length (after z)).
  { rewrite <- (firstn_skipn from s), length_app, length_firstn, Ep, length_app, A,
      length_app. lia. }
  split; [lia|]. split; [lia|].
  exists z. rewrite Ef, Es, rev_app_distr. repeat split.
  - exact M.
  - symmetry. apply consumed_length. exact B.
  - exact A.
Qed.

(** A header match reads at least the words [diff --git]. *)
Lemma header_reads_some x z :
  Matches true headerRegex x z -> length (after z) < length (after x).
Proof.
  unfold headerRegex; cbn [seqs]. intros M.
  apply Matches_seq_inv in M as (y1 & M1 & M). apply Matches_bol_inv in M1 as (-> & _).
  apply Matches_seq_inv in M as (y2 & M2 & M).
  apply Matches_lit in M2 as (r & E & ->).
  apply Matches_span in M as (w & A & _). simpl in A.
  rewrite E, A, !length_app. simpl. lia.
Qed.

Lemma header_exec_bounds s from m :
  exec_from true headerRegex s from = Some m ->
  from <= index m /\ index m + length (matched m) <= length s
  /\ 0 < length (matched m).
Proof.
  intros H. apply exec_from_bounds in H as (B1 & B2 & z & M & _ & _ & A).
  repeat split; auto.
  apply header_reads_some in M. simpl in M.
  apply (f_equal (@length _)) in A. rewrite length_app in A. lia.
Qed.

Lemma increasing_weaken s hs : forall from from',
  from' <= from -> increasing s from hs -> increasing s from' hs.
Proof.
  destruct hs as [|h rest]; simpl; intros from from' L H; [exact I|].
  destruct H as (H1 & H2 & H3). repeat split; auto. lia.
Qed.

(** The header loop finishes within its bound. *)
Lemma collect_headers_total s : forall fuel from,
  from <= length s -> length s - from < fuel ->
  exists hs, collect_headers fuel s from = Some hs /\ increasing s from hs.
Proof.
  induction fuel as [|f IH]; intros from L F; [lia|].
  simpl. destruct (exec_from true headerRegex s from) as [m|] eqn:E.
  - apply header_exec_bounds in E as (B1 & B2 & B3).
    destruct (IH (index m + length (matched m))) as (hs & Hc & Hi); [lia | lia |].
    rewrite Hc. simpl. eexists; split; [reflexivity|].
    simpl. repeat split; [lia | lia |].
    apply increasing_weaken with (from := index m + length (matched m)); [lia | exact Hi].
  - exists []; split; [reflexivity | exact I].
Qed.

Lemma headers_spec d :
  collect_headers (S (length d)) d 0 = Some (headers d) /\ increasing d 0 (headers d).
Proof.
  unfold headers.
  destruct (collect_headers_total d (fuel := S (length d)) (from := 0)) as (hs & E & Hi);
    [lia | lia |].
  rewrite E; auto.
Qed.

Lemma spans_cover d : forall hs from,
  increasing d from hs ->
  concat (map snd (spans d hs))
  = match hs with
    | [] => []
    | h :: _ => skipn (h_index h) d
    end.
Proof.
  induction hs as [|h rest IH]; intros from Hi; [reflexivity|].
  destruct Hi as (H1 & H2 & H3). cbn [spans map concat snd].
  rewrite (@IH _ H3). unfold slice. destruct rest as [|h' rest'].
  - rewrite app_nil_r. apply firstn_all2. rewrite length_skipn. lia.
  - destruct H3 as (H4 & _).
    replace (h_index h') with ((h_index h' - h_index h) + h_index h) at 2 by lia.
    rewrite <- skipn_skipn. apply firstn_skipn.
Qed.

Lemma preamble_spans d hs from :
  increasing d from hs -> d = preamble d hs ++ concat (map snd (spans d hs)).
Proof.
  intros Hi. rewrite (@spans_cover d hs from Hi). destruct hs as [|h rest]; simpl.
  - symmetry; apply app_nil_r.
  - symmetry; apply firstn_skipn.
Qed.

Lemma append_kept_spans d : forall hs result,
  append_kept d hs result
  = result ++ concat (map snd (filter kept (spans d hs))).
Proof.
  induction hs as [|h rest IH]; intros result; simpl.
  - symmetry; apply app_nil_r.
  - rewrite IH. unfold kept at 2; simpl.
    destruct (test false ignoredRegex (h_path h)); simpl.
    + reflexivity.
    + rewrite app_assoc; reflexivity.
Qed.

(** ** The line locator *)

Lemma split_on_length sep s : length (split_on sep s) = S (count_char sep s).
Proof.
  unfold count_char. induction s as [|c s IH]; simpl; [reflexivity|].
  rewrite (N.eqb_sym sep c). destruct (N.eqb c sep); simpl.
  - rewrite IH; reflexivity.
  - destruct (split_on sep s); simpl in *; [discriminate | exact IH].
Qed.

Lemma match_at_split r pre post :
  match_at r (pre ++ post) (length pre)
  = match_here false r (MState (rev pre ++ []) post []).
Proof.
  unfold match_at.
  rewrite firstn_app, Nat.sub_diag, firstn_all, skipn_app, Nat.sub_diag, skipn_all.
  simpl. rewrite !app_nil_r. reflexivity.
Qed.

Lemma exec_none r t :
  (forall i, i <= length t -> match_at r t i = None) -> exec false r t = None.
Proof.
  intros H. unfold exec, exec_from. cbn [Nat.ltb Nat.leb firstn skipn rev].
  replace (search false r [] t) with (@None (mstate * mstate)); [reflexivity|].
  symmetry. apply search_none. intros pre post ->.
  rewrite <- match_at_split. apply H. rewrite length_app; lia.
Qed.

Lemma exec_leftmost r t i z :
  i <= length t -> match_at r t i = Some z ->
  (forall j, j < i -> match_at r t j = None) ->
  exec false r t = Some (MatchResult i (text_of t i z) (caps z)).
Proof.
  intros L Hm Hmin. unfold exec, exec_from. cbn [Nat.ltb Nat.leb firstn skipn rev].
  assert (E : search false r [] t
              = Some (MState (rev (firstn i t) ++ []) (skipn i t) [], z)).
  { apply search_some. exists (firstn i t), (skipn i t).
    split; [symmetry; apply firstn_skipn|]. split; [reflexivity|].
    split; [rewrite app_nil_r; exact Hm|].
    intros pre' post' E' L'. rewrite <- match_at_split, <- E'.
    apply Hmin. rewrite length_firstn in L'. lia. }
  rewrite E. unfold result_of, text_of; cbn [option_map fst snd before].
  rewrite app_nil_r, length_rev, length_firstn, Nat.min_l by exact L.
  reflexivity.
Qed.

Lemma match_at_reads r t i z :
  i <= length t -> match_at r t i = Some z ->
  t = firstn i t ++ text_of t i z ++ after z.
Proof.
  intros L Hm. unfold match_at, match_here in Hm.
  apply mt_sound in Hm as (y & M & Hy). inversion Hy; subst y.
  destruct (Matches_span M) as (w & A & B). simpl in A, B.
  unfold text_of. erewrite consumed_length by exact B.
  rewrite <- A. symmetry; apply firstn_skipn.
Qed.

(** The number a successful search leads to. *)
Lemma getLineNumber_found c t d s r i z :
  RegExp_new (convertToRegexPattern (d :: s)) = POk r ->
  i <= length (c :: t) -> match_at r (c :: t) i = Some z ->
  (forall j, j < i -> match_at r (c :: t) j = None) ->
  getLineNumber (JStr (c :: t)) (JStr (d :: s))
  = POk (Z.of_nat (S (count_char LF (firstn i (c :: t))))
         + Z.of_nat (S (count_char LF (text_of (c :: t) i z))) - 1)%Z.
Proof.
  intros Hr L Hm Hmin. unfold getLineNumber. rewrite Hr. cbn [pbind].
  rewrite (@exec_leftmost r _ _ _ L Hm Hmin). cbn [index matched].
  rewrite !split_on_length. unfold slice. rewrite Nat.sub_0_r. reflexivity.
Qed.

(** ** Snippets of whitespace only *)

Lemma mt_seq ml r1 r2 k x : mt ml (Seq r1 r2) k x = mt ml r1 (mt ml r2 k) x.
Proof. reflexivity. Qed.

Lemma mt_cset_cons ml s k bef c rest cps :
  mt ml (Cset s) k (MState bef (c :: rest) cps)
  = if cmem s c then k (MState (c :: bef) rest cps) else None.
Proof. reflexivity. Qed.

Lemma mt_cset_nil ml s k bef cps : mt ml (Cset s) k (MState bef [] cps) = None.
Proof. reflexivity. Qed.

Lemma greedy_run_all p w post cps : forall bef,
  all_in p w -> stops p post ->
  greedy_run p (fun y => Some y) bef (w ++ post) cps
  = Some (MState (rev w ++ bef) post cps).
Proof.
  induction w as [|c w IH]; intros bef Hw Hp; simpl.
  - destruct post as [|c post]; [reflexivity|]. simpl in Hp |- *; rewrite Hp; reflexivity.
  - inversion Hw; subst. rewrite H1, IH by assumption.
    rewrite <- app_assoc; reflexivity.
Qed.

Lemma plus_match_here ml cs bef w post cps :
  w <> [] -> all_in (cmem cs) w -> stops (cmem cs) post ->
  match_here ml (Plus true (Cset cs)) (MState bef (w ++ post) cps)
  = Some (MState (rev w ++ bef) post cps).
Proof.
  intros N Hw Hp. destruct w as [|c w]; [congruence|]. inversion Hw; subst.
  unfold match_here, Plus. rewrite mt_seq.
  change ((c :: w) ++ post) with (c :: (w ++ post)). rewrite mt_cset_cons, H1.
  rewrite mt_star_cset_greedy, greedy_run_all by assumption.
  rewrite rev_cons_app; reflexivity.
Qed.

Lemma plus_match_none ml cs bef aft cps :
  stops (cmem cs) aft ->
  match_here ml (Plus true (Cset cs)) (MState bef aft cps) = None.
Proof.
  intros Hp. unfold match_here, Plus. rewrite mt_seq.
  destruct aft as [|c aft]; [reflexivity|].
  rewrite mt_cset_cons. simpl in Hp; rewrite Hp; reflexivity.
Qed.

(** Where nothing matches, a global replacement copies the text. *)
Lemma replace_go_copy ml r repl : forall aft bef,
  (forall pre post, aft = pre ++ post ->
     match_here ml r (MState (rev pre ++ bef) post []) = None) ->
  replace_go ml r repl bef aft 0 = aft.
Proof.
  induction aft as [|c aft IH]; intros bef H; cbn [replace_go].
  - pose proof (H [] [] eq_refl) as H0. cbn [rev app] in H0.
    rewrite H0. reflexivity.
  - pose proof (H [] (c :: aft) eq_refl) as H0. cbn [rev app] in H0.
    rewrite H0. f_equal. apply IH.
    intros pre post E. rewrite <- rev_cons_app. apply H. simpl; congruence.
Qed.

(** After a match that reaches the end of the text, nothing is added when
    the pattern does not match the empty rest. *)
Lemma replace_go_skip ml r repl : forall aft bef,
  match_here ml r (MState (rev aft ++ bef) [] []) = None ->
  replace_go ml r repl bef aft (length aft) = [].
Proof.
  induction aft as [|c aft IH]; intros bef H; cbn [replace_go length].
  - cbn [rev app] in H. rewrite H. reflexivity.
  - apply IH. rewrite <- rev_cons_app. exact H.
Qed.

Lemma space_not_special c : is_space c = true -> cmem special_set c = false.
Proof.
  intros H. destruct (cmem special_set c) eqn:E; [|reflexivity].
  apply existsb_exists in E as (d & Hin & Hd). apply N.eqb_eq in Hd; subst d.
  vm_compute in Hin.
  repeat (destruct Hin as [<- | Hin]; [vm_compute in H; discriminate|]).
  contradiction.
Qed.

Lemma escape_spaces s :
  all_in is_space s ->
  replace_all false specialChars (fun m => str "\" ++ group 1 m) s = s.
Proof.
  intros Hs. apply replace_go_copy. intros pre post E.
  unfold match_here, specialChars. cbn [mt].
  destruct post as [|c post]; [reflexivity|].
  cbn [after]. fold special_set. rewrite space_not_special; [reflexivity|].
  subst s. apply Forall_app in Hs as (_ & Hs). inversion Hs; assumption.
Qed.

Lemma collapse_spaces s :
  s <> [] -> all_in is_space s ->
  replace_all false whitespaceRun (fun _ => str "\s+") s = str "\s+".
Proof.
  intros N Hs. destruct s as [|c s]; [congruence|].
  unfold replace_all, whitespaceRun. cbn [replace_go].
  rewrite <- (app_nil_r (c :: s)) at 1.
  rewrite plus_match_here; [|discriminate | exact Hs | exact I].
  cbn [before length]. rewrite length_app, length_rev. simpl length.
  rewrite Nat.add_0_r, Nat.sub_0_r.
  rewrite replace_go_skip; [reflexivity|].
  apply plus_match_none. exact I.
Qed.

Lemma convert_spaces s :
  s <> [] -> all_in is_space s -> convertToRegexPattern s = str "\s+".
Proof.
  intros N Hs. unfold convertToRegexPattern.
  rewrite escape_spaces by exact Hs. apply collapse_spaces; assumption.
Qed.

Lemma whitespace_pattern_compiles :
  RegExp_new (str "\s+") = POk (Seq whitespaceRun Eps).
Proof. reflexivity. Qed.

(** ** The destination path of a section *)

Lemma Matches_opt_quote ml x y :
  Matches ml (Opt (Chr DQ)) x y <->
  exists q rest, quote_opt q /\ after x = q ++ rest /\ y = read q rest x.
Proof.
  rewrite Matches_opt_chr. split.
  - intros [-> | (rest & E & ->)].
    + exists [], (after x). repeat split; [left; reflexivity | symmetry; apply read_nil].
    + exists [DQ], rest. repeat split; [right; reflexivity | exact E].
  - intros (q & rest & [-> | ->] & E & ->).
    + left. simpl in E. rewrite <- E. apply read_nil.
    + right. exists rest; auto.
Qed.

Lemma consumed_read2 w1 w2 r1 r2 x :
  consumed x (read w2 r2 (read w1 r1 x)) = w1 ++ w2.
Proof. rewrite read_read. apply consumed_read. Qed.

Lemma file_reads bef aft z :
  Matches false fileRegex (MState bef aft []) z <->
  exists ws q1 stem q2 trail,
    aft = ws ++ q1 ++ B_SLASH ++ stem ++ DOT_JSON ++ q2 ++ trail
    /\ ws <> [] /\ all_in is_space ws /\ quote_opt q1
    /\ stem <> [] /\ all_in path_char stem /\ quote_opt q2
    /\ all_in is_space trail
    /\ z = MState (rev (ws ++ q1 ++ B_SLASH ++ stem ++ DOT_JSON ++ q2 ++ trail) ++ bef)
             [] [(1, stem ++ DOT_JSON)].
Proof.
  unfold fileRegex; cbn [seqs]. split.
  - intros M.
    apply Matches_seq_inv in M as (y1 & M1 & M).
    apply Matches_plus_cset in M1 as (ws & r1 & N1 & E1 & H1 & ->).
    apply Matches_seq_inv in M as (y2 & M2 & M).
    apply Matches_opt_quote in M2 as (q1 & r2 & Q1 & E2 & ->).
    apply Matches_seq_inv in M as (y3 & M3 & M).
    apply Matches_lit in M3 as (r3 & E3 & ->).
    apply Matches_seq_inv in M as (y4 & M4 & M).
    apply Matches_grp_inv in M4 as (y4' & M4 & ->).
    apply Matches_seq_inv in M4 as (y4a & M4a & M4b).
    apply Matches_plus_cset in M4a as (stem & r4 & N4 & E4 & H4 & ->).
    apply Matches_lit in M4b as (r5 & E5 & ->).
    apply Matches_seq_inv in M as (y5 & M5 & M).
    apply Matches_opt_quote in M5 as (q2 & r6 & Q2 & E6 & ->).
    apply Matches_seq_inv in M as (y6 & M6 & M).
    apply Matches_star_cset in M6 as (trail & r7 & E7 & H7 & ->).
    apply Matches_eol_inv in M as (-> & E8).
    cbn [after read set_cap at_eol] in E1, E2, E3, E4, E5, E6, E7, E8.
    destruct r7 as [|c7 r7]; [|discriminate]. subst.
    repeat rewrite app_nil_r. unfold B_SLASH, DOT_JSON.
    exists ws, q1, stem, q2, trail. repeat split; auto.
    unfold set_cap. rewrite consumed_read2.
    unfold read. cbn [before after caps].
    repeat rewrite rev_app_distr. repeat rewrite <- app_assoc. reflexivity.
  - intros (ws & q1 & stem & q2 & trail & -> & N1 & H1 & Q1 & N4 & H4 & Q2 & H7 & ->).
    set (r1 := q1 ++ B_SLASH ++ stem ++ DOT_JSON ++ q2 ++ trail).
    set (r2 := B_SLASH ++ stem ++ DOT_JSON ++ q2 ++ trail).
    set (r3 := stem ++ DOT_JSON ++ q2 ++ trail).
    set (r4 := DOT_JSON ++ q2 ++ trail).
    set (x0 := MState bef (ws ++ r1) []).
    set (x1 := read ws r1 x0).
    set (x2 := read q1 r2 x1).
    set (x3 := read B_SLASH r3 x2).
    set (x4a := read stem r4 x3).
    set (x4b := read DOT_JSON (q2 ++ trail) x4a).
    set (x5 := read q2 trail (set_cap 1 x3 x4b)).
    set (x6 := read trail [] x5).
    apply MSeq with (y := x1).
    { apply Matches_plus_cset. exists ws, r1. repeat split; auto. }
    apply MSeq with (y := x2).
    { apply Matches_opt_quote. exists q1, r2. repeat split; auto. }
    apply MSeq with (y := x3).
    { apply (Matches_lit false B_SLASH). exists r3. split; reflexivity. }
    apply MSeq with (y := set_cap 1 x3 x4b).
    { apply MGrp. apply MSeq with (y := x4a).
      - apply Matches_plus_cset. exists stem, r4. repeat split; auto.
      - apply (Matches_lit false DOT_JSON). exists (q2 ++ trail). split; reflexivity. }
    apply MSeq with (y := x5).
    { apply Matches_opt_quote. exists q2, trail. repeat split; auto. }
    apply MSeq with (y := x6).
    { apply Matches_star_cset_intro; [rewrite app_nil_r; reflexivity | exact H7]. }
    replace (MState (rev (ws ++ r1) ++ bef) [] [(1, stem ++ DOT_JSON)]) with x6.
    + apply MEol. reflexivity.
    + unfold x6, x5, set_cap, x4b, x4a. rewrite consumed_read2.
      unfold x3, x2, x1, x0, read, r1. cbn [before after caps].
      repeat rewrite rev_app_distr. repeat rewrite <- app_assoc. reflexivity.
Qed.

Lemma rev_nonempty_head (p : char -> bool) ws :
  ws <> [] -> all_in p ws -> exists d a, rev ws = d :: a /\ p d = true.
Proof.
  intros N H. apply all_in_rev in H.
  destruct (rev ws) as [|d a] eqn:E.
  - apply (f_equal (@rev _)) in E. rewrite rev_involutive in E. simpl in E. congruence.
  - inversion H; subst. eauto.
Qed.

Lemma path_char_not_space c : is_space c = true -> path_char c = false.
Proof. unfold path_char. intros ->. rewrite orb_true_r. reflexivity. Qed.

(** The path is determined by the end of the line: trailing whitespace, an
    optional quote, [.json], the stem, [b/], an optional quote and a
    whitespace character before it. *)
Lemma file_line_unique pre ws q1 stem q2 trail pre' ws' q1' stem' q2' trail' :
  ws <> [] -> all_in is_space ws -> quote_opt q1 -> all_in path_char stem ->
  quote_opt q2 -> all_in is_space trail ->
  ws' <> [] -> all_in is_space ws' -> quote_opt q1' -> all_in path_char stem' ->
  quote_opt q2' -> all_in is_space trail' ->
  pre ++ ws ++ q1 ++ B_SLASH ++ stem ++ DOT_JSON ++ q2 ++ trail
  = pre' ++ ws' ++ q1' ++ B_SLASH ++ stem' ++ DOT_JSON ++ q2' ++ trail' ->
  stem' = stem.
Proof.
  intros N Hw Q1 Hs Q2 Ht N' Hw' Q1' Hs' Q2' Ht' E.
  apply (f_equal (@rev _)) in E.
  repeat rewrite rev_app_distr in E. repeat rewrite <- app_assoc in E.
  change (rev DOT_JSON) with (str "nosj.") in E.
  change (rev B_SLASH) with (str "/b") in E.
  assert (E1 : rev stem ++ str "/b" ++ rev q1 ++ rev ws ++ rev pre
               = rev stem' ++ str "/b" ++ rev q1' ++ rev ws' ++ rev pre').
  { destruct Q2 as [-> | ->], Q2' as [-> | ->]; cbn [rev app str] in E;
      apply (run_unique (p := is_space)) in E as (_ & Ed & E);
      try (apply all_in_rev; assumption); try reflexivity;
      try discriminate Ed.
    - cbn in E. inversion E. assumption.
    - cbn in E. inversion E. assumption. }
  assert (T : forall q ws0 pre0, quote_opt q -> ws0 <> [] -> all_in is_space ws0 ->
            exists d a, rev q ++ rev ws0 ++ rev pre0 = d :: a /\ path_char d = false).
  { intros q ws0 pre0 [-> | ->] N0 H0.
    - destruct (rev_nonempty_head N0 H0) as (d & a & -> & Hd).
      exists d, (a ++ rev pre0). split; [reflexivity | apply path_char_not_space; exact Hd].
    - exists DQ, (rev ws0 ++ rev pre0). split; reflexivity. }
  destruct (T q1 ws pre Q1 N Hw) as (d & a & Ea & Hd).
  destruct (T q1' ws' pre' Q1' N' Hw') as (d' & a' & Ea' & Hd').
  assert (E2 : (rev stem ++ str "/b") ++ d :: a = (rev stem' ++ str "/b") ++ d' :: a').
  { rewrite <- Ea, <- Ea'. repeat rewrite <- app_assoc. exact E1. }
  apply (run_unique (p := path_char)) in E2 as (E2 & _); auto.
  - apply app_inv_tail in E2.
    apply (f_equal (@rev _)) in E2. rewrite !rev_involutive in E2. congruence.
  - apply all_in_app; split; [apply all_in_rev; exact Hs|].
    repeat constructor.
  - apply all_in_app; split; [apply all_in_rev; exact Hs'|].
    repeat constructor.
Qed.

(** A first line that ends in the destination path gives that path. *)
Lemma fileMatch_found pre w q1 stem q2 trail :
  is_space w = true -> quote_opt q1 -> stem <> [] -> all_in path_char stem ->
  quote_opt q2 -> all_in is_space trail ->
  exists m,
    exec false fileRegex (pre ++ [w] ++ q1 ++ B_SLASH ++ stem ++ DOT_JSON ++ q2 ++ trail)
    = Some m
    /\ group 1 m = stem ++ DOT_JSON.
Proof.
  intros Hw Q1 N Hs Q2 Ht.
  set (l := pre ++ [w] ++ q1 ++ B_SLASH ++ stem ++ DOT_JSON ++ q2 ++ trail).
  assert (Hex : exists z0,
            match_here false fileRegex
              (MState (rev pre ++ [])
                 ([w] ++ q1 ++ B_SLASH ++ stem ++ DOT_JSON ++ q2 ++ trail) []) = Some z0).
  { eapply mt_complete; [|reflexivity].
    apply file_reads. exists [w], q1, stem, q2, trail.
    repeat split; auto; try discriminate. repeat constructor; exact Hw. }
  destruct Hex as (z0 & Hz0).
  unfold exec, exec_from. cbn [Nat.ltb Nat.leb firstn skipn rev].
  destruct (search false fileRegex [] l) as [[x z]|] eqn:S.
  - apply search_some in S as (pre' & post' & El & -> & Hm & _).
    unfold match_here in Hm. apply mt_sound in Hm as (y & M & Hy).
    inversion Hy; subst y; clear Hy.
    apply file_reads in M
      as (ws' & q1' & stem' & q2' & trail' & -> & N1' & H1' & Q1' & N4' & H4' & Q2' & H7' & ->).
    assert (stem' = stem).
    { eapply (@file_line_unique pre [w] q1 stem q2 trail pre' ws' q1' stem' q2' trail');
        auto; try discriminate.
      repeat constructor; exact Hw. }
    subst stem'. eexists; split; [reflexivity|]. reflexivity.
  - exfalso. pose proof (proj1 (search_none _ _ _ _) S pre _ eq_refl) as H.
    congruence.
Qed.

Lemma startsWith_app p : forall x, startsWith (p ++ x) p = true.
Proof.
  induction p as [|c p IH]; intros x; simpl; [reflexivity|].
  rewrite N.eqb_refl, IH. reflexivity.
Qed.

Lemma endsWith_app x p : endsWith (x ++ p) p = true.
Proof. unfold endsWith. rewrite rev_app_distr. apply startsWith_app. Qed.

Lemma split_on_hd sep l :
  ~ In sep l ->
  hd [] (split_on sep l) = l
  /\ forall rest, hd [] (split_on sep (l ++ sep :: rest)) = l.
Proof.
  induction l as [|c l IH]; intros H; simpl.
  - split; [reflexivity|]. intros rest. rewrite N.eqb_refl. reflexivity.
  - assert (Hc : N.eqb c sep = false).
    { apply N.eqb_neq. intros ->. apply H. left; reflexivity. }
    destruct IH as (IH1 & IH2); [intros Hin; apply H; right; exact Hin|].
    rewrite Hc. split.
    + destruct (split_on sep l); simpl in *; congruence.
    + intros rest. specialize (IH2 rest).
      destruct (split_on sep (l ++ sep :: rest)); simpl in *; congruence.
Qed.

Lemma fileMatch_spec firstLine f :
  (exists m, exec false fileRegex firstLine = Some m /\ group 1 m = f)
  <-> names_file firstLine f.
Proof.
  split.
  - intros (m & E & <-). unfold exec, exec_from in E.
    cbn [Nat.ltb Nat.leb firstn skipn rev] in E.
    destruct (search false fileRegex [] firstLine) as [[x z]|] eqn:S; [|discriminate].
    simpl in E. inversion E; subst m; clear E.
    apply search_some in S as (pre & post & El & -> & Hm & _).
    unfold match_here in Hm. apply mt_sound in Hm as (y & M & Hy).
    inversion Hy; subst y; clear Hy.
    apply file_reads in M
      as (ws & q1 & stem & q2 & trail & -> & N1 & H1 & Q1 & N4 & H4 & Q2 & H7 & ->).
    exists pre, ws, q1, stem, q2, trail. repeat split; auto.
  - intros (pre & ws & q1 & stem & q2 & trail & -> & N1 & H1 & Q1 & N4 & H4 & Q2 & H7 & ->).
    destruct (exists_last N1) as (ws0 & w & ->).
    apply all_in_app in H1 as (_ & Hw). inversion Hw; subst.
    destruct (@fileMatch_found (pre ++ ws0) w q1 stem q2 trail) as (m & E & G); auto.
    exists m. split; [|exact G].
    rewrite <- E. f_equal. repeat rewrite <- app_assoc. reflexivity.
Qed.

Lemma names_file_functional firstLine f f' :
  names_file firstLine f -> names_file firstLine f' -> f' = f.
Proof.
  intros H H'. apply fileMatch_spec in H as (m & E & G), H' as (m' & E' & G').
  congruence.
Qed.

Lemma retainedFile_spec section f :
  retainedFile section = Some f <->
  names_file (hd [] (split_on LF section)) f /\ f <> str "en.json".
Proof.
  unfold retainedFile. split.
  - destruct (exec false fileRegex (hd [] (split_on LF section))) as [m|] eqn:E;
      [|discriminate].
    cbn zeta.
    destruct (negb (endsWith (group 1 m) (str ".json"))); [discriminate|].
    destruct (jseqb (group 1 m) (str "en.json")) eqn:J; [discriminate|].
    simpl. intros H; inversion H; subst f. split.
    + apply fileMatch_spec. exists m; auto.
    + apply jseqb_neq; exact J.
  - intros (Hn & Hne).
    pose proof Hn as (pre & ws & q1 & stem & q2 & trail & _ & _ & _ & _ & _ & _ & _ & _ & Ef).
    apply fileMatch_spec in Hn as (m & E & G).
    rewrite E. cbn zeta. rewrite G, Ef.
    change (str ".json") with DOT_JSON. rewrite endsWith_app.
    rewrite <- Ef. apply jseqb_neq in Hne. rewrite Hne. reflexivity.
Qed.

(** ** Snippets without a backslash *)

Lemma special_match_here bef c aft :
  match_here false specialChars (MState bef (c :: aft) [])
  = if is_special c then Some (MState (c :: bef) aft [(1, [c])]) else None.
Proof.
  unfold match_here, specialChars. cbn [mt after]. fold special_set.
  unfold is_special. destruct (cmem special_set c); [|reflexivity].
  unfold set_cap. cbn [before after caps].
  erewrite (consumed_app [c]) by reflexivity. reflexivity.
Qed.

Lemma escape_all : forall aft bef,
  replace_go false specialChars (fun m => str "\" ++ group 1 m) bef aft 0
  = flat_map escape_char aft.
Proof.
  induction aft as [|c aft IH]; intros bef; cbn [replace_go flat_map].
  - reflexivity.
  - rewrite special_match_here. unfold escape_char.
    destruct (is_special c).
    + cbn [before length]. replace (S (length bef) - length bef) with 1 by lia.
      unfold group, result_of. cbn [groups snd caps get_cap Nat.eqb].
      rewrite IH. reflexivity.
    + rewrite IH. reflexivity.
Qed.

Lemma not_space_backslash : is_space BACKSLASH = false.
Proof. reflexivity. Qed.

Lemma flat_map_escape_spaces w :
  all_in is_space w -> flat_map escape_char w = w.
Proof.
  induction 1 as [|c w Hc Hw IH]; simpl; [reflexivity|].
  unfold escape_char at 1, is_special. rewrite (space_not_special _ Hc), IH.
  reflexivity.
Qed.

Lemma escape_char_head c :
  is_space c = false ->
  exists h rest, escape_char c = h :: rest /\ is_space h = false.
Proof.
  intros H. unfold escape_char. destruct (is_special c).
  - exists BACKSLASH, [c]. split; reflexivity.
  - exists c, []. split; [reflexivity | exact H].
Qed.

Lemma escape_stops r :
  stops is_space r -> stops is_space (flat_map escape_char r).
Proof.
  destruct r as [|c r]; simpl; [auto|]. intros H.
  destruct (escape_char_head c H) as (h & rest & -> & Hh). exact Hh.
Qed.

Lemma replace_go_skip_run ml r repl : forall w bef rest,
  replace_go ml r repl bef (w ++ rest) (length w)
  = replace_go ml r repl (rev w ++ bef) rest 0.
Proof.
  induction w as [|c w IH]; intros bef rest; [reflexivity|].
  cbn [app length replace_go]. rewrite IH, rev_cons_app. reflexivity.
Qed.

Lemma pattern_of_run w r :
  all_in is_space w -> pattern_of true (w ++ r) = pattern_of true r.
Proof.
  induction 1 as [|c w Hc Hw IH]; simpl; [reflexivity|]. rewrite Hc. exact IH.
Qed.

Lemma pattern_of_stops b r :
  stops is_space r -> pattern_of b r = pattern_of false r.
Proof.
  destruct r as [|c r]; simpl; [reflexivity|]. intros ->. reflexivity.
Qed.

Lemma regex_of_run w r :
  all_in is_space w -> regex_of true (w ++ r) = regex_of true r.
Proof.
  induction 1 as [|c w Hc Hw IH]; simpl; [reflexivity|]. rewrite Hc. exact IH.
Qed.

Lemma regex_of_stops b r :
  stops is_space r -> regex_of b r = regex_of false r.
Proof.
  destruct r as [|c r]; simpl; [reflexivity|]. intros ->. reflexivity.
Qed.

Lemma whitespace_none_at bef aft :
  stops is_space aft ->
  match_here false whitespaceRun (MState bef aft []) = None.
Proof. apply (plus_match_none false CSpace). Qed.

(** The second replacement, on the result of the first. *)
Lemma collapse_all : forall n s bef,
  length s <= n ->
  replace_go false whitespaceRun (fun _ => str "\s+") bef (flat_map escape_char s) 0
  = pattern_of false s.
Proof.
  induction n as [|n IH]; intros s bef L.
  - destruct s; [|simpl in L; lia]. cbn [flat_map replace_go].
    rewrite whitespace_none_at by exact I. reflexivity.
  - destruct s as [|c s].
    { cbn [flat_map replace_go]. rewrite whitespace_none_at by exact I. reflexivity. }
    simpl in L. destruct (is_space c) eqn:Hc.
    + destruct (span_spec is_space s) as (Es & Hw & Hr).
      destruct (span is_space s) as [w r]. simpl in Es, Hw, Hr.
      assert (Ee : flat_map escape_char (c :: s)
                   = (c :: w) ++ flat_map escape_char r).
      { rewrite Es. change (c :: w ++ r) with ((c :: w) ++ r).
        rewrite flat_map_app, flat_map_escape_spaces; [reflexivity|].
        constructor; assumption. }
      rewrite Ee. cbn [app replace_go].
      change (c :: w ++ flat_map escape_char r)
        with ((c :: w) ++ flat_map escape_char r).
      unfold whitespaceRun at 1.
      rewrite plus_match_here;
        [|discriminate | constructor; assumption | apply escape_stops; exact Hr].
      cbn [before]. rewrite length_app, length_rev. cbn [length].
      replace (S (length w) + length bef - length bef) with (S (length w)) by lia.
      rewrite replace_go_skip_run.
      rewrite IH by (rewrite Es, length_app in L; lia).
      cbn [pattern_of]. rewrite Hc, Es, pattern_of_run by exact Hw.
      rewrite (pattern_of_stops true r Hr). reflexivity.
    + cbn [flat_map pattern_of]. rewrite Hc. unfold escape_char at 1 3.
      destruct (is_special c).
      * cbn [app replace_go].
        rewrite whitespace_none_at by exact not_space_backslash.
        rewrite whitespace_none_at by exact Hc.
        rewrite IH by lia. reflexivity.
      * cbn [app replace_go].
        rewrite whitespace_none_at by exact Hc.
        rewrite IH by lia. reflexivity.
Qed.

(** The pattern of every snippet. *)
Lemma convert_pattern s : convertToRegexPattern s = pattern_of false s.
Proof.
  unfold convertToRegexPattern, replace_all.
  rewrite escape_all. apply (collapse_all (n := length s)). lia.
Qed.

Lemma pattern_head : forall s b, plain_head (pattern_of b s).
Proof.
  induction s as [|c s IH]; intros b; simpl; [exact I|].
  destruct (is_space c).
  - destruct b; [apply IH | reflexivity].
  - unfold escape_char. destruct (is_special c) eqn:Sp; [reflexivity | exact Sp].
Qed.

Lemma not_special_neq h x :
  is_special h = false -> cmem special_set x = true -> N.eqb h x = false.
Proof.
  intros H Hx. destruct (N.eqb h x) eqn:E; [|reflexivity].
  apply N.eqb_eq in E; subst x. unfold is_special in H. congruence.
Qed.

Ltac plain H := apply (@not_special_neq _ _ H); reflexivity.

Lemma parse_quantifier_none r rest :
  plain_head rest -> parse_quantifier r rest = (r, rest).
Proof.
  destruct rest as [|q s1]; [reflexivity|]. simpl. intros H. unfold isc.
  replace (N.eqb q (chr "*")) with false by (symmetry; plain H).
  replace (N.eqb q (chr "+")) with false by (symmetry; plain H).
  replace (N.eqb q (chr "?")) with false by (symmetry; plain H).
  reflexivity.
Qed.

Lemma parse_term_plain fuel c rest n :
  c <> BACKSLASH -> is_special c = false -> plain_head rest ->
  parse (S fuel) PTerm (c :: rest) n = POk (Chr c, rest, n).
Proof.
  intros Hb H Hr. cbn [parse]. unfold isc.
  replace (N.eqb c (chr "\")) with false by (symmetry; apply N.eqb_neq; exact Hb).
  replace (N.eqb c (chr "(")) with false by (symmetry; plain H).
  replace (N.eqb c (chr "*")) with false by (symmetry; plain H).
  replace (N.eqb c (chr "+")) with false by (symmetry; plain H).
  replace (N.eqb c (chr "?")) with false by (symmetry; plain H).
  replace (N.eqb c (chr ")")) with false by (symmetry; plain H).
  replace (N.eqb c (chr "[")) with false by (symmetry; plain H).
  replace (N.eqb c (chr "{")) with false by (symmetry; plain H).
  replace (N.eqb c (chr ".")) with false by (symmetry; plain H).
  replace (N.eqb c (chr "^")) with false by (symmetry; plain H).
  replace (N.eqb c (chr "$")) with false by (symmetry; plain H).
  cbn [orb]. rewrite (@parse_quantifier_none _ _ Hr). reflexivity.
Qed.

Lemma parse_escape_special c rest :
  is_special c = true -> parse_escape c rest = POk (Chr c, true, rest).
Proof.
  intros H. apply existsb_exists in H as (d & Hin & Hd).
  apply N.eqb_eq in Hd; subst d. vm_compute in Hin.
  repeat (destruct Hin as [<- | Hin]; [reflexivity|]).
  contradiction.
Qed.

Lemma parse_term_escaped fuel c rest n :
  is_special c = true -> plain_head rest ->
  parse (S fuel) PTerm (BACKSLASH :: c :: rest) n = POk (Chr c, rest, n).
Proof.
  intros H Hr. cbn [parse].
  change (isc BACKSLASH "\") with true. cbn iota.
  rewrite (@parse_escape_special _ rest H). cbn [pbind].
  rewrite (@parse_quantifier_none _ _ Hr). reflexivity.
Qed.

Lemma parse_term_space fuel rest n :
  plain_head rest ->
  parse (S fuel) PTerm (BACKSLASH :: 115%N :: 43%N :: rest) n
  = POk (Plus true (Cset CSpace), rest, n).
Proof.
  intros Hr. cbn [parse].
  change (isc BACKSLASH "\") with true. cbn iota.
  change (parse_escape 115%N (43%N :: rest))
    with (POk (Cset CSpace, true, 43%N :: rest)).
  cbn [pbind parse_quantifier].
  change (isc 43%N "*") with false.
  change (isc 43%N "+") with true. cbn iota.
  destruct rest as [|l rest']; [reflexivity|].
  simpl in Hr. unfold isc.
  replace (N.eqb l (chr "?")) with false by (symmetry; plain Hr).
  reflexivity.
Qed.

Lemma parse_alternative_step fuel c rest n :
  isc c "|" || isc c ")" = false ->
  parse (S fuel) PAlternative (c :: rest) n
  = pbind (parse fuel PTerm (c :: rest) n) (fun '(t, s1, n1) =>
      pbind (parse fuel PAlternative s1 n1) (fun '(r, s2, n2) =>
        POk (Seq t r, s2, n2))).
Proof. intros H. cbn [parse]. rewrite H. reflexivity. Qed.

Lemma parse_pattern : forall s b fuel n,
  no_backslash s -> length (pattern_of b s) < fuel ->
  parse fuel PAlternative (pattern_of b s) n = POk (regex_of b s, [], n).
Proof.
  induction s as [|c s IH]; intros b fuel n Hs L.
  - destruct fuel as [|f]; [simpl in L; lia | reflexivity].
  - inversion Hs as [|c' s' Hc Hs']; subst. cbn [pattern_of regex_of] in L |- *.
    destruct (is_space c) eqn:Sp.
    + destruct b.
      * apply IH; assumption.
      * change (str "\s+" ++ pattern_of true s)
          with (BACKSLASH :: 115%N :: 43%N :: pattern_of true s) in L |- *.
        cbn [length] in L.
        destruct fuel as [|f]; [lia|].
        rewrite parse_alternative_step by reflexivity.
        destruct f as [|f']; [lia|].
        rewrite parse_term_space by apply pattern_head. cbn [pbind].
        rewrite IH by (assumption || lia). reflexivity.
    + rewrite length_app in L. unfold escape_char in L |- *.
      destruct (is_special c) eqn:Hsp.
      * cbn [app length] in L |- *.
        destruct fuel as [|f]; [lia|].
        rewrite parse_alternative_step by reflexivity.
        destruct f as [|f']; [lia|].
        rewrite parse_term_escaped by (assumption || apply pattern_head). cbn [pbind].
        rewrite IH by (assumption || lia). reflexivity.
      * cbn [app length] in L |- *.
        destruct fuel as [|f]; [lia|].
        rewrite parse_alternative_step.
        2:{ unfold isc.
            replace (N.eqb c (chr "|")) with false by (symmetry; plain Hsp).
            replace (N.eqb c (chr ")")) with false by (symmetry; plain Hsp).
            reflexivity. }
        destruct f as [|f']; [lia|].
        rewrite parse_term_plain by (assumption || apply pattern_head). cbn [pbind].
        rewrite IH by (assumption || lia). reflexivity.
Qed.

Lemma parse_disjunction_step fuel s n :
  parse (S fuel) PDisjunction s n
  = pbind (parse fuel PAlternative s n) (fun '(r1, s1, n1) =>
      match s1 with
      | c :: s2 =>
          if isc c "|" then
            pbind (parse fuel PDisjunction s2 n1) (fun '(r2, s3, n2) =>
              POk (Alt r1 r2, s3, n2))
          else POk (r1, s1, n1)
      | [] => POk (r1, s1, n1)
      end).
Proof. reflexivity. Qed.

(** The pattern of a snippet without a backslash compiles. *)
Lemma pattern_compiles s :
  no_backslash s -> RegExp_new (pattern_of false s) = POk (regex_of false s).
Proof.
  intros Hs. unfold RegExp_new.
  change (4 + 4 * length (pattern_of false s))
    with (S (3 + 4 * length (pattern_of false s))).
  rewrite parse_disjunction_step, parse_pattern by (assumption || lia).
  reflexivity.
Qed.

Lemma variant_matches b s m :
  variant b s m ->
  forall x rest, after x = m ++ rest ->
    Matches false (regex_of b s) x (read m rest x).
Proof.
  induction 1 as [b | b c s m Hc V IH | c s w m Hc N Hw V IH | c s m Hc V IH];
    intros x rest E; cbn [regex_of].
  - simpl in E. rewrite <- E, read_nil. constructor.
  - rewrite Hc. apply MSeq with (y := read [c] (m ++ rest) x).
    + apply Matches_chr. exists (m ++ rest). split; [exact E | reflexivity].
    + rewrite <- (read_cons c m (m ++ rest) rest x). apply IH. reflexivity.
  - rewrite Hc. apply MSeq with (y := read w (m ++ rest) x).
    + apply Matches_plus_cset. exists w, (m ++ rest).
      repeat split; auto. rewrite E, app_assoc. reflexivity.
    + rewrite <- (read_read w m (m ++ rest) rest x). apply IH. reflexivity.
  - rewrite Hc. apply IH. exact E.
Qed.

Lemma matches_variant : forall s b x y,
  Matches false (regex_of b s) x y ->
  exists m, variant b s m /\ after x = m ++ after y /\ y = read m (after y) x.
Proof.
  induction s as [|c s IH]; intros b x y M; cbn [regex_of] in M.
  - apply Matches_eps_inv in M; subst y.
    exists []. repeat split; [constructor | symmetry; apply read_nil].
  - destruct (is_space c) eqn:Hc.
    + destruct b.
      * apply IH in M as (m & V & E & Ey).
        exists m. repeat split; auto. apply VariantMore; assumption.
      * apply Matches_seq_inv in M as (y1 & M1 & M2).
        apply Matches_plus_cset in M1 as (w & r & N & E1 & Hw & ->).
        apply IH in M2 as (m & V & E2 & Ey). simpl in E2.
        exists (w ++ m). repeat split.
        -- apply VariantRun; assumption.
        -- rewrite E1, E2, app_assoc. reflexivity.
        -- rewrite Ey. apply read_read.
    + apply Matches_seq_inv in M as (y1 & M1 & M2).
      apply Matches_chr in M1 as (r & E1 & ->).
      apply IH in M2 as (m & V & E2 & Ey). simpl in E2.
      exists (c :: m). repeat split.
      * apply VariantChar; assumption.
      * rewrite E1, E2. reflexivity.
      * rewrite Ey. apply read_cons.
Qed.

(** ** Literal snippets and line numbers *)

Lemma count_char_app c a b :
  count_char c (a ++ b) = count_char c a + count_char c b.
Proof. unfold count_char. rewrite filter_app, length_app. reflexivity. Qed.

Lemma getLineNumber_in_range (text searchString : jsarg) (z : Z) :
  getLineNumber text searchString = POk z ->
  z = (-1)%Z
  \/ exists t, text = JStr t
       /\ (1 <= z <= Z.of_nat (length (split_on LF t)))%Z.
Proof.
  unfold getLineNumber.
  destruct text as [| |[|c t]]; try (intros H; inversion H; auto; fail).
  destruct searchString as [| |[|d s]]; try (intros H; inversion H; auto; fail).
  destruct (RegExp_new (convertToRegexPattern (d :: s))) as [r| |]; cbn [pbind];
    try discriminate.
  destruct (exec false r (c :: t)) as [m|] eqn:E.
  - intros H; inversion H; subst z; clear H. right. exists (c :: t). split; [reflexivity|].
    apply exec_from_bounds in E as (_ & B & z & _ & _ & _ & A).
    rewrite !split_on_length. unfold slice. rewrite Nat.sub_0_r.
    rewrite <- (firstn_skipn (index m) (c :: t)) at 3.
    rewrite A, !count_char_app. cbn [skipn]. lia.
  - intros H; inversion H; auto.
Qed.

Lemma pattern_of_snoc : forall s b,
  pattern_of b (s ++ [BACKSLASH]) = pattern_of b s ++ [BACKSLASH].
Proof.
  induction s as [|c s IH]; intros b; [reflexivity|].
  cbn [app pattern_of]. rewrite !IH. destruct (is_space c); rewrite app_assoc; reflexivity.
Qed.

Lemma pattern_head_snoc : forall s b, plain_head (pattern_of b s ++ [BACKSLASH]).
Proof.
  induction s as [|c s IH]; intros b; simpl; [reflexivity|].
  destruct (is_space c).
  - destruct b; [apply IH | reflexivity].
  - unfold escape_char. destruct (is_special c) eqn:Sp; [reflexivity | exact Sp].
Qed.

Lemma parse_pattern_snoc : forall s b fuel n,
  no_backslash s -> S (length (pattern_of b s)) < fuel ->
  parse fuel PAlternative (pattern_of b s ++ [BACKSLASH]) n = PSyntaxError.
Proof.
  induction s as [|c s IH]; intros b fuel n Hs L.
  - destruct fuel as [|[|f]]; [simpl in L; lia | simpl in L; lia | reflexivity].
  - inversion Hs as [|c' s' Hc Hs']; subst. cbn [pattern_of] in L |- *.
    destruct (is_space c) eqn:Sp.
    + destruct b.
      * apply IH; assumption.
      * change ((str "\s+" ++ pattern_of true s) ++ [BACKSLASH])
          with (BACKSLASH :: 115%N :: 43%N :: (pattern_of true s ++ [BACKSLASH])).
        change (length (str "\s+" ++ pattern_of true s))
          with (S (S (S (length (pattern_of true s))))) in L.
        destruct fuel as [|f]; [lia|].
        rewrite parse_alternative_step by reflexivity.
        destruct f as [|f']; [lia|].
        rewrite parse_term_space by apply pattern_head_snoc. cbn [pbind].
        rewrite IH by (assumption || lia). reflexivity.
    + rewrite length_app in L. rewrite <- app_assoc. unfold escape_char in L |- *.
      destruct (is_special c) eqn:Hsp.
      * cbn [app length] in L |- *.
        destruct fuel as [|f]; [lia|].
        rewrite parse_alternative_step by reflexivity.
        destruct f as [|f']; [lia|].
        rewrite parse_term_escaped by (assumption || apply pattern_head_snoc). cbn [pbind].
        rewrite IH by (assumption || lia). reflexivity.
      * cbn [app length] in L |- *.
        destruct fuel as [|f]; [lia|].
        rewrite parse_alternative_step.
        2:{ unfold isc.
            replace (N.eqb c (chr "|")) with false by (symmetry; plain Hsp).
            replace (N.eqb c (chr ")")) with false by (symmetry; plain Hsp).
            reflexivity. }
        destruct f as [|f']; [lia|].
        rewrite parse_term_plain by (assumption || apply pattern_head_snoc). cbn [pbind].
        rewrite IH by (assumption || lia). reflexivity.
Qed.

Lemma variant_no_space : forall s b m,
  no_space s -> variant b s m -> m = s.
Proof.
  intros s b m Hs V. induction V as [b | b c s m Hc V IH | c s w m Hc N Hw V IH | c s m Hc V IH].
  - reflexivity.
  - inversion Hs; subst. rewrite IH by assumption. reflexivity.
  - inversion Hs; subst. unfold not_space in H1. rewrite Hc in H1. discriminate.
  - inversion Hs; subst. unfold not_space in H1. rewrite Hc in H1. discriminate.
Qed.

Lemma variant_refl_no_space : forall s b, no_space s -> variant b s s.
Proof.
  induction s as [|c s IH]; intros b Hs; [constructor|].
  inversion Hs; subst. apply VariantChar.
  - unfold not_space in H1. apply negb_true_iff in H1. exact H1.
  - apply IH; assumption.
Qed.

Lemma literal_snippet_line (pre s post : jsstring) :
  s <> [] -> no_space s -> no_backslash s ->
  (forall pre' post', pre ++ s ++ post = pre' ++ s ++ post' ->
     length pre <= length pre') ->
  getLineNumber (JStr (pre ++ s ++ post)) (JStr s)
  = POk (Z.of_nat (S (count_char LF (pre ++ s)))).
Proof.
  intros Ns Hsp Hb Hfirst.
  set (t := pre ++ s ++ post).
  assert (Hr : RegExp_new (convertToRegexPattern s) = POk (regex_of false s))
    by (rewrite convert_pattern; apply pattern_compiles; exact Hb).
  assert (M : Matches false (regex_of false s)
                (MState (rev pre ++ []) (s ++ post) [])
                (read s post (MState (rev pre ++ []) (s ++ post) [])))
    by (apply variant_matches; [apply variant_refl_no_space; exact Hsp | reflexivity]).
  destruct (mt_complete (fun y => Some y) M eq_refl) as (z & Hz).
  assert (Hm : match_at (regex_of false s) t (length pre) = Some z)
    by (unfold t; rewrite match_at_split; exact Hz).
  assert (Ez : text_of t (length pre) z = s).
  { unfold match_here in Hz. apply mt_sound in Hz as (y & My & Hy).
    inversion Hy; subst y; clear Hy.
    apply matches_variant in My as (m & V & E & Ey).
    apply variant_no_space in V; [|exact Hsp]. subst m.
    unfold text_of, t.
    rewrite firstn_app, Nat.sub_diag, firstn_all, skipn_app, Nat.sub_diag, skipn_all.
    simpl firstn. simpl skipn. rewrite !app_nil_r. simpl app.
    rewrite Ey. rewrite app_nil_r. apply consumed_read. }
  assert (Hmin : forall j, j < length pre -> match_at (regex_of false s) t j = None).
  { intros j Lj. destruct (match_at (regex_of false s) t j) as [z'|] eqn:E; [|reflexivity].
    exfalso. unfold match_at, match_here in E.
    apply mt_sound in E as (y & My & Hy). inversion Hy; subst y; clear Hy.
    apply matches_variant in My as (m & V & E & _).
    apply variant_no_space in V; [|exact Hsp]. subst m. simpl in E.
    assert (Lt : j <= length t) by (unfold t; rewrite length_app; lia).
    specialize (Hfirst (firstn j t) (after z')).
    rewrite <- E, firstn_skipn in Hfirst. specialize (Hfirst eq_refl).
    rewrite length_firstn in Hfirst. lia. }
  destruct t as [|c t'] eqn:Et.
  { unfold t in Et. destruct pre; [destruct s; [congruence|discriminate]|discriminate]. }
  destruct s as [|d s']; [congruence|].
  rewrite (@getLineNumber_found c t' d s' _ (length pre) z Hr).
  - rewrite Ez. f_equal.
    assert (Ef : firstn (length pre) (c :: t') = pre).
    { rewrite <- Et. unfold t. rewrite firstn_app, Nat.sub_diag, firstn_all. simpl.
      apply app_nil_r. }
    rewrite Ef, count_char_app. lia.
  - rewrite <- Et. unfold t. rewrite length_app. lia.
  - exact Hm.
  - exact Hmin.
Qed.

(** ** Ignored paths *)

Lemma Matches_wild ml pat : forall x y,
  Matches ml (wild pat) x y <->
  exists w rest, after x = w ++ rest /\ wild_eqb pat w = true /\ y = read w rest x.
Proof.
  induction pat as [|c pat IH]; intros x y; cbn [wild].
  - split.
    + intros M. apply Matches_eps_inv in M. subst y.
      exists [], (after x). repeat split. symmetry; apply read_nil.
    + intros (w & rest & E & Hw & ->). destruct w; [|discriminate].
      simpl in E. rewrite <- E, read_nil. constructor.
  - split.
    + intros M. apply Matches_seq_inv in M as (y1 & M1 & M2).
      apply IH in M2 as (w & rest & E2 & Hw & ->).
      assert (H1 : exists d r1, after x = d :: r1 /\ y1 = read [d] r1 x
                   /\ (if N.eqb c DOT then negb (is_newline d) else N.eqb d c) = true).
      { destruct (N.eqb c DOT).
        - apply Matches_cset_inv in M1 as (d & r1 & E1 & Hd & ->).
          exists d, r1. repeat split; auto.
        - apply Matches_chr in M1 as (r1 & E1 & ->).
          exists c, r1. repeat split; auto. apply N.eqb_refl. }
      destruct H1 as (d & r1 & E1 & -> & Hd). simpl in E2. subst r1.
      exists (d :: w), rest. repeat split.
      * exact E1.
      * simpl. rewrite Hd, Hw. reflexivity.
      * apply read_cons.
    + intros (w & rest & E & Hw & ->). destruct w as [|d w]; [discriminate|].
      simpl in Hw. apply andb_true_iff in Hw as (Hd & Hw).
      apply MSeq with (y := read [d] (w ++ rest) x).
      * destruct (N.eqb c DOT).
        -- apply MCset; [exact E | exact Hd].
        -- apply N.eqb_eq in Hd. subst d. apply Matches_chr. eauto.
      * apply IH. exists w, rest. repeat split; auto.
        symmetry; apply read_cons.
Qed.

Lemma wild_eqb_plain : forall pat w,
  Forall (fun c => c <> DOT) pat -> wild_eqb pat w = true -> w = pat.
Proof.
  induction pat as [|c pat IH]; intros w Hp H; destruct w as [|d w]; try discriminate.
  - reflexivity.
  - inversion Hp as [|c' pat' Hc Hp']; subst. simpl in H.
    apply andb_true_iff in H as (Hd & Hw).
    apply N.eqb_neq in Hc. rewrite Hc in Hd. apply N.eqb_eq in Hd. subst d.
    f_equal. apply IH; assumption.
Qed.

Lemma wild_eqb_plain_refl : forall pat,
  Forall (fun c => c <> DOT) pat -> wild_eqb pat pat = true.
Proof.
  induction 1 as [|c pat Hc Hp IH]; [reflexivity|]. simpl.
  apply N.eqb_neq in Hc. rewrite Hc, N.eqb_refl. exact IH.
Qed.

Lemma startsWith_spec : forall p s,
  startsWith s p = true <-> exists rest, s = p ++ rest.
Proof.
  induction p as [|c p IH]; intros s; simpl.
  - split; [intros _; exists s; reflexivity | reflexivity].
  - destruct s as [|d s].
    + split; [discriminate | intros (rest & E); discriminate].
    + rewrite andb_true_iff, IH, N.eqb_eq. split.
      * intros (-> & rest & ->). exists rest; reflexivity.
      * intros (rest & E). inversion E; subst. split; [reflexivity | eauto].
Qed.

(** [r.test(s)] succeeds exactly when the pattern can be read somewhere
    in the text. *)
Lemma test_spec ml r s :
  test ml r s = true <->
  exists pre post z, s = pre ++ post /\ Matches ml r (MState (rev pre) post []) z.
Proof.
  unfold test, exec, exec_from. cbn [Nat.ltb Nat.leb firstn skipn rev].
  destruct (search ml r [] s) as [[x z]|] eqn:E; cbn [option_map].
  - split; [intros _|reflexivity].
    apply search_some in E as (pre & post & Es & -> & Hm & _).
    apply mt_sound in Hm as (y & M & Hy). inversion Hy; subst y.
    rewrite app_nil_r in M. eauto.
  - split; [discriminate|]. intros (pre & post & z & Es & M). exfalso.
    pose proof (proj1 (search_none _ _ _ _) E pre post Es) as Hn.
    rewrite app_nil_r in Hn.
    destruct (mt_complete (fun y => Some y) M eq_refl) as (z' & Hz').
    unfold match_here in Hn. congruence.
Qed.

Lemma ignoredRegex_shape :
  ignoredRegex
  = Alt (Seq Bol
           (Seq (Grp 1 (Alt (wild (str "package.json"))
                         (Alt (wild (str "package-lock.json"))
                              (wild (str "yarn.lock")))))
                (Seq Eol Eps)))
        (Seq Bol (wild (str "node_modules/"))).
Proof. vm_compute. reflexivity. Qed.

Lemma at_bol_start pre post cps :
  at_bol false (MState (rev pre) post cps) = true -> pre = [].
Proof.
  unfold at_bol; simpl. destruct (rev pre) eqn:E; [|discriminate].
  intros _. apply (f_equal (@rev _)) in E. rewrite rev_involutive in E. exact E.
Qed.

Lemma ignoredRegex_test (path : jsstring) :
  test false ignoredRegex path = ignored path.
Proof.
  apply eq_true_iff_eq. rewrite test_spec, ignoredRegex_shape. unfold ignored.
  rewrite orb_true_iff, startsWith_spec. split.
  - intros (pre & post & z & Es & M).
    apply Matches_alt_inv in M as [M | M];
      apply Matches_seq_inv in M as (y1 & M1 & M);
      apply Matches_bol_inv in M1 as (-> & Hb);
      apply at_bol_start in Hb; subst pre; simpl in Es; subst post.
    + left. apply Matches_seq_inv in M as (y2 & M2 & M).
      apply Matches_seq_inv in M as (y3 & M3 & M).
      apply Matches_eol_inv in M3 as (-> & He).
      apply Matches_grp_inv in M2 as (y0 & M2 & ->).
      assert (H : exists f w rest, In f IGNORED_FILES /\ path = w ++ rest
                    /\ wild_eqb f w = true /\ y0 = read w rest (MState (rev []) path [])).
      { apply Matches_alt_inv in M2 as [M2 | M2];
          [|apply Matches_alt_inv in M2 as [M2 | M2]];
          apply Matches_wild in M2 as (w & rest & E & Hw & ->);
          eexists; exists w, rest;
          (split; [|split; [exact E|split; [exact Hw|reflexivity]]]);
          simpl; auto. }
      destruct H as (f & w & rest & Hin & E & Hw & ->).
      unfold at_eol in He. simpl in He. destruct rest; [|discriminate].
      rewrite app_nil_r in E. subst w.
      apply existsb_exists. exists f. split; assumption.
    + right. apply Matches_wild in M as (w & rest & E & Hw & _).
      apply wild_eqb_plain in Hw; [|repeat constructor; discriminate].
      subst w. exists rest. exact E.
  - intros [H | (rest & E)].
    + apply existsb_exists in H as (f & Hin & Hw).
      exists [], path. eexists. split; [reflexivity|].
      apply MAltL. eapply MSeq; [apply MBol; reflexivity|].
      eapply MSeq.
      * apply MGrp with (y := read path [] (MState (rev []) path [])).
        simpl in Hin. destruct Hin as [<- | [<- | [<- | []]]].
        -- apply MAltL. apply Matches_wild. exists path, []. rewrite app_nil_r. auto.
        -- apply MAltR, MAltL. apply Matches_wild. exists path, []. rewrite app_nil_r. auto.
        -- apply MAltR, MAltR. apply Matches_wild. exists path, []. rewrite app_nil_r. auto.
      * eapply MSeq; [apply MEol; reflexivity | apply MEps].
    + exists [], path. eexists. split; [reflexivity|].
      apply MAltR. eapply MSeq; [apply MBol; reflexivity|].
      apply Matches_wild. exists (str "node_modules/"), rest.
      split; [exact E|]. split; [reflexivity | reflexivity].
Qed.

(** ** Headers *)

Lemma collect_headers_In d h : forall fuel from hs,
  collect_headers fuel d from = Some hs -> In h hs ->
  exists from' m, exec_from true headerRegex d from' = Some m
    /\ h_index h = index m
    /\ h_path h = replace_all false quoteEnds (fun _ => []) (group 2 m).
Proof.
  induction fuel as [|f IH]; intros from hs H Hin; [discriminate|].
  simpl in H. destruct (exec_from true headerRegex d from) as [m|] eqn:E.
  - destruct (collect_headers f d (index m + length (matched m))) as [hs'|] eqn:E';
      [|discriminate].
    simpl in H. inversion H; subst hs; clear H.
    destruct Hin as [<- | Hin].
    + exists from, m. auto.
    + eapply IH; eauto.
  - inversion H; subst. contradiction.
Qed.

Lemma at_bol_line pre post cps :
  at_bol true (MState (rev pre) post cps) = true ->
  pre = [] \/ exists pre' c, pre = pre' ++ [c] /\ is_newline c = true.
Proof.
  unfold at_bol; simpl. destruct (rev pre) as [|c b] eqn:E.
  - intros _. left. apply (f_equal (@rev _)) in E. rewrite rev_involutive in E. exact E.
  - intros H. right. exists (rev b), c. split; [|exact H].
    apply (f_equal (@rev _)) in E. rewrite rev_involutive in E. exact E.
Qed.

Lemma filter_kept_all (d : jsstring) : forall hs,
  (forall h, In h hs -> test false ignoredRegex (h_path h) = false) ->
  filter kept (spans d hs) = spans d hs.
Proof.
  induction hs as [|h rest IH]; intros H; [reflexivity|].
  cbn [spans filter]. unfold kept at 1. cbn [fst]. rewrite (H h) by (left; reflexivity).
  cbn [negb]. f_equal. apply IH. intros h' Hin. apply H. right; exact Hin.
Qed.

Lemma filter_result d :
  filterDiffByIgnoredFiles (JStr d)
  = Some (JStr (preamble d (headers d)
                ++ concat (map snd (filter kept (spans d (headers d)))))).
Proof.
  destruct d as [|c d]; [reflexivity|].
  unfold filterDiffByIgnoredFiles. rewrite (proj1 (headers_spec _)).
  destruct (headers (c :: d)) as [|h0 rest] eqn:E.
  - simpl. rewrite app_nil_r. reflexivity.
  - rewrite append_kept_spans. cbn [preamble]. unfold slice.
    destruct (h_index h0) as [|n] eqn:En.
    + reflexivity.
    + cbn [Nat.ltb Nat.leb]. rewrite Nat.sub_0_r. reflexivity.
Qed.

Lemma filter_without_ignored_paths (d : jsstring) :
  (forall h, In h (headers d) -> ignored (h_path h) = false) ->
  filterDiffByIgnoredFiles (JStr d) = Some (JStr d).
Proof.
  intros H. rewrite filter_result, filter_kept_all.
  - rewrite <- (@preamble_spans d (headers d) 0); [reflexivity | apply headers_spec].
  - intros h Hin. rewrite ignoredRegex_test. apply H; exact Hin.
Qed.

(** ** Patterns *)
Lemma pattern_of_no_space : forall s b, all_in not_space (pattern_of b s).
Proof.
  induction s as [|c s IH]; intros b; cbn [pattern_of]; [constructor|].
  destruct (is_space c) eqn:Hc.
  - apply all_in_app. split; [|apply IH].
    destruct b; repeat constructor.
  - apply all_in_app. split; [|apply IH].
    unfold escape_char. destruct (is_special c); repeat constructor;
      unfold not_space; rewrite Hc; reflexivity.
Qed.

(** ** The file loop *)

Lemma search_with_sound m x z : forall aft bef,
  search_with m bef aft = Some (x, z) ->
  exists pre post, aft = pre ++ post /\ x = MState (rev pre ++ bef) post []
    /\ m x = Some z.
Proof.
  induction aft as [|c a IH]; intros bef; cbn [search_with].
  - destruct (m (MState bef [] [])) eqn:E; [|discriminate].
    intros H; inversion H; subst. exists [], []. auto.
  - destruct (m (MState bef (c :: a) [])) eqn:E.
    + intros H; inversion H; subst. exists [], (c :: a). auto.
    + intros H. apply IH in H as (pre & post & Ea & -> & Hm).
      exists (c :: pre), post. rewrite rev_cons_app.
      split; [simpl; congruence | auto].
Qed.

Lemma lit_none ml s y :
  mt ml (Lit s) (fun y => Some y) y = None -> startsWith (after y) s = false.
Proof.
  intros H. destruct (startsWith (after y) s) eqn:Es; [|reflexivity].
  apply startsWith_spec in Es as (rest & Es).
  assert (Ml : Matches ml (Lit s) y (read s rest y))
    by (apply Matches_lit; exists rest; split; [exact Es | reflexivity]).
  destruct (mt_complete (fun y => Some y) Ml eq_refl) as (z' & Hz'). congruence.
Qed.

Lemma lit_some ml s y z :
  mt ml (Lit s) (fun y => Some y) y = Some z -> startsWith (after y) s = true.
Proof.
  intros H. apply mt_sound in H as (y' & M & _).
  apply Matches_lit in M as (rest & E & _). rewrite E. apply startsWith_app.
Qed.

(** What one successful attempt of the file pattern has read. *)
Lemma pathRegex_reads x z :
  pathRegex x = Some z ->
  exists mid g q post,
    after x = (str "diff --git " ++ mid ++ B_SLASH ++ g ++ q) ++ LF :: post
    /\ at_bol true x = true
    /\ g <> [] /\ all_in not_newline g /\ quote_opt q
    /\ startsWith post deletedMark = false
    /\ after z = post
    /\ before z = LF :: rev (str "diff --git " ++ mid ++ B_SLASH ++ g ++ q) ++ before x
    /\ get_cap 2 (caps z) = Some g.
Proof.
  unfold pathRegex. intros H. apply mt_sound in H as (y & M & Hk).
  unfold not_followed_by in Hk.
  destruct (mt true (Lit deletedMark) (fun y => Some y) y) eqn:El; [discriminate|].
  inversion Hk; subst z; clear Hk.
  unfold pathHead in M; cbn [seqs] in M.
  apply Matches_seq_inv in M as (y1 & M1 & M). apply Matches_bol_inv in M1 as (-> & Hb).
  apply Matches_seq_inv in M as (y2 & M2 & M). apply Matches_lit in M2 as (r2 & E2 & ->).
  apply Matches_seq_inv in M as (y3 & M3 & M).
  apply Matches_span in M3 as (w3 & A3 & B3).
  apply Matches_seq_inv in M as (y4 & M4 & M).
  apply Matches_span in M4 as (w4 & A4 & B4).
  apply Matches_seq_inv in M as (y5 & M5 & M).
  apply Matches_span in M5 as (w5 & A5 & B5).
  apply Matches_seq_inv in M as (y6 & M6 & M).
  apply Matches_span in M6 as (w6 & A6 & B6).
  apply Matches_seq_inv in M as (y7 & M7 & M).
  apply Matches_span in M7 as (w7 & A7 & B7).
  apply Matches_seq_inv in M as (y8 & M8 & M).
  apply Matches_span in M8 as (w8 & A8 & B8).
  apply Matches_seq_inv in M as (y9 & M9 & M).
  apply Matches_lit in M9 as (r9 & E9 & ->).
  apply Matches_seq_inv in M as (y10 & M10 & M).
  apply Matches_grp_inv in M10 as (y0 & M10 & ->).
  apply Matches_plus_cset in M10 as (g & rg & Ng & Eg & Hg & ->).
  apply Matches_seq_inv in M as (y11 & M11 & M).
  apply Matches_opt_chr in M11.
  apply Matches_chr in M as (post & Ep & ->).
  apply lit_none in El. cbn [read after] in El.
  assert (Hq : exists q rq, quote_opt q /\ rg = q ++ rq
                 /\ y11 = read q rq (set_cap 2 (read (str "b/") r9 y8)
                                       (read g rg (read (str "b/") r9 y8)))).
  { destruct M11 as [-> | (rest & E & ->)].
    - exists [], rg. split; [left; reflexivity|]. split; [reflexivity|].
      unfold read, set_cap; simpl. reflexivity.
    - simpl in E. exists [DQ], rest. split; [right; reflexivity|].
      split; [exact E | reflexivity]. }
  destruct Hq as (q & rq & Hq & -> & ->).
  cbn [read set_cap before after caps] in *.
  assert (Erq : rq = LF :: post) by exact Ep. subst rq.
  exists (w3 ++ w4 ++ w5 ++ w6 ++ w7 ++ w8), g, q, post.
  assert (Hpost : startsWith post deletedMark = false).
  { exact El. }
  simpl in A3, A4, A5, A6, A7, A8, E9, Eg.
  split.
  { rewrite E2, A3, A4, A5, A6, A7, A8, E9, Eg. unfold B_SLASH. simpl.
    repeat (rewrite <- app_assoc; cbn [app]). reflexivity. }
  split; [exact Hb|]. split; [exact Ng|].
  split; [exact Hg|]. split; [exact Hq|]. split; [exact Hpost|].
  split; [reflexivity|].
  split.
  { rewrite B8, B7, B6, B5, B4, B3. unfold B_SLASH. simpl.
    repeat (rewrite rev_app_distr; cbn [rev app]).
    repeat (rewrite <- app_assoc; cbn [app]). reflexivity. }
  simpl. f_equal. apply consumed_app. simpl. reflexivity.
Qed.

Lemma quoteEnds_inner bef c aft :
  bef <> [] ->
  match_here false quoteEnds (MState bef (c :: aft) [])
  = if N.eqb c DQ && match aft with [] => true | _ => false end
    then Some (MState (c :: bef) aft []) else None.
Proof.
  intros Nb. unfold match_here, quoteEnds. cbn [mt at_bol before after Chr caps cmem existsb].
  destruct bef as [|b bef]; [congruence|]. cbn [andb].
  rewrite orb_false_r. destruct (N.eqb c DQ); [|reflexivity].
  unfold at_eol. cbn [after andb]. destruct aft; reflexivity.
Qed.

Lemma quoteEnds_end bef :
  match_here false quoteEnds (MState bef [] []) = None.
Proof.
  unfold match_here, quoteEnds. cbn [mt at_bol before after Chr caps].
  destruct bef; reflexivity.
Qed.

Lemma quoteEnds_drop : forall aft bef,
  bef <> [] ->
  replace_go false quoteEnds (fun _ => []) bef aft 0 = drop_last_quote aft.
Proof.
  induction aft as [|c aft IH]; intros bef Nb; cbn [replace_go].
  - rewrite quoteEnds_end. reflexivity.
  - rewrite quoteEnds_inner by exact Nb.
    destruct aft as [|d aft].
    + cbn [drop_last_quote]. destruct (N.eqb c DQ); cbn [andb].
      * cbn [before length app]. replace (S (length bef) - length bef) with 1 by lia.
        cbn [replace_go]. rewrite quoteEnds_end. reflexivity.
      * cbn [replace_go]. rewrite quoteEnds_end. reflexivity.
    + rewrite andb_false_r. rewrite IH by discriminate. reflexivity.
Qed.

Lemma quoteEnds_strip (g : jsstring) :
  replace_all false quoteEnds (fun _ => []) g = strip_quotes g.
Proof.
  unfold replace_all. destruct g as [|c g]; cbn [replace_go strip_quotes].
  - rewrite quoteEnds_end. reflexivity.
  - unfold match_here, quoteEnds.
    cbn [mt at_bol before after Chr caps cmem existsb].
    rewrite orb_false_r. destruct (N.eqb c DQ).
    + cbn [before length app Nat.sub]. rewrite quoteEnds_drop by discriminate.
      reflexivity.
    + unfold at_eol. cbn [after andb]. rewrite quoteEnds_drop by discriminate.
      reflexivity.
Qed.

Lemma exec_with_pathRegex d from m :
  exec_with pathRegex d from = Some m ->
  from <= index m /\ index m + length (matched m) <= length d
  /\ 0 < length (matched m)
  /\ touched_at d (firstn (index m) d) (group 2 m)
  /\ path_match d (firstn (index m) d) (group 2 m).
Proof.
  unfold exec_with. destruct (Nat.ltb (length d) from) eqn:L; [discriminate|].
  apply Nat.ltb_ge in L.
  destruct (search_with pathRegex (rev (firstn from d)) (skipn from d)) as [[x z]|] eqn:E;
    [|discriminate].
  simpl. intros H; inversion H; subst; clear H.
  apply search_with_sound in E as (pre & post & Ep & -> & Hm).
  pose proof Hm as Hm0.
  apply pathRegex_reads in Hm
    as (mid & g & q & post' & Ea & Hb & Ng & Hg & Hq & Hd & Ez & Bz & Cz).
  cbn [after before] in Ea, Bz.
  set (line := str "diff --git " ++ mid ++ B_SLASH ++ g ++ q) in *.
  assert (Ed : d = (firstn from d ++ pre) ++ line ++ LF :: post').
  { rewrite <- (firstn_skipn from d) at 1. rewrite Ep, Ea, <- !app_assoc. reflexivity. }
  assert (Ei : length (rev pre ++ rev (firstn from d)) = from + length pre).
  { rewrite length_app, !length_rev, length_firstn. lia. }
  assert (Ef : firstn (from + length pre) d = firstn from d ++ pre).
  { rewrite Ed at 1. rewrite firstn_app.
    replace (from + length pre - length (firstn from d ++ pre)) with 0
      by (rewrite length_app, length_firstn; lia).
    rewrite firstn_all2 by (rewrite length_app, length_firstn; lia).
    simpl. apply app_nil_r. }
  assert (Em : consumed (MState (rev pre ++ rev (firstn from d)) post []) z
               = line ++ [LF]).
  { apply consumed_length. cbn [before]. rewrite Bz, rev_app_distr. reflexivity. }
  unfold result_of, group. cbn [index matched groups fst snd before].
  rewrite Ei, Em, Cz, Ef.
  assert (Ld : length d = from + length pre + length (line ++ [LF]) + length post').
  { rewrite Ed at 1. rewrite !length_app, length_firstn. simpl. lia. }
  split; [lia|]. split; [lia|]. split; [rewrite length_app; simpl; lia|].
  split.
  - exists mid, q, post'. split; [exact Ed|]. split.
    + unfold at_bol in Hb. cbn [before] in Hb. rewrite <- rev_app_distr in Hb.
      apply (@at_bol_line (firstn from d ++ pre) post []). exact Hb.
    + auto.
  - exists post, z. split; [|split; [|exact Cz]].
    + rewrite <- (firstn_skipn from d) at 1. rewrite Ep, app_assoc. reflexivity.
    + rewrite rev_app_distr. exact Hm0.
Qed.

(** The file loop finishes within its bound, and what it adds to [files]
    comes from accepted header lines. *)
Lemma collect_files_total d : forall fuel from files,
  from <= length d -> length d - from < fuel ->
  exists added, collect_files fuel d from files = Some (files ++ added)
    /\ forall p, In p added ->
         endsWith p (str ".json") = true /\ ignored p = false
         /\ exists pre g, touched_at d pre g /\ path_match d pre g
                          /\ p = strip_quotes g.
Proof.
  induction fuel as [|f IH]; intros from files L F; [lia|].
  cbn [collect_files]. destruct (exec_with pathRegex d from) as [m|] eqn:E.
  - apply exec_with_pathRegex in E as (B1 & B2 & B3 & T & T').
    rewrite quoteEnds_strip, ignoredRegex_test.
    destruct (ignored (strip_quotes (group 2 m))) eqn:Ig.
    + apply IH; lia.
    + destruct (endsWith (strip_quotes (group 2 m)) (str ".json")) eqn:Ej.
      * destruct (IH (index m + length (matched m))
                    (files ++ [strip_quotes (group 2 m)])) as (added & Ht & Ha); [lia|lia|].
        exists (strip_quotes (group 2 m) :: added). rewrite Ht, <- app_assoc.
        split; [reflexivity|]. intros p [<- | Hin]; [|apply Ha; exact Hin].
        split; [exact Ej|]. split; [exact Ig|]. eauto.
      * apply IH; lia.
  - exists []. rewrite app_nil_r. split; [reflexivity | contradiction].
Qed.

(** ** Sections and blocks *)

Lemma mt_lit ml s k : forall bef aft cps,
  mt ml (Lit s) k (MState bef aft cps)
  = if startsWith aft s
    then k (MState (rev s ++ bef) (skipn (length s) aft) cps)
    else None.
Proof.
  induction s as [|c s IH]; intros bef aft cps; [reflexivity|].
  cbn [Lit]. rewrite mt_seq. unfold Chr. destruct aft as [|d rest].
  - reflexivity.
  - rewrite mt_cset_cons. cbn [cmem existsb startsWith]. rewrite orb_false_r.
    rewrite (N.eqb_sym c d). destruct (N.eqb d c) eqn:E; [|reflexivity].
    apply N.eqb_eq in E. subst d. rewrite IH. cbn [andb length skipn].
    rewrite rev_cons_app. reflexivity.
Qed.

Lemma section_here bef aft :
  match_here true sectionStart (MState bef aft [])
  = if line_start bef && startsWith aft DIFF_GIT
    then Some (MState (rev DIFF_GIT ++ bef) (skipn 10 aft) [])
    else None.
Proof.
  unfold match_here, sectionStart. rewrite mt_seq. cbn [mt].
  unfold at_bol. cbn [before andb]. fold (line_start bef).
  destruct (line_start bef); [|reflexivity].
  rewrite mt_lit. reflexivity.
Qed.

Lemma split_go_section bef c aft piece :
  split_go true sectionStart bef (c :: aft) piece 0
  = if line_start bef && startsWith (c :: aft) DIFF_GIT
    then rev piece :: split_go true sectionStart (c :: bef) aft [] 9
    else split_go true sectionStart (c :: bef) aft (c :: piece) 0.
Proof.
  cbn [split_go]. rewrite section_here.
  destruct (line_start bef && startsWith (c :: aft) DIFF_GIT); [|reflexivity].
  cbn [before]. rewrite length_app.
  replace (length (rev DIFF_GIT) + length bef - length bef) with 10
    by (change (length (rev DIFF_GIT)) with 10; lia).
  reflexivity.
Qed.

Lemma split_go_line_start : forall s bef1 bef2 piece skip,
  line_start bef1 = line_start bef2 ->
  split_go true sectionStart bef1 s piece skip
  = split_go true sectionStart bef2 s piece skip.
Proof.
  induction s as [|c s IH]; intros bef1 bef2 piece skip H; [reflexivity|].
  destruct skip as [|n].
  - rewrite !split_go_section, H.
    destruct (line_start bef2 && startsWith (c :: s) DIFF_GIT).
    + f_equal. apply IH. reflexivity.
    + apply IH. reflexivity.
  - cbn [split_go]. apply IH. reflexivity.
Qed.

Lemma startsWith_app_cases : forall p a b,
  startsWith (a ++ b) p = true ->
  startsWith a p = true \/ exists p2, p = a ++ p2.
Proof.
  induction p as [|c p IH]; intros a b H; [left; reflexivity|].
  destruct a as [|d a].
  - right. exists (c :: p). reflexivity.
  - simpl in H. apply andb_true_iff in H as (Hc & H).
    apply N.eqb_eq in Hc. subst d.
    destruct (IH _ _ H) as [H1 | (p2 & ->)].
    + left. simpl. rewrite N.eqb_refl. exact H1.
    + right. exists p2. reflexivity.
Qed.

Lemma startsWith_app_l : forall p a b,
  startsWith a p = true -> startsWith (a ++ b) p = true.
Proof.
  induction p as [|c p IH]; intros a b H; [reflexivity|].
  destruct a as [|d a]; [discriminate|]. simpl in H |- *.
  apply andb_true_iff in H as (Hc & H). rewrite Hc. apply IH. exact H.
Qed.

Lemma line_start_rev_nonempty a bef :
  a <> [] -> line_start (rev a ++ bef) = true ->
  exists a' c, a = a' ++ [c] /\ is_newline c = true.
Proof.
  intros N H. destruct (rev a) as [|c r] eqn:E.
  - apply (f_equal (@rev _)) in E. rewrite rev_involutive in E. contradiction.
  - exists (rev r), c. simpl in H. split; [|exact H].
    apply (f_equal (@rev _)) in E. rewrite rev_involutive in E. exact E.
Qed.

(** A section start inside a part that ends a line lies inside the part. *)
Lemma section_start_inside a b bef :
  a <> [] -> line_start (rev a ++ bef) = true ->
  startsWith (a ++ b) DIFF_GIT = startsWith a DIFF_GIT.
Proof.
  intros N H. destruct (startsWith a DIFF_GIT) eqn:E.
  - apply startsWith_app_l. exact E.
  - destruct (startsWith (a ++ b) DIFF_GIT) eqn:E'; [|reflexivity]. exfalso.
    apply startsWith_app_cases in E' as [E' | (p2 & E')]; [congruence|].
    destruct (line_start_rev_nonempty _ N H) as (a' & c & -> & Hc).
    assert (Hin : In c DIFF_GIT) by (rewrite E'; apply in_or_app; left;
                                     apply in_or_app; right; left; reflexivity).
    vm_compute in Hin.
    repeat (destruct Hin as [<- | Hin]; [vm_compute in Hc; discriminate|]).
    contradiction.
Qed.

Lemma filter_nonempty_cons_nil (l : list jsstring) :
  filter nonempty ([] :: l) = filter nonempty l.
Proof. reflexivity. Qed.

Lemma firstn_tail_DIFF_GIT c a :
  startsWith (c :: a) DIFF_GIT = true ->
  9 <= length a /\ all_in not_newline (firstn 9 a).
Proof.
  intros H. apply startsWith_spec in H as (rest & E).
  change DIFF_GIT with ([100%N] ++ str "iff --git") in E. simpl in E.
  inversion E; subst. simpl. split; [lia|]. repeat constructor.
Qed.

Lemma split_sections_app b :
  startsWith b DIFF_GIT = true ->
  forall a bef piece skip,
    line_start (rev a ++ bef) = true ->
    skip <= length a -> all_in not_newline (firstn skip a) ->
    filter nonempty (split_go true sectionStart bef (a ++ b) piece skip)
    = filter nonempty (split_go true sectionStart bef a piece skip)
      ++ filter nonempty (split_go true sectionStart (rev a ++ bef) b [] 0).
Proof.
  intros Hb. induction a as [|c a IH]; intros bef piece skip Hl Hs Hn.
  - destruct skip; [|simpl in Hs; lia]. cbn [app rev] in *.
    destruct b as [|d b]; [discriminate|].
    rewrite !split_go_section, Hl, Hb. cbn [andb split_go rev filter].
    destruct (nonempty (rev piece)); reflexivity.
  - cbn [app]. destruct skip as [|n].
    + rewrite !split_go_section.
      change (c :: a ++ b) with ((c :: a) ++ b).
      rewrite (@section_start_inside (c :: a) b bef) by (discriminate || exact Hl).
      destruct (line_start bef && startsWith (c :: a) DIFF_GIT) eqn:E.
      * apply andb_true_iff in E as (_ & E).
        apply firstn_tail_DIFF_GIT in E as (L9 & N9).
        cbn [filter]. rewrite (IH (c :: bef) [] 9).
        -- rewrite <- rev_cons_app.
           destruct (nonempty (rev piece)); reflexivity.
        -- rewrite <- rev_cons_app. exact Hl.
        -- exact L9.
        -- exact N9.
      * rewrite (IH (c :: bef) (c :: piece) 0).
        -- rewrite <- rev_cons_app. reflexivity.
        -- rewrite <- rev_cons_app. exact Hl.
        -- lia.
        -- constructor.
    + cbn [split_go]. cbn [firstn] in Hn. inversion Hn; subst.
      rewrite (IH (c :: bef) piece n).
      * rewrite <- rev_cons_app. reflexivity.
      * rewrite <- rev_cons_app. exact Hl.
      * simpl in Hs. lia.
      * assumption.
Qed.

Lemma sections_nil : sections [] = [].
Proof. reflexivity. Qed.

Lemma sections_go s : sections s = filter nonempty (split_go true sectionStart [] s [] 0).
Proof. destruct s; reflexivity. Qed.

(** The sections of a text that is cut where a section starts. *)
Lemma sections_app a b :
  line_start (rev a) = true -> startsWith b DIFF_GIT = true ->
  sections (a ++ b) = sections a ++ sections b.
Proof.
  intros Ha Hb. rewrite !sections_go.
  rewrite (@split_sections_app b Hb a [] [] 0).
  - f_equal. f_equal. apply split_go_line_start. rewrite app_nil_r. exact Ha.
  - rewrite app_nil_r. exact Ha.
  - lia.
  - constructor.
Qed.

Lemma sections_concat : forall l p,
  Forall (fun s => startsWith s DIFF_GIT = true) l -> closed_blocks l ->
  (l <> [] -> line_start (rev p) = true) ->
  sections (p ++ concat l) = sections p ++ flat_map sections l.
Proof.
  induction l as [|s l IH]; intros p Hs Hc Hp.
  - simpl. rewrite !app_nil_r. reflexivity.
  - inversion Hs as [|s' l' Hs1 Hs2]; subst. destruct Hc as (Hc1 & Hc2).
    cbn [concat flat_map]. rewrite sections_app.
    + rewrite IH by assumption. reflexivity.
    + apply Hp. discriminate.
    + apply startsWith_app_l. exact Hs1.
Qed.

Lemma closed_blocks_filter (f : header * jsstring -> bool) : forall sp,
  closed_blocks (map snd sp) -> closed_blocks (map snd (filter f sp)).
Proof.
  induction sp as [|x sp IH]; intros H; [exact I|].
  destruct H as (H1 & H2). cbn [filter]. destruct (f x).
  - cbn [map closed_blocks]. split; [|apply IH; exact H2].
    intros N. apply H1. destruct sp; [contradiction | discriminate].
  - apply IH; exact H2.
Qed.

Lemma headers_ok d h : In h (headers d) -> header_ok d h.
Proof.
  intros Hin. destruct (headers_spec d) as (Hc & _).
  destruct (@collect_headers_In d h _ _ _ Hc Hin) as (from & m & E & Ei & _).
  pose proof (header_exec_bounds _ _ E) as (_ & B & B').
  apply exec_from_bounds in E as (_ & _ & z & M & _).
  unfold header_ok. rewrite Ei. split; [lia|].
  unfold headerRegex in M; cbn [seqs] in M.
  apply Matches_seq_inv in M as (y1 & M1 & M). apply Matches_bol_inv in M1 as (-> & Hb).
  apply Matches_seq_inv in M as (y2 & M2 & _).
  apply Matches_lit in M2 as (r & E2 & _). simpl in E2.
  split; [exact Hb|]. rewrite E2. reflexivity.
Qed.

Lemma line_start_rev_app a s :
  s <> [] -> line_start (rev (a ++ s)) = line_start (rev s).
Proof.
  intros N. rewrite rev_app_distr. destruct (rev s) eqn:E; [|reflexivity].
  apply (f_equal (@rev _)) in E. rewrite rev_involutive in E. contradiction.
Qed.

Lemma firstn_add {A} (l : list A) a k :
  firstn (a + k) l = firstn a l ++ firstn k (skipn a l).
Proof.
  revert l; induction a as [|a IH]; intros l; [reflexivity|].
  destruct l as [|x l]; simpl.
  - rewrite firstn_nil. reflexivity.
  - rewrite IH. reflexivity.
Qed.

(** The text between two headers starts with the words of a header and
    ends a line. *)
Lemma span_between d i j :
  i < j -> j <= length d ->
  startsWith (skipn i d) (str "diff --git ") = true ->
  line_start (rev (firstn j d)) = true ->
  startsWith (slice d i j) DIFF_GIT = true /\ line_start (rev (slice d i j)) = true.
Proof.
  intros Lij Lj Hs Hl. unfold slice.
  apply startsWith_spec in Hs as (r & Es).
  assert (Hl' : line_start (rev (firstn (j - i) (skipn i d))) = true).
  { replace j with (i + (j - i)) in Hl by lia. rewrite firstn_add in Hl.
    rewrite line_start_rev_app in Hl; [exact Hl|].
    rewrite Es. destruct (j - i) eqn:Ek; [lia | discriminate]. }
  split; [|exact Hl'].
  rewrite Es in Hl' |- *.
  destruct (j - i) as [|[|[|[|[|[|[|[|[|[|[|[|k]]]]]]]]]]]] eqn:Ek;
    try (vm_compute in Hl'; discriminate); [lia | reflexivity].
Qed.

Lemma spans_blocks d : forall hs from,
  increasing d from hs -> Forall (header_ok d) hs ->
  Forall (fun s => startsWith s DIFF_GIT = true) (map snd (spans d hs))
  /\ closed_blocks (map snd (spans d hs)).
Proof.
  induction hs as [|h rest IH]; intros from Hi Hk; [split; [constructor | exact I]|].
  destruct Hi as (H1 & H2 & H3). inversion Hk as [|h' rest' Hh Hrest]; subst.
  destruct (IH _ H3 Hrest) as (IH1 & IH2).
  destruct Hh as (Lh & Bh & Sh).
  cbn [spans map snd]. destruct rest as [|h2 rest2].
  - split; [|split; [intros N; exfalso; apply N; reflexivity | exact I]].
    constructor; [|constructor].
    unfold slice. rewrite firstn_all2 by (rewrite length_skipn; lia).
    apply startsWith_spec in Sh as (r & ->). reflexivity.
  - inversion Hrest as [|h2' rest2' (L2 & B2 & S2) _]; subst.
    destruct H3 as (H4 & _).
    destruct (@span_between d (h_index h) (h_index h2)) as (Q1 & Q2);
      [lia | lia | exact Sh | exact B2 |].
    split; [constructor; assumption|].
    split; [intros _; exact Q2 | exact IH2].
Qed.

Lemma parse_sections d ref :
  parseTranslationChangesFromDiff d ref
  = flat_map (section_changes ref) (sections d).
Proof.
  unfold parseTranslationChangesFromDiff. rewrite fold_scanSection. reflexivity.
Qed.

Lemma flat_map_flat_map {A B C} (f : B -> list C) (g : A -> list B) l :
  flat_map f (flat_map g l) = flat_map (fun x => flat_map f (g x)) l.
Proof.
  induction l as [|x l IH]; simpl; [reflexivity|].
  rewrite flat_map_app, IH. reflexivity.
Qed.

(** The records of a text made of a first part and blocks. *)
Lemma parse_blocks ref : forall (sp : list (header * jsstring)) p,
  Forall (fun s => startsWith s DIFF_GIT = true) (map snd sp) ->
  closed_blocks (map snd sp) ->
  (sp <> [] -> line_start (rev p) = true) ->
  parseTranslationChangesFromDiff (p ++ concat (map snd sp)) ref
  = parseTranslationChangesFromDiff p ref
    ++ flat_map (fun x => parseTranslationChangesFromDiff (snd x) ref) sp.
Proof.
  intros sp p Hs Hc Hp. rewrite !parse_sections, sections_concat.
  - rewrite flat_map_app. f_equal. clear.
    induction sp as [|x sp IH]; [reflexivity|].
    cbn [map flat_map]. rewrite flat_map_app, IH, parse_sections. reflexivity.
  - exact Hs.
  - exact Hc.
  - intros N. apply Hp. intros ->. apply N. reflexivity.
Qed.

Lemma Forall_filter_snd (P : jsstring -> Prop) (f : header * jsstring -> bool) :
  forall sp, Forall P (map snd sp) -> Forall P (map snd (filter f sp)).
Proof.
  induction sp as [|x sp IH]; intros H; [constructor|].
  inversion H; subst. cbn [filter]. destruct (f x).
  - constructor; [assumption | apply IH; assumption].
  - apply IH; assumption.
Qed.

(** ** Locating an issue *)

Lemma find_path fcs p f :
  find (fun file => jseqb (path file) p) fcs = Some f ->
  In f fcs /\ path f = p.
Proof.
  intros H. apply find_some in H as (Hin & E). split; [exact Hin|].
  apply jseqb_eq. exact E.
Qed.

Lemma find_first fcs p pre f post :
  fcs = pre ++ f :: post -> path f = p ->
  (forall g, In g pre -> path g <> p) ->
  find (fun file => jseqb (path file) p) fcs = Some f.
Proof.
  intros -> Ep. induction pre as [|g pre IH]; intros H; simpl.
  - rewrite Ep, jseqb_refl. reflexivity.
  - assert (Ng : path g <> p) by (apply H; left; reflexivity).
    apply jseqb_neq in Ng. rewrite Ng. apply IH.
    intros g' Hin. apply H. right; exact Hin.
Qed.

Lemma find_no_path fcs p :
  (forall f, In f fcs -> path f <> p) ->
  find (fun file => jseqb (path file) p) fcs = None.
Proof.
  induction fcs as [|g fcs IH]; intros H; simpl; [reflexivity|].
  assert (Ng : path g <> p) by (apply H; left; reflexivity).
  apply jseqb_neq in Ng. rewrite Ng. apply IH.
  intros g' Hin. apply H. right; exact Hin.
Qed.

(** ** Matching inside one line *)

Lemma line_cset_spec s c :
  line_cset s = true -> cmem s c = true -> is_newline c = false.
Proof.
  destruct s as [cs|lo hi| | | | |s1|s1 s2]; try discriminate; simpl.
  - intros H Hc. apply existsb_exists in Hc as (d & Hin & Hd).
    apply N.eqb_eq in Hd. subst d.
    pose proof (proj1 (forallb_forall _ _) H c Hin) as Hn.
    unfold not_newline in Hn. apply negb_true_iff in Hn. exact Hn.
  - destruct s1; try discriminate. simpl. intros _ H.
    apply negb_true_iff in H. exact H.
Qed.

Section Locality.
Variable Q : mstate -> mstate -> Prop.
Variables B B' r r' : jsstring.
Hypothesis HB : line_start B = line_start B'.
Hypothesis Hr : line_end r = true.
Hypothesis Hr' : line_end r' = true.

Lemma same_bol x x' : same_line B B' r r' x x' -> at_bol true x = at_bol true x'.
Proof.
  intros (w & l & E1 & E2 & _). unfold at_bol. rewrite E1, E2.
  destruct (rev w) as [|c t]; simpl; [exact HB | reflexivity].
Qed.

Lemma same_eol x x' : same_line B B' r r' x x' -> at_eol true x = at_eol true x'.
Proof.
  intros (w & l & _ & _ & E1 & E2 & _). unfold at_eol. rewrite E1, E2.
  destruct l as [|c t]; simpl; [|reflexivity].
  fold (line_end r). fold (line_end r'). rewrite Hr, Hr'. reflexivity.
Qed.

Lemma same_lengths x x' :
  same_line B B' r r' x x' ->
  exists n m, length (after x) = n + length r /\ length (after x') = n + length r'
    /\ length (before x) = m + length B /\ length (before x') = m + length B'
    /\ firstn m (before x) = firstn m (before x').
Proof.
  intros (w & l & E1 & E2 & E3 & E4 & _).
  exists (length l), (length w). rewrite E1, E2, E3, E4, !length_app, !length_rev.
  repeat split.
  rewrite <- (length_rev w), !firstn_app, Nat.sub_diag, !firstn_all. reflexivity.
Qed.

Lemma same_ltb x x' y y' :
  same_line B B' r r' x x' -> same_line B B' r r' y y' ->
  Nat.ltb (length (after y)) (length (after x))
  = Nat.ltb (length (after y')) (length (after x')).
Proof.
  intros Hx Hy.
  destruct (same_lengths Hx) as (n & m & E1 & E2 & _).
  destruct (same_lengths Hy) as (n' & m' & E1' & E2' & _).
  rewrite E1, E2, E1', E2'.
  destruct (Nat.ltb (n' + length r) (n + length r)) eqn:L.
  - apply Nat.ltb_lt in L. symmetry. apply Nat.ltb_lt. lia.
  - apply Nat.ltb_ge in L. symmetry. apply Nat.ltb_ge. lia.
Qed.

Lemma firstn_firstn_le {A} (l l' : list A) m k :
  k <= m -> firstn m l = firstn m l' -> firstn k l = firstn k l'.
Proof.
  intros L E. rewrite <- (Nat.min_l k m L), <- !firstn_firstn, E. reflexivity.
Qed.

Lemma same_consumed x x' y y' :
  same_line B B' r r' x x' -> same_line B B' r r' y y' -> consumed x y = consumed x' y'.
Proof.
  intros Hx Hy.
  destruct (same_lengths Hx) as (n & m & _ & _ & E1 & E2 & _).
  destruct (same_lengths Hy) as (n' & m' & _ & _ & E1' & E2' & Ef).
  unfold consumed. rewrite E1, E2, E1', E2'.
  replace (m' + length B - (m + length B)) with (m' - m) by lia.
  replace (m' + length B' - (m + length B')) with (m' - m) by lia.
  f_equal. apply firstn_firstn_le with (m := m'); [lia | exact Ef].
Qed.

Lemma same_set_cap n x x' y y' :
  same_line B B' r r' x x' -> same_line B B' r r' y y' -> same_line B B' r r' (set_cap n x y) (set_cap n x' y').
Proof.
  intros Hx Hy. pose proof (same_consumed Hx Hy) as Ec.
  destruct Hy as (w & l & E1 & E2 & E3 & E4 & E5 & El).
  exists w, l. unfold set_cap. cbn [before after caps].
  rewrite Ec, E5. repeat split; assumption.
Qed.

Lemma same_cset s k k' x x' :
  line_cset s = true -> krel Q B B' r r' k k' -> same_line B B' r r' x x' ->
  orel Q (mt true (Cset s) k x) (mt true (Cset s) k' x').
Proof.
  intros Hs Hk (w & l & E1 & E2 & E3 & E4 & E5 & El). cbn [mt]. rewrite E3, E4.
  destruct l as [|c l]; cbn [app].
  - assert (N : forall t, line_end t = true ->
                  match t with
                  | c :: rest => if cmem s c then Some c else None
                  | [] => None
                  end = None).
    { intros [|c t] Ht; [reflexivity|]. simpl in Ht.
      destruct (cmem s c) eqn:Ec; [|reflexivity].
      rewrite (line_cset_spec _ _ Hs Ec) in Ht. discriminate. }
    pose proof (N r Hr) as N1. pose proof (N r' Hr') as N2.
    destruct r as [|c t]; destruct r' as [|c' t']; simpl; auto.
    + destruct (cmem s c'); [discriminate | exact I].
    + destruct (cmem s c); [discriminate | exact I].
    + destruct (cmem s c); [discriminate|]. destruct (cmem s c'); [discriminate | exact I].
  - destruct (cmem s c); [|exact I]. apply Hk.
    exists (w ++ [c]), l. cbn [before after caps].
    rewrite E1, E2, rev_app_distr. simpl. inversion El; subst.
    repeat split; assumption.
Qed.

Lemma repeat_local body body' g :
  (forall k k', krel Q B B' r r' k k' -> forall x x', same_line B B' r r' x x' ->
     orel Q (body k x) (body' k' x')) ->
  (forall k x z, body k x = Some z -> exists y, k y = Some z) ->
  (forall k x z, body' k x = Some z -> exists y, k y = Some z) ->
  forall fuel fuel' k k' x x',
    krel Q B B' r r' k k' -> same_line B B' r r' x x' ->
    length (after x) <= fuel -> length (after x') <= fuel' ->
    orel Q (repeat_m body g fuel k x) (repeat_m body' g fuel' k' x').
Proof.
  intros Hb Hs Hs'. induction fuel as [|f IH]; intros fuel' k k' x x' Hk Hx L L'.
  - destruct fuel' as [|f']; cbn [repeat_m]; [apply Hk; exact Hx|].
    assert (E : body' (fun y => if Nat.ltb (length (after y)) (length (after x'))
                                then repeat_m body' g f' k' y else None) x' = None).
    { pose proof (Hb (fun _ => None)
                     (fun y => if Nat.ltb (length (after y)) (length (after x'))
                               then repeat_m body' g f' k' y else None)) as H.
      assert (Hk0 : krel Q B B' r r' (fun _ => None)
                 (fun y => if Nat.ltb (length (after y)) (length (after x'))
                           then repeat_m body' g f' k' y else None)).
      { intros y y' Hy. rewrite <- (same_ltb Hx Hy).
        replace (Nat.ltb (length (after y)) (length (after x))) with false; [exact I|].
        symmetry. apply Nat.ltb_ge. lia. }
      specialize (H Hk0 x x' Hx).
      destruct (body (fun _ => None) x) eqn:E0.
      - apply Hs in E0 as (y & Hy). discriminate.
      - destruct (body' _ x'); [contradiction | reflexivity]. }
    rewrite E. pose proof (Hk x x' Hx) as H.
    destruct g.
    + exact H.
    + destruct (k x), (k' x'); simpl in H |- *; auto.
  - destruct fuel' as [|f']; cbn [repeat_m].
    + assert (E : body (fun y => if Nat.ltb (length (after y)) (length (after x))
                                 then repeat_m body g f k y else None) x = None).
      { pose proof (Hb (fun y => if Nat.ltb (length (after y)) (length (after x))
                                 then repeat_m body g f k y else None)
                       (fun _ => None)) as H.
        assert (Hk0 : krel Q B B' r r' (fun y => if Nat.ltb (length (after y)) (length (after x))
                                     then repeat_m body g f k y else None)
                           (fun _ => None)).
        { intros y y' Hy. rewrite (same_ltb Hx Hy).
          replace (Nat.ltb (length (after y')) (length (after x'))) with false; [exact I|].
          symmetry. apply Nat.ltb_ge. lia. }
        specialize (H Hk0 x x' Hx).
        destruct (body' (fun _ => None) x') eqn:E0.
        - apply Hs' in E0 as (y & Hy). discriminate.
        - destruct (body _ x); [contradiction | reflexivity]. }
      rewrite E. pose proof (Hk x x' Hx) as H.
      destruct g.
      * exact H.
      * destruct (k x), (k' x'); simpl in H |- *; auto.
    + assert (Ha : krel Q B B' r r' (fun y => if Nat.ltb (length (after y)) (length (after x))
                                  then repeat_m body g f k y else None)
                        (fun y => if Nat.ltb (length (after y)) (length (after x'))
                                  then repeat_m body' g f' k' y else None)).
      { intros y y' Hy. rewrite <- (same_ltb Hx Hy).
        destruct (Nat.ltb (length (after y)) (length (after x))) eqn:E; [|exact I].
        pose proof E as E'. rewrite (same_ltb Hx Hy) in E'.
        apply Nat.ltb_lt in E, E'. apply IH; auto; lia. }
      pose proof (Hb _ _ Ha x x' Hx) as H1. pose proof (Hk x x' Hx) as H2.
      destruct g.
      * destruct (body _ x), (body' _ x'); simpl in H1 |- *; auto; contradiction.
      * destruct (k x), (k' x'); simpl in H2 |- *; auto; contradiction.
Qed.

Lemma mt_result ml r0 k x z :
  mt ml r0 k x = Some z -> exists y, k y = Some z.
Proof. intros H. apply mt_sound in H as (y & _ & Hy). eauto. Qed.

Lemma mt_local r0 :
  line_regex r0 = true ->
  forall k k' x x', krel Q B B' r r' k k' -> same_line B B' r r' x x' ->
    orel Q (mt true r0 k x) (mt true r0 k' x').
Proof.
  induction r0 as [|s|r1 IH1 r2 IH2|r1 IH1 r2 IH2|g r1 IH|n r1 IH| | |neg];
    intros Hl k k' x x' Hk Hx; cbn [line_regex] in Hl.
  - apply Hk; exact Hx.
  - apply same_cset; assumption.
  - apply andb_true_iff in Hl as (Hl1 & Hl2). cbn [mt].
    apply IH1; [exact Hl1| |exact Hx].
    intros y y' Hy. apply IH2; assumption.
  - apply andb_true_iff in Hl as (Hl1 & Hl2). cbn [mt].
    pose proof (IH1 Hl1 k k' x x' Hk Hx) as H1.
    destruct (mt true r1 k x), (mt true r1 k' x'); simpl in H1 |- *;
      try contradiction; [exact H1 | apply IH2; assumption].
  - cbn [mt]. apply repeat_local; auto.
    + intros k0 x0 z. apply mt_result.
    + intros k0 x0 z. apply mt_result.
  - cbn [mt]. apply IH; [exact Hl| |exact Hx].
    intros y y' Hy. apply Hk. apply same_set_cap; assumption.
  - cbn [mt]. rewrite <- (same_bol Hx). destruct (at_bol true x); [|exact I].
    apply Hk; exact Hx.
  - cbn [mt]. rewrite <- (same_eol Hx). destruct (at_eol true x); [|exact I].
    apply Hk; exact Hx.
  - discriminate.
Qed.
End Locality.

(** ** Headers position by position *)

Lemma header_line_regex : line_regex headerRegex = true.
Proof. reflexivity. Qed.

(** A reading of such a regular expression stays inside the line. *)
Lemma Matches_line ml r0 x y :
  line_regex r0 = true -> Matches ml r0 x y ->
  exists w, after x = w ++ after y /\ before y = rev w ++ before x
            /\ all_in not_newline w.
Proof.
  intros Hl M. induction M; cbn [line_regex] in Hl.
  - exists []. repeat split. constructor.
  - exists [c]. simpl. repeat split; auto. constructor; [|constructor].
    unfold not_newline. rewrite (line_cset_spec _ _ Hl H0). reflexivity.
  - apply andb_true_iff in Hl as (Hl1 & Hl2).
    destruct (IHM1 Hl1) as (w1 & A1 & B1 & N1), (IHM2 Hl2) as (w2 & A2 & B2 & N2).
    exists (w1 ++ w2). rewrite A1, A2, B2, B1, rev_app_distr, !app_assoc.
    repeat split. apply all_in_app; auto.
  - apply andb_true_iff in Hl as (Hl1 & Hl2). auto.
  - apply andb_true_iff in Hl as (Hl1 & Hl2). auto.
  - exists []. repeat split. constructor.
  - destruct (IHM1 Hl) as (w1 & A1 & B1 & N1), (IHM2 Hl) as (w2 & A2 & B2 & N2).
    exists (w1 ++ w2). rewrite A1, A2, B2, B1, rev_app_distr, !app_assoc.
    repeat split. apply all_in_app; auto.
  - destruct (IHM Hl) as (w & A & B & N). exists w. simpl. auto.
  - exists []. repeat split. constructor.
  - exists []. repeat split. constructor.
  - discriminate.
Qed.

Lemma header_none_at_end bef : match_here true headerRegex (MState bef [] []) = None.
Proof.
  destruct (match_here true headerRegex (MState bef [] [])) as [z|] eqn:E; [|reflexivity].
  unfold match_here in E. apply mt_sound in E as (y & M & _).
  apply header_reads_some in M. simpl in M. lia.
Qed.

Lemma header_needs_line_start bef aft :
  line_start bef = false -> match_here true headerRegex (MState bef aft []) = None.
Proof.
  intros H. unfold match_here, headerRegex. cbn [seqs]. rewrite mt_seq. cbn [mt].
  unfold at_bol. cbn [before]. destruct bef as [|c bef]; [discriminate|].
  simpl in H. rewrite H. reflexivity.
Qed.

Lemma span_line s :
  exists l r0, s = l ++ r0 /\ all_in not_newline l /\ line_end r0 = true.
Proof.
  destruct (span_spec not_newline s) as (E & Hl & Hr).
  exists (fst (span not_newline s)), (snd (span not_newline s)).
  split; [exact E|]. split; [exact Hl|].
  destruct (snd (span not_newline s)) as [|c t]; [reflexivity|]. simpl.
  unfold not_newline in Hr. apply negb_false_iff in Hr. exact Hr.
Qed.

Lemma krel_some B B' r0 r0' :
  krel (same_line B B' r0 r0') B B' r0 r0' (fun y => Some y) (fun y => Some y).
Proof. intros y y' H. exact H. Qed.

Lemma header_here_rel B B' l r0 r0' :
  line_start B = line_start B' -> line_end r0 = true -> line_end r0' = true ->
  all_in not_newline l ->
  match match_here true headerRegex (MState B (l ++ r0) []),
        match_here true headerRegex (MState B' (l ++ r0') []) with
  | Some z, Some z' => caps z = caps z'
  | None, None => True
  | _, _ => False
  end.
Proof.
  intros HB Hr Hr' Hl.
  assert (Hx : same_line B B' r0 r0' (MState B (l ++ r0) []) (MState B' (l ++ r0') [])).
  { exists [], l. simpl. repeat split; assumption. }
  pose proof (@mt_local (same_line B B' r0 r0') B B' r0 r0' HB Hr Hr'
                headerRegex header_line_regex
                _ _ _ _ (@krel_some B B' r0 r0') Hx) as H.
  unfold match_here.
  destruct (mt true headerRegex _ (MState B (l ++ r0) [])),
           (mt true headerRegex _ (MState B' (l ++ r0') [])); simpl in H; auto.
  destruct H as (w & l' & _ & _ & _ & _ & E & _). exact E.
Qed.

Lemma header_here_eq i x x' :
  match match_here true headerRegex x, match_here true headerRegex x' with
  | Some z, Some z' => caps z = caps z'
  | None, None => True
  | _, _ => False
  end ->
  match match_here true headerRegex x with Some z => [header_of i z] | None => [] end
  = match match_here true headerRegex x' with Some z => [header_of i z] | None => [] end.
Proof.
  destruct (match_here true headerRegex x), (match_here true headerRegex x');
    try contradiction; [|reflexivity].
  intros E. unfold header_of. rewrite E. reflexivity.
Qed.

(** The headers found in a text do not depend on what comes before it,
    as long as the text starts a line in both cases or in neither. *)
Lemma scan_context : forall s i bef1 bef2,
  line_start bef1 = line_start bef2 ->
  scan_headers i bef1 s = scan_headers i bef2 s.
Proof.
  induction s as [|c s IH]; intros i bef1 bef2 H; cbn [scan_headers].
  - rewrite !header_none_at_end. reflexivity.
  - f_equal.
    + destruct (span_line (c :: s)) as (l & r0 & E & Hl & Hr). rewrite E.
      apply header_here_eq. apply header_here_rel; assumption.
    + apply IH. reflexivity.
Qed.

Lemma scan_nil i bef : scan_headers i bef [] = [].
Proof. cbn [scan_headers]. rewrite header_none_at_end. reflexivity. Qed.

(** A part that ends a line has the same headers with and without what
    follows it. *)
Lemma scan_app : forall a i bef b,
  a = [] \/ line_start (rev a) = true ->
  scan_headers i bef (a ++ b)
  = scan_headers i bef a ++ scan_headers (i + length a) (rev a ++ bef) b.
Proof.
  induction a as [|c a IH]; intros i bef b Ha.
  - rewrite scan_nil. simpl. rewrite Nat.add_0_r. reflexivity.
  - destruct Ha as [Ha | Ha]; [discriminate|].
    cbn [app scan_headers]. rewrite <- app_assoc. f_equal.
    + destruct (span_line (c :: a)) as (l & r0 & E & Hl & Hr).
      assert (Nr : r0 <> []).
      { intros ->. rewrite app_nil_r in E. subst l.
        destruct (@line_start_rev_nonempty (c :: a) []) as (a' & e & Ea & He);
          [discriminate | rewrite app_nil_r; exact Ha |].
        rewrite Ea in Hl. apply all_in_app in Hl as (_ & Hl).
        inversion Hl; subst. unfold not_newline in H1. rewrite He in H1. discriminate. }
      change (c :: a ++ b) with ((c :: a) ++ b). rewrite E, <- app_assoc.
      apply header_here_eq. apply header_here_rel; [reflexivity| |exact Hr|exact Hl].
      destruct r0; [congruence | exact Hr].
    + rewrite IH.
      * rewrite <- rev_cons_app. replace (S i + length a) with (i + length (c :: a))
          by (simpl; lia). reflexivity.
      * destruct a as [|e a]; [left; reflexivity|]. right.
        rewrite <- Ha. symmetry.
        apply (@line_start_rev_app [c] (e :: a)). discriminate.
Qed.

Lemma scan_shift n : forall s i bef,
  scan_headers (n + i) bef s = map (shift n) (scan_headers i bef s).
Proof.
  induction s as [|c s IH]; intros i bef; cbn [scan_headers].
  - rewrite header_none_at_end. reflexivity.
  - rewrite map_app. f_equal.
    + destruct (match_here true headerRegex (MState bef (c :: s) [])); reflexivity.
    + rewrite <- IH. f_equal. lia.
Qed.

Lemma scan_range : forall s i bef h,
  In h (scan_headers i bef s) -> i <= h_index h < i + length s.
Proof.
  induction s as [|c s IH]; intros i bef h H.
  - rewrite scan_nil in H. contradiction.
  - cbn [scan_headers] in H. apply in_app_or in H as [H | H].
    + destruct (match_here true headerRegex (MState bef (c :: s) [])); [|contradiction].
      destruct H as [<- | []]. simpl. lia.
    + apply IH in H. simpl. lia.
Qed.

Lemma scan_prefix_none : forall pre i bef post,
  (forall p1 p2, pre = p1 ++ p2 -> p2 <> [] ->
     match_here true headerRegex (MState (rev p1 ++ bef) (p2 ++ post) []) = None) ->
  scan_headers i bef (pre ++ post)
  = scan_headers (i + length pre) (rev pre ++ bef) post.
Proof.
  induction pre as [|c pre IH]; intros i bef post H.
  - simpl. rewrite Nat.add_0_r. reflexivity.
  - cbn [app scan_headers].
    pose proof (H [] (c :: pre) eq_refl) as H0. cbn [rev app] in H0.
    rewrite H0 by discriminate. cbn [app].
    rewrite IH.
    + rewrite <- rev_cons_app. f_equal. simpl. lia.
    + intros p1 p2 E N. rewrite <- rev_cons_app. apply H; [simpl; congruence | exact N].
Qed.

Lemma scan_none : forall aft i bef,
  (forall pre post, aft = pre ++ post ->
     match_here true headerRegex (MState (rev pre ++ bef) post []) = None) ->
  scan_headers i bef aft = [].
Proof.
  induction aft as [|c aft IH]; intros i bef H.
  - apply scan_nil.
  - cbn [scan_headers].
    pose proof (H [] (c :: aft) eq_refl) as H0. cbn [rev app] in H0. rewrite H0.
    cbn [app]. apply IH. intros pre post E. rewrite <- rev_cons_app.
    apply H. simpl. congruence.
Qed.

Lemma app_length_split {A} (d u v : list A) :
  d = u ++ v -> firstn (length u) d = u /\ skipn (length u) d = v.
Proof.
  intros ->. rewrite firstn_app, skipn_app, Nat.sub_diag, firstn_all, skipn_all.
  simpl. rewrite app_nil_r. auto.
Qed.

Lemma inside_line c p1 rest :
  all_in not_newline (c :: p1) -> line_start (rev p1 ++ c :: rest) = false.
Proof.
  intros H. destruct (rev p1) as [|e t] eqn:E; simpl.
  - inversion H; subst. unfold not_newline in H2. apply negb_true_iff in H2. exact H2.
  - assert (Hin : In e (c :: p1)).
    { right. apply in_rev. rewrite E. left. reflexivity. }
    pose proof (proj1 (Forall_forall _ _) H e Hin) as He.
    unfold not_newline in He. apply negb_true_iff in He. exact He.
Qed.

(** The header loop finds the headers of every position, in order. *)
Lemma collect_scan d : forall fuel from,
  from <= length d -> length d - from < fuel ->
  collect_headers fuel d from
  = Some (scan_headers from (rev (firstn from d)) (skipn from d)).
Proof.
  induction fuel as [|f IH]; intros from L F; [lia|].
  cbn [collect_headers]. unfold exec_from.
  replace (Nat.ltb (length d) from) with false by (symmetry; apply Nat.ltb_ge; exact L).
  destruct (search true headerRegex (rev (firstn from d)) (skipn from d))
    as [[x z]|] eqn:S; cbn [option_map].
  - apply search_some in S as (pre & post & Ep & -> & Hm & Hmin).
    pose proof Hm as Hm'. unfold match_here in Hm'.
    apply mt_sound in Hm' as (y & M & Hy). inversion Hy; subst y; clear Hy.
    pose proof (header_reads_some M) as Lw.
    apply (Matches_line header_line_regex) in M as (w & A & Bz & Nw).
    cbn [after before] in A, Bz, Lw.
    destruct w as [|c w]; [simpl in A; subst post; lia|].
    assert (Ed : d = (firstn from d ++ pre ++ c :: w) ++ after z).
    { rewrite <- (firstn_skipn from d) at 1. rewrite Ep, A, <- !app_assoc. reflexivity. }
    assert (Lf : length (firstn from d) = from) by (rewrite length_firstn; lia).
    assert (Ln : length (firstn from d ++ pre ++ c :: w) = from + length pre + S (length w)).
    { rewrite !length_app, Lf. simpl. lia. }
    destruct (app_length_split _ _ Ed) as (E1 & E2). rewrite Ln in E1, E2.
    unfold result_of. cbn [index matched groups fst snd before].
    rewrite (@consumed_length _ z (c :: w)) by exact Bz.
    rewrite length_app, !length_rev, Lf.
    replace (length pre + from + length (c :: w)) with (from + length pre + S (length w))
      by (simpl; lia).
    assert (Ld : length d = from + length pre + S (length w) + length (after z)).
    { rewrite Ed at 1. rewrite length_app, Ln. reflexivity. }
    rewrite IH by lia.
    cbn [option_map]. f_equal. rewrite E1, E2, Ep.
    rewrite scan_prefix_none.
    2:{ intros p1 p2 E N. subst pre.
        apply Hmin; [rewrite Ep, <- app_assoc; reflexivity|].
        rewrite length_app. destruct p2; [congruence | simpl; lia]. }
    rewrite A. cbn [app scan_headers].
    change (c :: w ++ after z) with ((c :: w) ++ after z). rewrite <- A, Hm.
    cbn [app]. f_equal.
    + unfold header_of, group. cbn [groups]. f_equal. lia.
    + rewrite scan_prefix_none.
      * f_equal; [lia|]. rewrite !rev_app_distr. cbn [rev].
        rewrite <- !app_assoc. reflexivity.
      * intros p1 p2 E N. apply header_needs_line_start. apply inside_line.
        subst w. inversion Nw as [|c' w' Hc Hw]; subst.
        apply all_in_app in Hw as (Hw & _).
        constructor; assumption.
  - f_equal. symmetry. apply scan_none.
    apply (proj1 (search_none _ _ _ _) S).
Qed.

Lemma headers_scan d : headers d = scan_headers 0 [] d.
Proof.
  unfold headers. rewrite collect_scan by lia. reflexivity.
Qed.

Lemma increasing_ge d : forall hs from,
  increasing d from hs -> Forall (fun h => from <= h_index h) hs.
Proof.
  induction hs as [|h rest IH]; intros from H; [constructor|].
  destruct H as (H1 & H2 & H3). constructor; [exact H1|].
  apply IH. apply increasing_weaken with (from := S (h_index h)); [lia | exact H3].
Qed.

Lemma scan_increasing d : forall s i bef,
  i + length s = length d -> increasing d i (scan_headers i bef s).
Proof.
  induction s as [|c s IH]; intros i bef E.
  - rewrite scan_nil. exact I.
  - cbn [scan_headers].
    assert (H : increasing d (S i) (scan_headers (S i) (c :: bef) s))
      by (apply IH; simpl in E; lia).
    destruct (match_here true headerRegex (MState bef (c :: s) [])); cbn [app].
    + cbn [increasing header_of h_index]. simpl in E. repeat split; [lia | lia | exact H].
    + apply increasing_weaken with (from := S i); [lia | exact H].
Qed.

Lemma app_inj_index (n : nat) (l1 l1' l2 l2' : list header) :
  Forall (fun h => h_index h < n) l1 -> Forall (fun h => h_index h < n) l1' ->
  Forall (fun h => n <= h_index h) l2 -> Forall (fun h => n <= h_index h) l2' ->
  l1 ++ l2 = l1' ++ l2' -> l1 = l1' /\ l2 = l2'.
Proof.
  revert l1'. induction l1 as [|a l1 IH]; intros l1' H1 H1' H2 H2' E.
  - destruct l1' as [|b l1']; [auto|]. simpl in E. subst l2.
    inversion H1'; subst. inversion H2; subst. lia.
  - destruct l1' as [|b l1']; simpl in E.
    + subst l2'. inversion H1; subst. inversion H2'; subst. lia.
    + inversion E as [[Eab E']]; subst. inversion H1 as [|a0 t0 Ha Ht]; subst.
      inversion H1' as [|a1 t1 Ha' Ht']; subst.
      destruct (IH l1' Ht Ht' H2 H2' E') as (-> & ->). auto.
Qed.

Lemma scan_lt i bef s :
  Forall (fun h => h_index h < i + length s) (scan_headers i bef s).
Proof. apply Forall_forall. intros h H. apply scan_range in H. lia. Qed.

Lemma shift_inj n h h0 : shift n h0 = h -> h_index h = n -> h0 = Header 0 (h_path h).
Proof.
  destruct h0 as [i0 p0]. unfold shift. simpl. intros <-. simpl. intros E.
  f_equal. lia.
Qed.

Lemma spans_scan d : forall hs i,
  i <= length d ->
  scan_headers i (rev (firstn i d)) (skipn i d) = hs ->
  Forall (header_ok d) hs ->
  (forall h rest, hs = h :: rest -> h_index h = i) ->
  Forall block_ok (spans d hs).
Proof.
  induction hs as [|h rest IH]; intros i Li Es Hok Hi; [constructor|].
  pose proof (Hi h rest eq_refl) as Ei.
  inversion Hok as [|h' rest' (Lh & Bh & Sh) Hrest]; subst h' rest'.
  assert (Hinc : increasing d i (h :: rest)).
  { rewrite <- Es. apply scan_increasing. rewrite length_skipn. lia. }
  destruct Hinc as (_ & _ & Hinc).
  cbn [spans].
  set (j := match rest with h2 :: _ => h_index h2 | [] => length d end).
  assert (Lj : i < j /\ j <= length d).
  { unfold j. destruct rest as [|h2 rest2]; [lia|].
    destruct Hinc as (H1 & H2 & _). lia. }
  assert (Hge : Forall (fun h0 => j <= h_index h0) rest).
  { unfold j. destruct rest as [|h2 rest2]; [constructor|].
    destruct Hinc as (H1 & H2 & H3). constructor; [lia|].
    apply increasing_ge in H3. eapply Forall_impl; [|exact H3].
    simpl. intros a Ha. lia. }
  assert (Eb : skipn i d = slice d i j ++ skipn j d).
  { unfold slice. replace j with ((j - i) + i) at 2 by lia.
    rewrite <- skipn_skipn. symmetry. apply firstn_skipn. }
  assert (Lb : length (slice d i j) = j - i).
  { unfold slice. rewrite length_firstn, length_skipn. lia. }
  assert (Hcl : rest <> [] -> line_start (rev (slice d i j)) = true).
  { intros N. destruct rest as [|h2 rest2]; [congruence|].
    inversion Hrest as [|h2' r2' (L2 & B2 & S2) Hr2]; subst h2' r2'.
    apply (@span_between d i (h_index h2)).
    - apply Lj.
    - lia.
    - rewrite <- Ei. exact Sh.
    - exact B2. }
  assert (Esplit : scan_headers i (rev (firstn i d)) (slice d i j) = [h]
                   /\ scan_headers j (rev (firstn j d)) (skipn j d) = rest).
  { destruct rest as [|h2 rest2].
    - assert (Ej : j = length d) by reflexivity.
      rewrite Ej, skipn_all, scan_nil. split; [|reflexivity].
      rewrite <- Es. f_equal. unfold slice.
      apply firstn_all2. rewrite length_skipn. lia.
    - rewrite Eb in Es. rewrite scan_app in Es by (right; apply Hcl; discriminate).
      assert (Ef : rev (slice d i j) ++ rev (firstn i d) = rev (firstn j d)).
      { rewrite <- rev_app_distr. f_equal. unfold slice.
        replace j with (i + (j - i)) at 2 by lia. symmetry. apply firstn_add. }
      rewrite Ef, Lb in Es. replace (i + (j - i)) with j in Es by lia.
      apply (@app_inj_index j _ [h] _ (h2 :: rest2)) in Es.
      + exact Es.
      + pose proof (scan_lt i (rev (firstn i d)) (slice d i j)) as H.
        rewrite Lb in H. replace (i + (j - i)) with j in H by lia. exact H.
      + constructor; [lia | constructor].
      + apply (@increasing_ge d).
        apply scan_increasing. rewrite length_skipn. lia.
      + exact Hge. }
  destruct Esplit as (E1 & E2).
  constructor.
  - unfold block_ok. cbn [fst snd]. fold j. rewrite Ei.
    rewrite Ei in Bh. rewrite (@scan_context _ i _ [] Bh) in E1.
    replace i with (i + 0) in E1 at 1 by lia. rewrite scan_shift in E1.
    destruct (scan_headers 0 [] (slice d i j)) as [|h0 [|h1 t]]; try discriminate.
    simpl in E1. injection E1 as E1'. f_equal.
    apply (@shift_inj i h h0); auto.
  - apply (IH j); [lia | exact E2 | exact Hrest |].
    intros h2 rest2 Er. unfold j. rewrite Er. reflexivity.
Qed.

Lemma line_start_app_nonempty s X :
  s <> [] -> line_start (rev s ++ X) = line_start (rev s).
Proof.
  intros N. destruct (rev s) eqn:E; [|reflexivity].
  apply (f_equal (@rev _)) in E. rewrite rev_involutive in E. contradiction.
Qed.

(** The headers of a text made of a first part and blocks come from the
    first part or from one of the blocks. *)
Lemma scan_concat : forall (l : list jsstring) p i bef h,
  Forall (fun s => s <> []) l -> closed_blocks l ->
  (l <> [] -> line_start (rev p ++ bef) = true) ->
  In h (scan_headers i bef (p ++ concat l)) ->
  In h (scan_headers i bef p)
  \/ exists b h0, In b l /\ In h0 (scan_headers 0 [] b) /\ h_path h = h_path h0.
Proof.
  induction l as [|s l IH]; intros p i bef h Hn Hc Hp Hin.
  - simpl in Hin. rewrite app_nil_r in Hin. left. exact Hin.
  - inversion Hn as [|s' l' Ns Hn']; subst. destruct Hc as (Hc1 & Hc2).
    specialize (Hp ltac:(discriminate)).
    cbn [concat] in Hin. rewrite scan_app in Hin.
    2:{ destruct p as [|c p]; [left; reflexivity|]. right.
        rewrite <- Hp. symmetry. apply line_start_app_nonempty. discriminate. }
    apply in_app_or in Hin as [Hin | Hin]; [left; exact Hin|]. right.
    apply IH in Hin; auto.
    + destruct Hin as [Hin | (b & h0 & Hb & Hh0 & E)].
      * rewrite (@scan_context _ _ _ [] Hp) in Hin.
        replace (i + length p) with ((i + length p) + 0) in Hin by lia.
        rewrite scan_shift in Hin. apply in_map_iff in Hin as (h0 & <- & Hh0).
        exists s, h0. split; [left; reflexivity|]. split; [exact Hh0 | reflexivity].
      * exists b, h0. split; [right; exact Hb | auto].
    + intros N. rewrite line_start_app_nonempty by exact Ns. apply Hc1. exact N.
Qed.

Lemma nonempty_blocks (l : list jsstring) :
  Forall (fun s => startsWith s DIFF_GIT = true) l -> Forall (fun s => s <> []) l.
Proof.
  intros H. eapply Forall_impl; [|exact H]. simpl. intros s Hs ->. discriminate.
Qed.

(** The headers of a filtered text are headers of kept spans, and
    filtering the filtered text changes nothing. *)
Lemma filter_twice (d d' : jsstring) :
  filterDiffByIgnoredFiles (JStr d) = Some (JStr d') ->
  (forall h, In h (headers d') ->
     exists h0, In h0 (headers d) /\ h_path h = h_path h0 /\ ignored (h_path h) = false)
  /\ filterDiffByIgnoredFiles (JStr d') = Some (JStr d').
Proof.
  intros Hf. rewrite filter_result in Hf. inversion Hf as [Ed']; clear Hf.
  destruct (headers_spec d) as (Hc & Hi).
  assert (Hok : Forall (header_ok d) (headers d))
    by (apply Forall_forall; intros h Hin; apply headers_ok; exact Hin).
  destruct (@spans_blocks d (headers d) 0 Hi Hok) as (Hs & Hcl).
  set (p := preamble d (headers d)) in *.
  set (K := filter kept (spans d (headers d))) in *.
  (* the first part holds no header, and every block holds its own *)
  assert (Hpre : scan_headers 0 [] p = []
                 /\ Forall block_ok (spans d (headers d))
                 /\ (headers d <> [] -> line_start (rev p) = true)).
  { unfold p. destruct (headers d) as [|h0 rest] eqn:Eh.
    - cbn [preamble spans]. rewrite <- headers_scan, Eh.
      split; [reflexivity|]. split; [constructor | congruence].
    - cbn [preamble]. inversion Hok as [|h' r' (L0 & B0 & S0) _]; subst.
      pose proof (headers_scan d) as Esc. rewrite Eh in Esc.
      rewrite <- (firstn_skipn (h_index h0) d) in Esc at 1.
      rewrite scan_app in Esc.
      2:{ destruct (firstn (h_index h0) d); [left; reflexivity | right; exact B0]. }
      rewrite app_nil_r, length_firstn, Nat.min_l in Esc by lia. simpl in Esc.
      apply (@app_inj_index (h_index h0) [] _ (h0 :: rest)) in Esc.
      + destruct Esc as (E1 & E2). split; [symmetry; exact E1|].
        split; [|intros _; exact B0].
        apply (@spans_scan d (h0 :: rest) (h_index h0)); [lia | symmetry; exact E2 | |].
        * exact Hok.
        * intros h rest0 E. inversion E; subst. reflexivity.
      + constructor.
      + pose proof (scan_lt 0 [] (firstn (h_index h0) d)) as H.
        rewrite length_firstn, Nat.min_l in H by lia. exact H.
      + destruct Hi as (_ & _ & Hi).
        constructor; [lia|]. apply increasing_ge in Hi.
        eapply Forall_impl; [|exact Hi]. simpl. intros a Ha. lia.
      + apply (@increasing_ge d).
        apply scan_increasing. rewrite length_skipn. lia. }
  destruct Hpre as (Hp0 & Hblocks & Hpl).
  assert (Hall : forall h, In h (headers d') ->
            exists h0, In h0 (headers d) /\ h_path h = h_path h0
                       /\ ignored (h_path h) = false).
  { intros h Hin. rewrite headers_scan, <- Ed' in Hin.
    apply scan_concat in Hin.
    - destruct Hin as [Hin | (b & h0 & Hb & Hh0 & E)].
      + rewrite Hp0 in Hin. contradiction.
      + apply in_map_iff in Hb as (sp & <- & Hsp).
        apply filter_In in Hsp as (Hsp & Hk).
        pose proof (proj1 (Forall_forall _ _) Hblocks sp Hsp) as Hbk.
        unfold block_ok in Hbk. rewrite Hbk in Hh0.
        destruct Hh0 as [<- | []]. simpl in E.
        exists (fst sp). split.
        * assert (Hm : In (fst sp) (map fst (spans d (headers d))))
            by (apply in_map; exact Hsp).
          replace (map fst (spans d (headers d))) with (headers d) in Hm; [exact Hm|].
          clear. induction (headers d) as [|a l IHl]; simpl; [reflexivity|].
          f_equal. exact IHl.
        * split; [exact E|]. rewrite E.
          unfold kept in Hk. rewrite ignoredRegex_test in Hk.
          apply negb_true_iff in Hk. exact Hk.
    - apply nonempty_blocks. apply Forall_filter_snd. exact Hs.
    - apply closed_blocks_filter. exact Hcl.
    - intros N. rewrite app_nil_r. apply Hpl.
      intros E. unfold K in N. rewrite E in N. apply N. reflexivity. }
  rewrite Ed'. split; [exact Hall|].
  apply filter_without_ignored_paths.
  intros h Hin. destruct (Hall h Hin) as (_ & _ & _ & H). exact H.
Qed.

(** ** Header lines *)

Lemma header_reads x z :
  Matches true headerRegex x z ->
  exists mid g q,
    after x = (str "diff --git " ++ mid ++ B_SLASH ++ g ++ q) ++ after z
    /\ at_bol true x = true
    /\ g <> [] /\ all_in not_newline g /\ quote_opt q
    /\ line_end (after z) = true
    /\ get_cap 2 (caps z) = Some g.
Proof.
  intros M. unfold headerRegex in M; cbn [seqs] in M.
  apply Matches_seq_inv in M as (y1 & M1 & M). apply Matches_bol_inv in M1 as (-> & Hb).
  apply Matches_seq_inv in M as (y2 & M2 & M). apply Matches_lit in M2 as (r2 & E2 & ->).
  apply Matches_seq_inv in M as (y3 & M3 & M).
  apply Matches_span in M3 as (w3 & A3 & B3).
  apply Matches_seq_inv in M as (y4 & M4 & M).
  apply Matches_span in M4 as (w4 & A4 & B4).
  apply Matches_seq_inv in M as (y5 & M5 & M).
  apply Matches_span in M5 as (w5 & A5 & B5).
  apply Matches_seq_inv in M as (y6 & M6 & M).
  apply Matches_span in M6 as (w6 & A6 & B6).
  apply Matches_seq_inv in M as (y7 & M7 & M).
  apply Matches_span in M7 as (w7 & A7 & B7).
  apply Matches_seq_inv in M as (y8 & M8 & M).
  apply Matches_span in M8 as (w8 & A8 & B8).
  apply Matches_seq_inv in M as (y9 & M9 & M).
  apply Matches_lit in M9 as (r9 & E9 & ->).
  apply Matches_seq_inv in M as (y10 & M10 & M).
  apply Matches_grp_inv in M10 as (y0 & M10 & ->).
  apply Matches_plus_cset in M10 as (g & rg & Ng & Eg & Hg & ->).
  apply Matches_seq_inv in M as (y11 & M11 & M).
  apply Matches_opt_chr in M11.
  apply Matches_eol_inv in M as (-> & He).
  assert (Hq : exists q rq, quote_opt q /\ rg = q ++ rq
                 /\ y11 = read q rq (set_cap 2 (read (str "b/") r9 y8)
                                       (read g rg (read (str "b/") r9 y8)))).
  { destruct M11 as [-> | (rest & E & ->)].
    - exists [], rg. split; [left; reflexivity|]. split; [reflexivity|].
      unfold read, set_cap; simpl. reflexivity.
    - simpl in E. exists [DQ], rest. split; [right; reflexivity|].
      split; [exact E | reflexivity]. }
  destruct Hq as (q & rq & Hq & -> & ->).
  cbn [read set_cap before after caps] in *.
  exists (w3 ++ w4 ++ w5 ++ w6 ++ w7 ++ w8), g, q.
  simpl in A3, A4, A5, A6, A7, A8, E9, Eg.
  split.
  { rewrite E2, A3, A4, A5, A6, A7, A8, E9, Eg. unfold B_SLASH. simpl.
    repeat (rewrite <- app_assoc; cbn [app]). reflexivity. }
  split; [exact Hb|]. split; [exact Ng|].
  split; [exact Hg|]. split; [exact Hq|].
  split; [exact He|].
  simpl. f_equal. apply consumed_app. simpl. reflexivity.
Qed.

(** ** First occurrences *)

Lemma first_at_spec t s i :
  first_at t s i = true ->
  exists post, t = firstn i t ++ s ++ post /\ length (firstn i t) = i
    /\ forall pre' post', t = pre' ++ s ++ post' -> i <= length pre'.
Proof.
  unfold first_at. intros H. apply andb_true_iff in H as (H1 & H2).
  apply startsWith_spec in H1 as (post & E).
  assert (Li : i <= length t).
  { destruct (Nat.le_gt_cases i (length t)) as [L | L]; [exact L|].
    rewrite skipn_all2 in E by lia. destruct s; [|discriminate].
    exfalso. assert (Hin : In (length t) (seq 0 i)) by (apply in_seq; lia).
    pose proof (proj1 (forallb_forall _ _) H2 _ Hin) as H. discriminate. }
  exists post. split; [|split].
  - rewrite <- E. symmetry. apply firstn_skipn.
  - rewrite length_firstn. lia.
  - intros pre' post' E'. destruct (Nat.le_gt_cases i (length pre')) as [L | L]; [exact L|].
    exfalso. assert (Hin : In (length pre') (seq 0 i)) by (apply in_seq; lia).
    pose proof (proj1 (forallb_forall _ _) H2 _ Hin) as H.
    rewrite E', skipn_app, Nat.sub_diag, skipn_all in H. simpl in H.
    rewrite startsWith_app in H. discriminate.
Qed.

Lemma scan_In h : forall s i bef,
  In h (scan_headers i bef s) <->
  exists pre post z,
    s = pre ++ post
    /\ match_here true headerRegex (MState (rev pre ++ bef) post []) = Some z
    /\ h = header_of (i + length pre) z.
Proof.
  induction s as [|c s IH]; intros i bef.
  - rewrite scan_nil. split; [contradiction|].
    intros (pre & post & z & E & Hm & _).
    symmetry in E. apply app_eq_nil in E as (-> & ->).
    rewrite header_none_at_end in Hm. discriminate.
  - cbn [scan_headers]. rewrite in_app_iff, IH. split.
    + intros [H | (pre & post & z & E & Hm & ->)].
      * destruct (match_here true headerRegex (MState bef (c :: s) [])) as [z|] eqn:Hm;
          [|contradiction].
        destruct H as [<- | []]. exists [], (c :: s), z.
        split; [reflexivity|]. split; [exact Hm|]. simpl. rewrite Nat.add_0_r. reflexivity.
      * exists (c :: pre), post, z. rewrite rev_cons_app.
        split; [simpl; congruence|]. split; [exact Hm|]. simpl. f_equal. lia.
    + intros (pre & post & z & E & Hm & ->). destruct pre as [|c' pre].
      * left. simpl in E. subst post. cbn [rev app] in Hm. rewrite Hm.
        left. simpl. rewrite Nat.add_0_r. reflexivity.
      * right. simpl in E. inversion E; subst. exists pre, post, z.
        rewrite rev_cons_app in Hm. split; [reflexivity|]. split; [exact Hm|].
        simpl. f_equal. lia.
Qed.

(** ** The header pattern and the file pattern *)

Lemma header_stem k x :
  mt true headerRegex k x = mt true headerStem (mt true Eol k) x.
Proof. reflexivity. Qed.

Lemma path_stem x :
  pathRegex x
  = mt true headerStem
      (mt true (Chr 10)
         (not_followed_by true (Lit deletedMark) (fun y => Some y))) x.
Proof. reflexivity. Qed.

Lemma not_newline_not_LF c : not_newline c = true -> N.eqb c 10 = false.
Proof.
  unfold not_newline, is_newline. intros H. apply negb_true_iff in H.
  destruct (N.eqb c 10); [discriminate | reflexivity].
Qed.

(** Where the file pattern matches, the header pattern matches with the
    same captures. *)
Lemma stem_agree x z' :
  pathRegex x = Some z' ->
  exists z, match_here true headerRegex x = Some z /\ caps z = caps z'.
Proof.
  intros H. pose proof H as H0. rewrite path_stem in H0.
  apply mt_sound in H0 as (y & M & Ky).
  destruct (@Matches_line true headerStem _ _ eq_refl M) as (w & A & By & Nw).
  assert (Hy : exists post, after y = LF :: post /\ startsWith post deletedMark = false).
  { cbn [mt Chr] in Ky. revert Ky. destruct (after y) as [|c post]; [discriminate|].
    destruct (cmem _ c) eqn:Ec; [|discriminate].
    simpl in Ec. rewrite orb_false_r in Ec. apply N.eqb_eq in Ec. subst c.
    unfold not_followed_by.
    destruct (mt true (Lit deletedMark) _ _) eqn:El; [discriminate|].
    intros _. apply lit_none in El. exists post. split; [reflexivity | exact El]. }
  destruct Hy as (post & Ey & Hd).
  assert (Hx : same_line (before x) (before x) (after y) (after y) x x).
  { exists [], w. repeat split; auto. }
  assert (Hk : krel same_caps (before x) (before x) (after y) (after y)
                 (mt true Eol (fun s => Some s))
                 (mt true (Chr 10)
                    (not_followed_by true (Lit deletedMark) (fun s => Some s)))).
  { intros s s' (w1 & l1 & E1 & E2 & E3 & E4 & E5 & El).
    cbn [mt Chr]. unfold at_eol. rewrite E3, E4, Ey.
    destruct l1 as [|c l1]; cbn [app].
    - cbn [andb is_newline cmem existsb]. change (is_newline LF) with true.
      change (N.eqb LF 10 || false) with true. cbn iota.
      unfold not_followed_by. rewrite mt_lit. cbn [after]. rewrite Hd.
      simpl. exact E5.
    - inversion El as [|c' l' Hc Hl]; subst.
      pose proof Hc as Hc'. unfold not_newline in Hc'. apply negb_true_iff in Hc'.
      rewrite Hc'. cbn [andb cmem existsb].
      rewrite (not_newline_not_LF _ Hc). exact I. }
  assert (Hle : line_end (after y) = true) by (rewrite Ey; reflexivity).
  pose proof (@mt_local same_caps (before x) (before x) (after y) (after y)
                eq_refl Hle Hle headerStem eq_refl _ _ x x Hk Hx) as L.
  rewrite <- path_stem, H in L. unfold match_here. rewrite header_stem.
  destruct (mt true headerStem (mt true Eol (fun s => Some s)) x) as [z|];
    [|contradiction].
  exists z. split; [reflexivity | exact L].
Qed.

Lemma touched_file_has_a_header (d pre g : jsstring) :
  path_match d pre g ->
  exists h, In h (headers d) /\ h_index h = length pre /\ h_path h = strip_quotes g.
Proof.
  intros (post & z' & Ed & Hm & Cz).
  destruct (stem_agree _ Hm) as (z & Hz & Ec).
  exists (header_of (length pre) z). split; [|split].
  - rewrite headers_scan. apply scan_In. exists pre, post, z.
    rewrite app_nil_r. auto.
  - reflexivity.
  - unfold header_of. cbn [h_path]. rewrite Ec, Cz. apply quoteEnds_strip.
Qed.

(** ** The fields of a record *)

(** A piece of a split holds no separator. *)
Lemma split_on_no_sep (sep : char) (s l : jsstring) :
  In l (split_on sep s) -> ~ In sep l.
Proof.
  revert l. induction s as [|c s IH]; intros l H.
  - destruct H as [<- | []]. intros [].
  - cbn [split_on] in H. destruct (N.eqb c sep) eqn:E.
    + destruct H as [<- | H]; [intros [] | apply IH; exact H].
    + destruct (split_on sep s) as [|l0 ls] eqn:S.
      * destruct H as [<- | []]. intros [E' | []]. subst c.
        rewrite N.eqb_refl in E. discriminate.
      * destruct H as [<- | H].
        -- intros [E' | H'].
           ++ subst c. rewrite N.eqb_refl in E. discriminate.
           ++ apply (IH l0); [left; reflexivity | exact H'].
        -- apply IH. right. exact H.
Qed.

(** ** Cutting a diff where its sections start *)

Lemma split_on_nonempty sep s : split_on sep s <> [].
Proof.
  destruct s as [|c s]; [discriminate|]. cbn [split_on].
  destruct (N.eqb c sep); [discriminate|].
  destruct (split_on sep s); discriminate.
Qed.

(** The pieces of a split, joined by the separator, give the text back. *)
Lemma join_split_on sep s : join [sep] (split_on sep s) = s.
Proof.
  induction s as [|c s IH]; [reflexivity|]. cbn [split_on].
  pose proof (split_on_nonempty sep s) as N.
  destruct (N.eqb c sep) eqn:E.
  - apply N.eqb_eq in E. subst c.
    destruct (split_on sep s) as [|l ls]; [contradiction|].
    change (join [sep] ([] :: l :: ls)) with (sep :: join [sep] (l :: ls)).
    rewrite IH. reflexivity.
  - destruct (split_on sep s) as [|l ls]; [contradiction|].
    destruct ls as [|l' ls].
    + change (join [sep] [l]) with l in IH. subst s. reflexivity.
    + change (join [sep] ((c :: l) :: l' :: ls))
        with (c :: (l ++ [sep] ++ join [sep] (l' :: ls))).
      change (join [sep] (l :: l' :: ls))
        with (l ++ [sep] ++ join [sep] (l' :: ls)) in IH.
      rewrite IH. reflexivity.
Qed.

Lemma split_go_plain : forall s bef piece,
  plain_after bef s ->
  split_go true sectionStart bef s piece 0 = [rev piece ++ s].
Proof.
  induction s as [|c s IH]; intros bef piece H.
  - simpl. rewrite app_nil_r. reflexivity.
  - rewrite split_go_section.
    assert (E : line_start bef && startsWith (c :: s) DIFF_GIT = false).
    { destruct (line_start bef) eqn:L; [|reflexivity]. simpl.
      apply (H [] (c :: s)); [reflexivity | exact L]. }
    rewrite E. rewrite IH.
    + simpl. rewrite <- app_assoc. reflexivity.
    + intros a b Es Hl. apply (H (c :: a) b).
      * simpl. rewrite Es. reflexivity.
      * simpl. rewrite <- app_assoc. exact Hl.
Qed.

Lemma split_go_skip : forall n s bef piece,
  n <= length s ->
  split_go true sectionStart bef s piece n
  = split_go true sectionStart (rev (firstn n s) ++ bef) (skipn n s) piece 0.
Proof.
  induction n as [|n IH]; intros s bef piece L; [reflexivity|].
  destruct s as [|c s]; [simpl in L; lia|].
  cbn [split_go firstn skipn rev]. rewrite IH by (simpl in L; lia).
  rewrite <- app_assoc. reflexivity.
Qed.

Lemma plain_plain_after p : plain p -> plain_after [] p.
Proof.
  intros (H0 & H) a b E L. rewrite app_nil_r in L.
  destruct a as [|c a]; [simpl in E; subst b; exact H0|].
  apply (H (c :: a) b E); [discriminate | exact L].
Qed.

Lemma sections_plain p : plain p -> sections p = filter nonempty [p].
Proof.
  intros H. rewrite sections_go. rewrite split_go_plain by (apply plain_plain_after; exact H).
  reflexivity.
Qed.

Lemma sections_block body :
  no_section_start body -> sections (DIFF_GIT ++ body) = filter nonempty [body].
Proof.
  intros H. rewrite sections_go.
  change (DIFF_GIT ++ body) with (100%N :: (str "iff --git" ++ body)).
  rewrite split_go_section.
  change (line_start [] && startsWith (100%N :: (str "iff --git" ++ body)) DIFF_GIT)
    with (startsWith (DIFF_GIT ++ body) DIFF_GIT).
  rewrite (startsWith_app_l DIFF_GIT DIFF_GIT body) by reflexivity.
  rewrite split_go_skip by (rewrite length_app; simpl; lia).
  change (firstn 9 (str "iff --git" ++ body)) with (str "iff --git").
  change (skipn 9 (str "iff --git" ++ body)) with body.
  rewrite split_go_plain; [reflexivity|].
  intros a b E L. destruct a as [|c a]; [vm_compute in L; discriminate|].
  apply (H (c :: a) b E); [discriminate|].
  rewrite line_start_app_nonempty in L by discriminate. exact L.
Qed.

Lemma sections_cut d p bodies :
  cut_at_sections d p bodies -> sections d = filter nonempty (p :: bodies).
Proof.
  intros (-> & Hp & Hb & Hc & Hl).
  rewrite sections_concat.
  - rewrite (sections_plain Hp). cbn [filter]. 
    assert (E : flat_map sections (map (app DIFF_GIT) bodies) = filter nonempty bodies).
    { clear Hc Hl. induction Hb as [|b bs Hb1 Hb2 IH]; [reflexivity|].
      cbn [map flat_map]. rewrite (sections_block Hb1), IH. cbn [filter].
      destruct (nonempty b); reflexivity. }
    rewrite E. destruct (nonempty p); reflexivity.
  - clear. induction bodies as [|b bs IH]; constructor; [|exact IH].
    apply startsWith_app_l. reflexivity.
  - exact Hc.
  - intros N. apply Hl. intros ->. apply N. reflexivity.
Qed.

Lemma line_start_head a c bef bef' :
  line_start (rev a ++ c :: bef) = line_start (rev a ++ c :: bef').
Proof. destruct (rev a); reflexivity. Qed.

Lemma no_newline_in_DIFF_GIT a c l :
  DIFF_GIT = a ++ c :: l -> is_newline c = false.
Proof.
  intros E. assert (Hin : In c DIFF_GIT) by (rewrite E; apply in_or_app; right; left; reflexivity).
  vm_compute in Hin.
  repeat (destruct Hin as [<- | Hin]; [reflexivity|]). contradiction.
Qed.

(** Every text can be cut where its sections start. *)
Lemma cut_after : forall s bef,
  exists p bodies,
    s = p ++ concat (map (app DIFF_GIT) bodies)
    /\ plain_after bef p
    /\ Forall no_section_start bodies
    /\ closed_blocks (map (app DIFF_GIT) bodies)
    /\ (bodies <> [] -> line_start (rev p ++ bef) = true).
Proof.
  induction s as [|c s IH]; intros bef.
  - exists [], []. split; [reflexivity|]. split.
    + intros a b E _. destruct a; [|discriminate]. simpl in E. subst b. reflexivity.
    + split; [constructor|]. split; [exact I|]. intros N; elim N; reflexivity.
  - destruct (IH (c :: bef)) as (p & bodies & Es & Hp & Hb & Hc & Hl).
    destruct (line_start bef && startsWith (c :: s) DIFF_GIT) eqn:St.
    + apply andb_true_iff in St as (Lb & St).
      apply startsWith_spec in St as (r & Er).
      assert (Ecp : exists body, c :: p = DIFF_GIT ++ body).
      { assert (E2 : (c :: p) ++ concat (map (app DIFF_GIT) bodies) = DIFF_GIT ++ r)
          by (change ((c :: p) ++ concat (map (app DIFF_GIT) bodies))
                with (c :: (p ++ concat (map (app DIFF_GIT) bodies)));
              rewrite <- Es; exact Er).
        apply app_eq_app in E2 as (l & [(E3 & E4) | (E3 & E4)]).
        - destruct l as [|x l].
          + exists []. rewrite app_nil_r in E3. rewrite E3, app_nil_r. reflexivity.
          + exists (x :: l). exact E3.
        - destruct l as [|x l].
          + exists []. rewrite app_nil_r in E3. rewrite <- E3, app_nil_r. reflexivity.
          + exfalso.
            assert (Nb : bodies <> []).
            { intros ->. simpl in E4. discriminate. }
            specialize (Hl Nb).
            assert (Hl' : line_start (rev (c :: p) ++ bef) = true)
              by (simpl; rewrite <- app_assoc; exact Hl).
            apply line_start_rev_nonempty in Hl' as (a' & e & Ea & He); [|discriminate].
            rewrite Ea, <- app_assoc in E3. simpl in E3.
            rewrite (@no_newline_in_DIFF_GIT _ _ _ E3) in He. discriminate. }
      destruct Ecp as (body & Ecp).
      exists [], (body :: bodies). split.
      { cbn [map concat app]. rewrite <- Ecp. cbn [app]. rewrite Es. reflexivity. }
      split.
      { intros a b E _. destruct a; [|discriminate]. simpl in E. subst b. reflexivity. }
      split.
      { constructor; [|exact Hb].
        intros a b E Na La.
        assert (Ep : p = str "iff --git" ++ body).
        { change DIFF_GIT with (100%N :: str "iff --git") in Ecp.
          simpl in Ecp. inversion Ecp. reflexivity. }
        apply (Hp (str "iff --git" ++ a) b).
        - rewrite Ep, E, app_assoc. reflexivity.
        - rewrite rev_app_distr, <- app_assoc.
          rewrite line_start_app_nonempty by exact Na. exact La. }
      split.
      { cbn [map closed_blocks]. split; [|exact Hc].
        intros N. rewrite <- Ecp.
        assert (Nb : bodies <> []) by (intros ->; apply N; reflexivity).
        specialize (Hl Nb). simpl. rewrite (line_start_head p c [] bef). exact Hl. }
      intros _. exact Lb.
    + exists (c :: p), bodies. split; [simpl; rewrite Es; reflexivity|]. split.
      { intros a b E La. destruct a as [|x a].
        - simpl in E, La. subst b. rewrite La in St. cbn [andb] in St.
          destruct (startsWith (c :: p) DIFF_GIT) eqn:S1; [|reflexivity].
          rewrite Es in St.
          change (c :: p ++ concat (map (app DIFF_GIT) bodies))
            with ((c :: p) ++ concat (map (app DIFF_GIT) bodies)) in St.
          rewrite (startsWith_app_l DIFF_GIT (c :: p) _ S1) in St. discriminate.
        - simpl in E. inversion E; subst x. apply (Hp a b); [assumption|].
          simpl in La. rewrite <- app_assoc in La. exact La. }
      split; [exact Hb|]. split; [exact Hc|].
      intros N. simpl. rewrite <- app_assoc. apply Hl. exact N.
Qed.

Lemma plain_after_plain p : plain_after [] p -> plain p.
Proof.
  intros H. split.
  - apply (H [] p); reflexivity.
  - intros a b E N L. apply (H a b E). rewrite app_nil_r. exact L.
Qed.

Lemma cut_exists d : exists p bodies, cut_at_sections d p bodies.
Proof.
  destruct (cut_after d []) as (p & bodies & E & Hp & Hb & Hc & Hl).
  exists p, bodies. split; [exact E|]. split; [apply plain_after_plain; exact Hp|].
  split; [exact Hb|]. split; [exact Hc|].
  intros N. rewrite <- (app_nil_r (rev p)). apply Hl. exact N.
Qed.

Lemma section_free_plain_after : forall s bef,
  section_free bef s = true -> plain_after bef s.
Proof.
  induction s as [|c s IH]; intros bef H a b E L.
  - destruct a; [|discriminate]. simpl in E. subst b. reflexivity.
  - cbn [section_free] in H. apply andb_true_iff in H as (H1 & H2).
    destruct a as [|x a].
    + simpl in E, L. subst b. rewrite L in H1. cbn [andb] in H1.
      apply negb_true_iff in H1. exact H1.
    + simpl in E. inversion E; subst x. apply (@IH _ H2 a b); [assumption|].
      simpl in L. rewrite <- app_assoc in L. exact L.
Qed.

Lemma section_free_plain p : section_free [] p = true -> plain p.
Proof. intros H. apply plain_after_plain, section_free_plain_after. exact H. Qed.

Lemma section_free_body body :
  section_free (rev DIFF_GIT) body = true -> no_section_start body.
Proof.
  intros H a b E N L. apply (@section_free_plain_after _ _ H a b E).
  rewrite line_start_app_nonempty by exact N. exact L.
Qed.

(** ** The properties of the five operations *)

(** C1. Every diff can be cut into the text before its first
    [diff --git] at the start of a line and the texts after each such
    [diff --git]; the sections are these pieces, the empty ones left out,
    and the lines of a section are its pieces between line feeds.
    The changes are, section by section in the order of the diff and
    line by line within a retained section, one record for each added line
    that has one [+] marker, is not a [+++] line and shows the key/value
    shape after the marker; every other line, a removed line among them,
    gives no record; the [line] field is the line without its marker.  A
    section is retained when its first line names a [.json] file other
    than [en.json].  The diff of two files gives the two records of its
    two added lines. *)
Theorem parse_one_record_per_added_line (diff : jsstring) (ref : jsref) :
  (exists p bodies, cut_at_sections diff p bodies)
  /\ (forall p bodies, cut_at_sections diff p bodies ->
        parseTranslationChangesFromDiff diff ref
        = flat_map (fun section =>
            match retainedFile section with
            | Some f => flat_map (scanLine ref f []) (split_on LF section)
            | None => []
            end) (filter nonempty (p :: bodies)))
  /\ (forall section,
        join [LF] (split_on LF section) = section
        /\ split_on LF section <> []
        /\ (forall l, In l (split_on LF section) -> ~ In LF l))
  /\ (forall section f,
        retainedFile section = Some f <->
        names_file (hd [] (split_on LF section)) f /\ f <> str "en.json")
  /\ (forall f l,
        (forall k v, qualifies l k v ->
           scanLine ref f [] l
           = [Change f k v (or_else (getNestedValue ref k) noEnglish) (skipn 1 l)])
        /\ ((forall k v, ~ qualifies l k v) -> scanLine ref f [] l = [])
        /\ (forall rest, l = MINUS :: rest -> scanLine ref f [] l = [])
        /\ (forall c, In c (scanLine ref f [] l) -> PLUS :: line c = l))
  /\ (cut_at_sections two_files_diff [] [de_body; fr_body]
      /\ parseTranslationChangesFromDiff two_files_diff englishTranslations
         = [Change (str "de.json") (str "starting_point") (str "Startpunkt")
              (str "Starting point") (qstr "  `starting_point`: `Startpunkt`,");
            Change (str "fr.json") (str "starting_point") (str "Point de depart")
              (str "Starting point") (qstr "  `starting_point`: `Point de depart`,")]).
Proof.
  split; [apply cut_exists|]. split; [|split; [|split; [|split]]].
  - intros p bodies Hc. rewrite parse_sections, (sections_cut Hc). reflexivity.
  - intros section. split; [apply join_split_on|]. split; [apply split_on_nonempty|].
    intros l Hl. apply (split_on_no_sep _ _ _ Hl).
  - intros section f. apply retainedFile_spec.
  - intros f l. repeat split.
    + intros k v Q. apply scanLine_qualifies; exact Q.
    + intros NQ. destruct (scanLine_cases ref f l) as [(k & v & Q & _) | (_ & E)];
        [elim (NQ _ _ Q) | exact E].
    + intros rest ->. reflexivity.
    + intros c Hc.
      destruct (scanLine_cases ref f l) as [(k & v & Q & E) | (_ & E)];
        rewrite E in Hc; [|contradiction].
      destruct Hc as [<- | []]. destruct Q as (content & -> & _). reflexivity.
  - split; [|vm_compute; reflexivity].
    split; [vm_compute; reflexivity|].
    split; [apply section_free_plain; reflexivity|].
    split.
    + constructor; [|constructor; [|constructor]];
        apply section_free_body; vm_compute; reflexivity.
    + split.
      * cbn [map closed_blocks]. split; [intros _; vm_compute; reflexivity|].
        split; [intros N; elim N; reflexivity | exact I].
      * intros _. reflexivity.
Qed.

(** C2. The filter drops the sections of [package.json],
    [package-lock.json], [yarn.lock] and of paths under [node_modules/],
    but the section of a [.png] path stays in the result, and so do
    [Podfile.lock] and the generated nitrogen files; a path that differs
    from [package.json] in the character at the dot is dropped too. *)
Theorem filter_keeps_png_section :
  filterDiffByIgnoredFiles (JStr png_diff) = Some (JStr png_diff)
  /\ includes png_diff (str "icon.png") = true
  /\ test false ignoredRegex (str "assets/icon.png") = false
  /\ test false ignoredRegex (str "ios/Podfile.lock") = false
  /\ test false ignoredRegex (str "packages/nitrogen/generated/File.ts") = false
  /\ test false ignoredRegex (str "packageXjson") = true
  /\ (exists kept_part,
        filterDiffByIgnoredFiles (JStr yarn_diff) = Some (JStr kept_part)
        /\ includes kept_part (str "src/App.tsx") = true
        /\ includes kept_part (str "yarn.lock") = false).
Proof.
  repeat split; try (vm_compute; reflexivity).
  eexists. split; [vm_compute; reflexivity|].
  split; vm_compute; reflexivity.
Qed.

(** C3 fails where the reference holds the key with an empty string: the
    record has the sentinel although the key is not absent. *)
Lemma empty_reference_value_gets_sentinel :
  ~ (forall c, In c (parseTranslationChangesFromDiff title_diff title_ref) ->
       (englishValue c = noEnglish <-> absent_from title_ref (key c))).
Proof.
  intros H.
  assert (Hin : In title_change (parseTranslationChangesFromDiff title_diff title_ref))
    by (vm_compute; left; reflexivity).
  destruct (H _ Hin) as (H1 & _).
  specialize (H1 eq_refl). apply (H1 (JString [])).
  exists [(str "title", JString [])]. split; [reflexivity|]. left.
  exists [], []. split; [reflexivity | intros []].
Qed.

(** C3, as the code has it. For a key without a part named [__proto__]:
    the English value of a record is the sentinel when the record's key is
    absent from the reference, as a flat key and as a dotted path, or
    names the empty string there; otherwise it is the value the key names,
    a string as it is and an object as its JSON text. *)
Theorem parse_englishValue (diff : jsstring) (ref : jsref) (c : change) :
  In c (parseTranslationChangesFromDiff diff ref) ->
  no_proto_part (key c) ->
  (absent_from ref (key c) \/ resolves_to ref (key c) (JString []) ->
     englishValue c = noEnglish)
  /\ (forall w, resolves_to ref (key c) w -> w <> JString [] ->
        englishValue c = value_text w).
Proof.
  intros H NP.
  apply parse_In in H as (section & f & l & k & v & _ & _ & _ & _ & ->).
  cbn [record_of key englishValue] in *.
  destruct ref as [| |props].
  - split; [reflexivity|]. intros w (props & E & _). discriminate.
  - split; [reflexivity|]. intros w (props & E & _). discriminate.
  - destruct (getNestedValue_own props NP) as (G1 & G2). split.
    + intros [A | R].
      * rewrite (G2 A). reflexivity.
      * rewrite (G1 _ R). reflexivity.
    + intros w R N. rewrite (G1 _ R).
      destruct w as [[|a s]|ps]; [congruence | reflexivity | reflexivity].
Qed.

Lemma parse_englishValue_witness :
  In title_change (parseTranslationChangesFromDiff title_diff title_ref)
  /\ no_proto_part (key title_change)
  /\ resolves_to title_ref (key title_change) (JString [])
  /\ englishValue title_change = noEnglish.
Proof.
  assert (Hin : In title_change (parseTranslationChangesFromDiff title_diff title_ref))
    by (vm_compute; left; reflexivity).
  assert (NP : no_proto_part (key title_change))
    by (vm_compute; intros [E | []]; discriminate).
  assert (R : resolves_to title_ref (key title_change) (JString [])).
  { exists [(str "title", JString [])]. split; [reflexivity|]. left.
    exists [], []. split; [reflexivity | intros []]. }
  split; [exact Hin|]. split; [exact NP|]. split; [exact R|].
  apply (proj1 (parse_englishValue title_diff title_ref title_change Hin NP)).
  right. exact R.
Defined.

(** C4. For a snippet that ends in a backslash the locator returns no
    number, not even for a text that holds the snippet: the backslash is
    not escaped, the pattern ends in a lone backslash and the RegExp
    constructor throws.  Apart from that: the locator returns -1 when an
    argument is empty or absent and when the compiled pattern matches
    nowhere in the text; when the leftmost match starts at index [i], it
    returns the line of the last line of that match: with [n] one more than
    the number of newlines before [i] and [k] one more than the number of
    newlines in the matched text, the result is [n + k - 1].  The pattern
    of a snippet without a backslash always compiles. *)
Theorem getLineNumber_last_line_of_first_match (text searchString : jsarg) :
  (includes windows_text windows_dir = true
   /\ convertToRegexPattern windows_dir = str "C\:\"
   /\ RegExp_new (convertToRegexPattern windows_dir) = PSyntaxError
   /\ getLineNumber (JStr windows_text) (JStr windows_dir) = PSyntaxError)
  /\ (falsy text = true \/ falsy searchString = true ->
     getLineNumber text searchString = POk (-1)%Z)
  /\ (forall t s r,
        text = JStr t -> searchString = JStr s -> t <> [] -> s <> [] ->
        RegExp_new (convertToRegexPattern s) = POk r ->
        ((forall i, i <= length t -> match_at r t i = None) ->
           getLineNumber text searchString = POk (-1)%Z)
        /\ (forall i z,
              i <= length t -> match_at r t i = Some z ->
              (forall j, j < i -> match_at r t j = None) ->
              let n := S (count_char LF (firstn i t)) in
              let k := S (count_char LF (text_of t i z)) in
              t = firstn i t ++ text_of t i z ++ after z
              /\ getLineNumber text searchString
                 = POk (Z.of_nat n + Z.of_nat k - 1)%Z
              /\ (Z.of_nat n + Z.of_nat k - 1
                  = Z.of_nat (count_char LF (firstn i t)) + Z.of_nat k)%Z))
  /\ (forall s, no_backslash s ->
        RegExp_new (convertToRegexPattern s) = POk (regex_of false s)).
Proof.
  split; [repeat split; vm_compute; reflexivity|].
  split; [|split].
  3: { intros s Hs. rewrite convert_pattern. apply pattern_compiles. exact Hs. }
  - intros [H | H].
    + destruct text as [| |[|c t]]; try discriminate; reflexivity.
    + destruct text as [| |[|c t]]; try reflexivity.
      destruct searchString as [| |[|d s]]; try discriminate; reflexivity.
  - intros t s r -> -> Nt Ns Hr.
    destruct t as [|c t]; [congruence|]. destruct s as [|d s]; [congruence|].
    split.
    + intros Hnone. unfold getLineNumber. rewrite Hr. cbn [pbind].
      rewrite (@exec_none r _ Hnone). reflexivity.
    + intros i z L Hm Hmin n k. split; [|split].
      * apply (@match_at_reads r); assumption.
      * apply (@getLineNumber_found c t d s r); assumption.
      * subst n k. lia.
Qed.

(** C5. A snippet with a backslash in it is not found in a text that
    holds it word for word: the backslash is not escaped, so in the
    compiled pattern it escapes the character after it. *)
Theorem backslash_snippet_is_not_found :
  json_text = str "{" ++ [LF] ++ json_line ++ [LF] ++ str "}"
  /\ convertToRegexPattern json_line = qstr "\s+`greeting`\:\s+`Hello\nWorld`,"
  /\ getLineNumber (JStr json_text) (JStr json_line) = POk (-1)%Z.
Proof. repeat split; vm_compute; reflexivity. Qed.

(** Without a backslash in the snippet, the pattern compiles and the
    locator finds the snippet exactly when the text holds it with its runs
    of whitespace replaced by runs of whitespace. *)
Theorem snippet_found_iff (t s : jsstring) :
  t <> [] -> s <> [] -> no_backslash s ->
  (exists n, getLineNumber (JStr t) (JStr s) = POk n)
  /\ (getLineNumber (JStr t) (JStr s) <> POk (-1)%Z <->
      exists pre m post, t = pre ++ m ++ post /\ variant false s m).
Proof.
  intros Nt Ns Hs.
  destruct t as [|c t]; [congruence|]. destruct s as [|d s]; [congruence|].
  assert (Hr : RegExp_new (convertToRegexPattern (d :: s))
               = POk (regex_of false (d :: s)))
    by (rewrite convert_pattern; apply pattern_compiles; exact Hs).
  unfold getLineNumber. rewrite Hr. cbn [pbind].
  unfold exec, exec_from. cbn [Nat.ltb Nat.leb firstn skipn rev].
  destruct (search false (regex_of false (d :: s)) [] (c :: t)) as [[x z]|] eqn:S.
  - cbn [option_map]. split; [eexists; reflexivity|]. split.
    + intros _. apply search_some in S as (pre & post & El & -> & Hm & _).
      unfold match_here in Hm. apply mt_sound in Hm as (y & M & Hy).
      inversion Hy; subst y; clear Hy.
      apply matches_variant in M as (m & V & E & _). simpl in E.
      exists pre, m, (after z). split; [congruence | exact V].
    + intros _ H. inversion H. rewrite !split_on_length in H1. lia.
  - cbn [option_map]. split; [eexists; reflexivity|]. split.
    + intros H; congruence.
    + intros (pre & m & post & El & V). exfalso.
      pose proof (proj1 (search_none _ _ _ _) S pre (m ++ post) El) as Hn.
      assert (M : Matches false (regex_of false (d :: s))
                    (MState (rev pre ++ []) (m ++ post) [])
                    (read m post (MState (rev pre ++ []) (m ++ post) [])))
        by (apply variant_matches; [exact V | reflexivity]).
      destruct (mt_complete (fun y => Some y) M eq_refl) as (z' & Hz').
      unfold match_here in Hn. congruence.
Qed.

(** C6. A key or a last part named [__proto__] that the mapping does not
    hold is not reported as missing: the lookup reads it from
    [Object.prototype] and returns the text of an empty object, or of
    [null] when the part comes twice; so the record of an added line with
    the key [__proto__] carries that text and not the sentinel.  Apart from
    that: the lookup returns undefined for an absent mapping and, for a
    key without a part named [__proto__], a property named by the whole
    key wins over the dotted reading; otherwise the key is read as a path
    of dot-separated parts, the result is undefined as soon as a part is
    missing or the value reached is not an object, and a resolved string
    is returned as it is, a resolved object as its JSON text. *)
Theorem getNestedValue_reads_proto_from_the_prototype :
  (absent_from (RObj []) (str "__proto__")
   /\ getNestedValue (RObj []) (str "__proto__") = Some (str "{}"))
  /\ (absent_from translations (str "nested.__proto__")
      /\ getNestedValue translations (str "nested.__proto__") = Some (str "{}"))
  /\ (absent_from translations (str "__proto__.__proto__")
      /\ getNestedValue translations (str "__proto__.__proto__") = Some (str "null"))
  /\ parseTranslationChangesFromDiff proto_diff (RObj [])
     = [Change (str "de.json") (str "__proto__") (str "Prototyp") (str "{}")
          (qstr "  `__proto__`: `Prototyp`,")]
  /\ forall (obj : jsref) (k : jsstring),
       (obj = RNull \/ obj = RUndefined -> getNestedValue obj k = None)
       /\ (no_proto_part k -> forall props, obj = RObj props ->
             (forall v, own_property props k v ->
                getNestedValue obj k = Some (value_text v))
             /\ (no_own_property props k ->
                   (forall w, Resolves (JObject props) (split_on DOT k) w ->
                      getNestedValue obj k = Some (value_text w))
                   /\ ((exists pre part post u,
                          split_on DOT k = pre ++ part :: post
                          /\ Resolves (JObject props) pre u /\ missing_at u part) ->
                       getNestedValue obj k = None))).
Proof.
  assert (No : forall k w, ~ own_property [] k w).
  { intros k w (pre & post & E & _). destruct pre; discriminate. }
  split; [|split; [|split; [|split; [vm_compute; reflexivity|]]]].
  - split; [|reflexivity].
    intros w (props & E & [O | (_ & R)]); inversion E; subst props.
    + exact (No _ _ O).
    + vm_compute in R. inversion R as [|props' part' parts' v0 w' O R']; subst.
      exact (No _ _ O).
  - split; [|vm_compute; reflexivity].
    intros w (props & E & [O | (_ & R)]); inversion E; subst props.
    + apply lookup_own in O. vm_compute in O. discriminate.
    + change (split_on DOT (str "nested.__proto__"))
        with [str "nested"; str "__proto__"] in R.
      inversion R as [|props1 part1 parts1 v1 w1 O1 R1]; subst.
      apply lookup_own in O1. vm_compute in O1. inversion O1; subst v1.
      inversion R1 as [|props2 part2 parts2 v2 w2 O2 R2]; subst.
      apply lookup_own in O2. vm_compute in O2. discriminate.
  - split; [|vm_compute; reflexivity].
    intros w (props & E & [O | (_ & R)]); inversion E; subst props.
    + apply lookup_own in O. vm_compute in O. discriminate.
    + change (split_on DOT (str "__proto__.__proto__"))
        with [str "__proto__"; str "__proto__"] in R.
      inversion R as [|props1 part1 parts1 v1 w1 O1 R1]; subst.
      apply lookup_own in O1. vm_compute in O1. discriminate.
  - intros obj k. split.
    + intros [-> | ->]; reflexivity.
    + intros NP props ->. destruct (getNestedValue_own props NP) as (G1 & G2). split.
      * intros v O. apply G1. exists props. split; [reflexivity | left; exact O].
      * intros N. split.
        -- intros w R. apply G1. exists props.
           split; [reflexivity | right; split; assumption].
        -- intros S. apply G2.
           intros w (props' & E & [O | (_ & R)]); inversion E; subst props'.
           ++ eapply own_property_present; eauto.
           ++ eapply Resolves_not_stuck; eauto.
Qed.

(** C7 fails for a quoted destination path with a blank in it: the
    section has an added key/value line, its header names a path that ends
    in [.json], and no path is recovered and no record produced. *)
Lemma quoted_path_with_blank_is_not_recovered :
  sections spaced_path_diff = [spaced_path_section]
  /\ hd [] (split_on LF spaced_path_section)
     = qstr " `a/my file.json` `b/my file.json`"
  /\ (exists l, In l (split_on LF spaced_path_section)
                /\ qualifies l (str "starting_point") (str "Startpunkt"))
  /\ retainedFile spaced_path_section = None
  /\ ~ (exists c, In c (parseTranslationChangesFromDiff spaced_path_diff (RObj []))
                  /\ file c = str "my file.json").
Proof.
  split; [vm_compute; reflexivity|]. split; [vm_compute; reflexivity|].
  split.
  - exists (qstr "+  `starting_point`: `Startpunkt`,"). split.
    + vm_compute. do 4 right. left. reflexivity.
    + exists (qstr "  `starting_point`: `Startpunkt`,").
      split; [vm_compute; reflexivity|]. split; [vm_compute; reflexivity|].
      apply kvMatch_spec. vm_compute. reflexivity.
  - split; [vm_compute; reflexivity|].
    intros (c & Hin & _). vm_compute in Hin. exact Hin.
Qed.

(** C7, as the code has it. When the first line of a section ends in a
    whitespace character, [b/] and a path made of at least one character
    and [.json], without whitespace or double quote in it, with or without
    double quotes around [b/path] and with or without whitespace after it,
    the path recovered is that path without the quotes, the section is
    retained unless the path is [en.json], and every record of the section
    carries the path; the diff of [zh-CN.json] with quoted paths gives a
    record of the file [zh-CN.json]. *)
Theorem section_path_recovered (ref : jsref) (pre : jsstring) (w : char)
    (q1 stem q2 trail body section : jsstring) :
  let p := stem ++ DOT_JSON in
  let firstLine := pre ++ [w] ++ q1 ++ B_SLASH ++ p ++ q2 ++ trail in
  is_space w = true -> quote_opt q1 -> quote_opt q2 ->
  stem <> [] -> all_in path_char stem -> all_in is_space trail ->
  ~ In LF firstLine ->
  section = firstLine \/ section = firstLine ++ LF :: body ->
  (exists m, exec false fileRegex (hd [] (split_on LF section)) = Some m
             /\ group 1 m = p)
  /\ (p <> str "en.json" -> retainedFile section = Some p)
  /\ (forall c, In c (scanSection ref [] section) -> file c = p)
  /\ map file (parseTranslationChangesFromDiff zh_diff englishTranslations)
     = [str "zh-CN.json"].
Proof.
  intros p firstLine Hw Q1 Q2 N Hs Ht Hl Hsec.
  assert (Hfl : hd [] (split_on LF section) = firstLine).
  { destruct (split_on_hd LF firstLine Hl) as (H1 & H2).
    destruct Hsec as [-> | ->]; [exact H1 | apply H2]. }
  destruct (@fileMatch_found pre w q1 stem q2 trail Hw Q1 N Hs Q2 Ht) as (m & Em & Gm).
  assert (Em' : exec false fileRegex (hd [] (split_on LF section)) = Some m).
  { rewrite Hfl. unfold firstLine, p. repeat rewrite <- app_assoc. exact Em. }
  assert (Hret : retainedFile section = if jseqb p (str "en.json") then None else Some p).
  { unfold retainedFile. rewrite Em'. cbn zeta. rewrite Gm.
    fold p. unfold p at 1. rewrite endsWith_app. reflexivity. }
  split; [exists m; auto|]. split; [|split; [|vm_compute; reflexivity]].
  - intros Hne. rewrite Hret. apply jseqb_neq in Hne. rewrite Hne. reflexivity.
  - intros c Hc. rewrite scanSection_acc in Hc. simpl in Hc.
    unfold section_changes in Hc. rewrite Hret in Hc.
    destruct (jseqb p (str "en.json")); [contradiction|].
    apply in_flat_map in Hc as (l & _ & Hc).
    destruct (scanLine_cases ref p l) as [(k & v & _ & E) | (_ & E)];
      rewrite E in Hc; [|contradiction].
    destruct Hc as [<- | []]. reflexivity.
Qed.

Lemma section_path_recovered_witness :
  (exists m, exec false fileRegex (hd [] (split_on LF zh_section)) = Some m
             /\ group 1 m = str "zh-CN.json")
  /\ (str "zh-CN.json" <> str "en.json" ->
      retainedFile zh_section = Some (str "zh-CN.json"))
  /\ (forall c, In c (scanSection (RObj []) [] zh_section) ->
        file c = str "zh-CN.json")
  /\ map file (parseTranslationChangesFromDiff zh_diff englishTranslations)
     = [str "zh-CN.json"].
Proof.
  apply (@section_path_recovered (RObj []) (qstr " `a/zh-CN.json`") 32%N [DQ]
           (str "zh-CN") [DQ] []
           (qstr "--- `a/zh-CN.json`
+++ `b/zh-CN.json`
@@ -1,3 +1,3 @@
+  `starting_point`: `x`,") zh_section).
  - reflexivity.
  - right; reflexivity.
  - right; reflexivity.
  - discriminate.
  - repeat constructor.
  - constructor.
  - vm_compute. intuition discriminate.
  - right. vm_compute. reflexivity.
Defined.

(** C8. Every record names a file that ends in [.json] and is not
    [en.json], and has a key that is not empty. *)
Theorem parse_record_invariants (diff : jsstring) (ref : jsref) (c : change) :
  In c (parseTranslationChangesFromDiff diff ref) ->
  endsWith (file c) (str ".json") = true
  /\ file c <> str "en.json"
  /\ key c <> [].
Proof.
  intros H. apply parse_In in H as (section & f & l & k & v & _ & R & _ & Q & ->).
  apply retainedFile_checks in R as (E1 & E2).
  destruct Q as (content & _ & _ & (ws1 & ws2 & rest & _ & _ & N & _)).
  simpl; auto.
Qed.

Lemma parse_record_invariants_witness :
  In title_change (parseTranslationChangesFromDiff title_diff title_ref)
  /\ endsWith (file title_change) (str ".json") = true
  /\ file title_change <> str "en.json"
  /\ key title_change <> [].
Proof.
  assert (Hin : In title_change (parseTranslationChangesFromDiff title_diff title_ref))
    by (vm_compute; left; reflexivity).
  split; [exact Hin|].
  apply (parse_record_invariants title_diff title_ref title_change Hin).
Defined.

(** C9. An empty or absent input comes back as it is; a text without
    headers comes back unchanged; otherwise the text is its preamble
    followed by one span for each header, and the result is the preamble
    followed by the spans that are kept, each as it is and in the order of
    the text. *)
Theorem filter_keeps_order :
  filterDiffByIgnoredFiles JNull = Some JNull
  /\ filterDiffByIgnoredFiles JUndefined = Some JUndefined
  /\ filterDiffByIgnoredFiles (JStr []) = Some (JStr [])
  /\ forall d : jsstring,
       collect_headers (S (length d)) d 0 = Some (headers d)
       /\ (headers d = [] -> filterDiffByIgnoredFiles (JStr d) = Some (JStr d))
       /\ d = preamble d (headers d) ++ concat (map snd (spans d (headers d)))
       /\ map fst (spans d (headers d)) = headers d
       /\ filterDiffByIgnoredFiles (JStr d)
          = Some (JStr (preamble d (headers d)
                        ++ concat (map snd (filter kept (spans d (headers d)))))).
Proof.
  repeat split.
  - apply headers_spec.
  - intros E. destruct d as [|c d]; [reflexivity|].
    unfold filterDiffByIgnoredFiles. rewrite (proj1 (headers_spec _)), E. reflexivity.
  - eapply preamble_spans. apply headers_spec.
  - induction (headers d) as [|h rest IH]; simpl; [reflexivity | rewrite IH; reflexivity].
  - destruct d as [|c d]; [reflexivity|].
    unfold filterDiffByIgnoredFiles. rewrite (proj1 (headers_spec _)).
    destruct (headers (c :: d)) as [|h0 rest] eqn:E.
    + simpl. rewrite app_nil_r. reflexivity.
    + rewrite append_kept_spans. cbn [preamble]. unfold slice.
      destruct (h_index h0) as [|n] eqn:En.
      * reflexivity.
      * cbn [Nat.ltb Nat.leb]. rewrite Nat.sub_0_r. reflexivity.
Qed.

(** C10. For a text with a whitespace character and a snippet made of
    whitespace only, the pattern is one-or-more whitespace, the match is
    the first run of whitespace of the text, taken whole, and the result is
    the line number after the newlines before and inside that run, never
    -1. *)
Theorem whitespace_snippet_is_found (t s : jsstring) :
  t <> [] -> s <> [] -> all_in is_space s ->
  Exists (fun c => is_space c = true) t ->
  exists pre run post,
    t = pre ++ run ++ post
    /\ all_in not_space pre
    /\ run <> [] /\ all_in is_space run /\ stops is_space post
    /\ convertToRegexPattern s = str "\s+"
    /\ getLineNumber (JStr t) (JStr s)
       = POk (Z.of_nat (count_char LF pre) + Z.of_nat (S (count_char LF run)))%Z
    /\ getLineNumber (JStr t) (JStr s) <> POk (-1)%Z.
Proof.
  intros Nt Ns Hs Hex.
  destruct (span_spec not_space t) as (E1 & P1 & S1).
  destruct (span not_space t) as [pre rest]. simpl in E1, P1, S1.
  destruct (span_spec is_space rest) as (E2 & P2 & S2).
  destruct (span is_space rest) as [run post]. simpl in E2, P2, S2.
  assert (Nr : run <> []).
  { destruct rest as [|c rest'].
    - exfalso. rewrite app_nil_r in E1. subst t.
      apply Exists_exists in Hex as (c & Hin & Hc).
      pose proof (proj1 (Forall_forall _ _) P1 c Hin) as P1c.
      unfold not_space in P1c. rewrite Hc in P1c. discriminate.
    - unfold not_space in S1. apply negb_false_iff in S1.
      destruct run as [|d run]; [|discriminate].
      simpl in E2. subst post. simpl in S2. congruence. }
  assert (G : getLineNumber (JStr t) (JStr s)
              = POk (Z.of_nat (count_char LF pre) + Z.of_nat (S (count_char LF run)))%Z).
  { destruct t as [|c t]; [congruence|]. destruct s as [|d s]; [congruence|].
    assert (Hr : RegExp_new (convertToRegexPattern (d :: s)) = POk (Seq whitespaceRun Eps))
      by (rewrite convert_spaces by assumption; apply whitespace_pattern_compiles).
    assert (Hm : match_at (Seq whitespaceRun Eps) (c :: t) (length pre)
                 = Some (MState (rev run ++ rev pre ++ []) post [])).
    { rewrite E1, match_at_split, E2.
      apply (plus_match_here false CSpace); assumption. }
    rewrite (@getLineNumber_found c t d s _ (length pre)
               (MState (rev run ++ rev pre ++ []) post []) Hr).
    - f_equal. unfold text_of. rewrite E1 at 1 2.
      rewrite firstn_app, Nat.sub_diag, firstn_all. simpl firstn. rewrite app_nil_r.
      rewrite (@consumed_length _ _ run); [lia|].
      cbn [before]. rewrite app_nil_r. reflexivity.
    - rewrite E1, length_app. lia.
    - exact Hm.
    - intros j Lj. unfold match_at. rewrite E1.
      rewrite skipn_app. replace (j - length pre) with 0 by lia. simpl skipn.
      apply (plus_match_none false CSpace).
      destruct (skipn j pre) as [|e q] eqn:Ek.
      + apply (f_equal (@length _)) in Ek. rewrite length_skipn in Ek. simpl in Ek. lia.
      + simpl. assert (He : In e pre).
        { rewrite <- (firstn_skipn j pre), Ek. apply in_or_app; right; left; reflexivity. }
        pose proof (proj1 (Forall_forall _ _) P1 e He) as P1e.
        unfold not_space in P1e. apply negb_true_iff in P1e. exact P1e. }
  exists pre, run, post. repeat split; auto.
  - congruence.
  - apply convert_spaces; assumption.
  - rewrite G. intros H; inversion H. lia.
Qed.

Lemma whitespace_snippet_is_found_witness :
  exists pre run post,
    str "a
 b" = pre ++ run ++ post
    /\ all_in not_space pre
    /\ run <> [] /\ all_in is_space run /\ stops is_space post
    /\ convertToRegexPattern (str "  ") = str "\s+"
    /\ getLineNumber (JStr (str "a
 b")) (JStr (str "  "))
       = POk (Z.of_nat (count_char LF pre) + Z.of_nat (S (count_char LF run)))%Z
    /\ getLineNumber (JStr (str "a
 b")) (JStr (str "  ")) <> POk (-1)%Z.
Proof.
  apply (@whitespace_snippet_is_found (str "a
 b") (str "  ")).
  - discriminate.
  - discriminate.
  - repeat constructor.
  - apply Exists_cons_tl. apply Exists_cons_hd. reflexivity.
Defined.

(** ** Further properties of the operations and of their callers *)

Lemma snippet_found_iff_witness :
  (exists n, getLineNumber (JStr (str "let x = 1;")) (JStr (str "x  =  1")) = POk n)
  /\ (getLineNumber (JStr (str "let x = 1;")) (JStr (str "x  =  1")) <> POk (-1)%Z <->
      exists pre m post,
        str "let x = 1;" = pre ++ m ++ post /\ variant false (str "x  =  1") m).
Proof.
  apply (@snippet_found_iff (str "let x = 1;") (str "x  =  1")).
  - discriminate.
  - discriminate.
  - repeat (constructor; [discriminate|]). constructor.
Defined.

(** X2. A number returned by the locator is -1 or the number of a line
    of the text: at least 1 and at most the number of lines. *)
Theorem line_number_is_in_range (text searchString : jsarg) (z : Z) :
  getLineNumber text searchString = POk z ->
  z = (-1)%Z
  \/ exists t, text = JStr t
       /\ (1 <= z <= Z.of_nat (length (split_on LF t)))%Z.
Proof. apply getLineNumber_in_range. Qed.

Lemma line_number_is_in_range_witness :
  getLineNumber (JStr json_text) (JStr (qstr "  `greeting`: `Hello")) = POk 2%Z
  /\ (2%Z = (-1)%Z
      \/ exists t, JStr json_text = JStr t
           /\ (1 <= 2 <= Z.of_nat (length (split_on LF t)))%Z).
Proof.
  assert (H : getLineNumber (JStr json_text) (JStr (qstr "  `greeting`: `Hello"))
              = POk 2%Z) by (vm_compute; reflexivity).
  split; [exact H|].
  apply (@line_number_is_in_range _ _ 2%Z H).
Defined.

(** X3. A snippet that ends in a backslash, with no other backslash in
    it, gives a pattern that ends in a backslash; the RegExp constructor
    rejects it, so the locator throws a SyntaxError instead of returning a
    number. *)
Theorem trailing_backslash_is_a_syntax_error (t s : jsstring) :
  t <> [] -> no_backslash s ->
  convertToRegexPattern (s ++ [BACKSLASH]) = convertToRegexPattern s ++ [BACKSLASH]
  /\ RegExp_new (convertToRegexPattern (s ++ [BACKSLASH])) = PSyntaxError
  /\ getLineNumber (JStr t) (JStr (s ++ [BACKSLASH])) = PSyntaxError.
Proof.
  intros Nt Hs.
  assert (E : RegExp_new (convertToRegexPattern (s ++ [BACKSLASH])) = PSyntaxError).
  { rewrite convert_pattern, pattern_of_snoc. unfold RegExp_new.
    change (4 + 4 * length (pattern_of false s ++ [BACKSLASH]))
      with (S (3 + 4 * length (pattern_of false s ++ [BACKSLASH]))).
    rewrite parse_disjunction_step, parse_pattern_snoc; [reflexivity | exact Hs |].
    rewrite length_app. simpl. lia. }
  split; [rewrite !convert_pattern; apply pattern_of_snoc|]. split; [exact E|].
  destruct t as [|c t]; [congruence|].
  unfold getLineNumber. destruct (s ++ [BACKSLASH]) as [|d s'] eqn:Es.
  - destruct s; discriminate.
  - rewrite E. reflexivity.
Qed.

Lemma trailing_backslash_is_a_syntax_error_witness :
  convertToRegexPattern (str "a.b" ++ [BACKSLASH])
  = convertToRegexPattern (str "a.b") ++ [BACKSLASH]
  /\ RegExp_new (convertToRegexPattern (str "a.b" ++ [BACKSLASH])) = PSyntaxError
  /\ getLineNumber (JStr (str "a.b\")) (JStr (str "a.b" ++ [BACKSLASH])) = PSyntaxError.
Proof.
  apply (@trailing_backslash_is_a_syntax_error (str "a.b\") (str "a.b")).
  - discriminate.
  - repeat (constructor; [discriminate|]). constructor.
Defined.

(** X4. A snippet without whitespace and without a backslash is found
    where it first occurs word for word, special characters included: the
    result is the number of the line on which that occurrence ends. *)
Theorem literal_snippet_is_found_where_it_first_occurs (t s : jsstring) (i : nat) :
  s <> [] -> no_space s -> no_backslash s -> first_at t s i = true ->
  getLineNumber (JStr t) (JStr s)
  = POk (Z.of_nat (S (count_char LF (firstn (i + length s) t)))).
Proof.
  intros Ns Hsp Hb Hf.
  destruct (first_at_spec _ _ _ Hf) as (post & E & Li & Hfirst).
  destruct (@app_length_split _ t (firstn i t) (s ++ post) E) as (_ & Es).
  rewrite Li in Es.
  rewrite E at 1. rewrite literal_snippet_line; auto.
  - do 3 f_equal. rewrite firstn_add, Es, firstn_app, Nat.sub_diag, firstn_all.
    simpl. rewrite app_nil_r. reflexivity.
  - intros pre' post' E'. rewrite Li. apply (Hfirst pre' post').
    rewrite E. exact E'.
Qed.

Lemma literal_snippet_is_found_where_it_first_occurs_witness :
  first_at codeWithDuplicates (str "console.log('middle');") 22 = true
  /\ getLineNumber (JStr codeWithDuplicates) (JStr (str "console.log('middle');"))
     = POk (Z.of_nat (S (count_char LF
              (firstn (22 + length (str "console.log('middle');")) codeWithDuplicates)))).
Proof.
  split; [vm_compute; reflexivity|].
  apply (@literal_snippet_is_found_where_it_first_occurs
           codeWithDuplicates (str "console.log('middle');") 22).
  - discriminate.
  - repeat (constructor; [reflexivity|]). constructor.
  - repeat (constructor; [discriminate|]). constructor.
  - vm_compute. reflexivity.
Defined.

(** X5. The two replacements of the pattern conversion amount to one
    pass over the snippet: a character that is not whitespace is copied,
    with a backslash in front of it when it is one of the special
    characters, and every run of whitespace becomes the three characters of
    the whitespace matcher; so the pattern holds no whitespace. *)
Theorem pattern_is_the_escaped_snippet (s : jsstring) :
  convertToRegexPattern s = pattern_of false s
  /\ all_in not_space (convertToRegexPattern s).
Proof.
  split; [apply convert_pattern|].
  rewrite convert_pattern. apply pattern_of_no_space.
Qed.

(** X6. The ignore pattern accepts a path exactly when the path is one of
    the three ignored file names, with any character that is not a line
    terminator where the name has a dot, or starts with [node_modules/];
    so a path with a directory in front of an ignored name is not
    ignored. *)
Theorem ignored_paths (path : jsstring) :
  test false ignoredRegex path = ignored path.
Proof. apply ignoredRegex_test. Qed.

(** X7. The clean-up of a captured path removes the double quote that
    starts it and the double quote that ends it, and nothing else. *)
Theorem path_cleanup_strips_quotes (g : jsstring) :
  replace_all false quoteEnds (fun _ => []) g = strip_quotes g.
Proof. apply quoteEnds_strip. Qed.

(** X8. Every header the filter works with sits at the start of a line of
    the text that begins with [diff --git ] and ends, at the end of the
    line, in [b/], the captured text and an optional double quote; the
    path of the header is the captured text without the quotes around
    it. *)
Theorem headers_are_header_lines (d : jsstring) (h : header) :
  In h (headers d) ->
  exists pre g,
    header_at d pre g /\ length pre = h_index h /\ h_path h = strip_quotes g.
Proof.
  intros Hin. destruct (headers_spec d) as (Hc & _).
  destruct (@collect_headers_In d h _ _ _ Hc Hin) as (from & m & E & Ei & Ep).
  apply exec_from_bounds in E as (_ & B & z & M & _ & Eg & A).
  apply header_reads in M as (mid & g & q & Ea & Hb & Ng & Hg & Hq & He & Cz).
  cbn [after] in Ea.
  exists (firstn (h_index h) d), g. rewrite Ei. split; [|split].
  - exists mid, q, (after z). split.
    + rewrite <- Ea. symmetry. apply firstn_skipn.
    + split; [apply (@at_bol_line _ (skipn (index m) d) []); exact Hb | auto].
  - rewrite length_firstn; lia.
  - rewrite Ep, quoteEnds_strip. unfold group. rewrite Eg, Cz. reflexivity.
Qed.

Lemma headers_are_header_lines_witness :
  In (Header 126 (str "yarn.lock")) (headers yarn_diff)
  /\ exists pre g,
       header_at yarn_diff pre g /\ length pre = 126
       /\ str "yarn.lock" = strip_quotes g.
Proof.
  assert (H : In (Header 126 (str "yarn.lock")) (headers yarn_diff))
    by (vm_compute; right; left; reflexivity).
  split; [exact H|].
  apply (@headers_are_header_lines yarn_diff (Header 126 (str "yarn.lock")) H).
Defined.

(** X9. The header loop misses nothing: its headers are, in the order of
    the text, the headers of all the positions where the header pattern
    matches. *)
Theorem header_loop_finds_every_header (d : jsstring) :
  headers d = scan_headers 0 [] d
  /\ forall h, In h (headers d) <->
       exists pre post z,
         d = pre ++ post
         /\ match_here true headerRegex (MState (rev pre) post []) = Some z
         /\ h = header_of (length pre) z.
Proof.
  split; [apply headers_scan|].
  intros h. rewrite headers_scan, scan_In. split.
  - intros (pre & post & z & E & Hm & ->). rewrite app_nil_r in Hm.
    exists pre, post, z. split; [exact E|]. split; [exact Hm | reflexivity].
  - intros (pre & post & z & E & Hm & ->). exists pre, post, z.
    rewrite app_nil_r. split; [exact E|]. split; [exact Hm | reflexivity].
Qed.

(** X10. A text in which no header names an ignored path comes back
    unchanged. *)
Theorem filter_without_ignored_paths_is_identity (d : jsstring) :
  forallb (fun h => negb (ignored (h_path h))) (headers d) = true ->
  filterDiffByIgnoredFiles (JStr d) = Some (JStr d).
Proof.
  intros H. apply filter_without_ignored_paths. intros h Hin.
  pose proof (proj1 (forallb_forall _ _) H h Hin) as Hh.
  apply negb_true_iff in Hh. exact Hh.
Qed.

Lemma filter_without_ignored_paths_is_identity_witness :
  filterDiffByIgnoredFiles (JStr png_diff) = Some (JStr png_diff).
Proof.
  apply (@filter_without_ignored_paths_is_identity png_diff).
  vm_compute. reflexivity.
Defined.

(** X11. Filtering is idempotent: every header of a filtered text has the
    path of a header of the text it comes from, that path is not ignored,
    and filtering the filtered text gives it back unchanged. *)
Theorem filter_is_idempotent (d d' : jsstring) :
  filterDiffByIgnoredFiles (JStr d) = Some (JStr d') ->
  (forall h, In h (headers d') ->
     exists h0, In h0 (headers d) /\ h_path h = h_path h0 /\ ignored (h_path h) = false)
  /\ filterDiffByIgnoredFiles (JStr d') = Some (JStr d').
Proof. apply filter_twice. Qed.

Lemma filter_is_idempotent_witness :
  (forall h, In h (headers review_kept) ->
     exists h0, In h0 (headers review_diff) /\ h_path h = h_path h0
                /\ ignored (h_path h) = false)
  /\ filterDiffByIgnoredFiles (JStr review_kept) = Some (JStr review_kept).
Proof.
  apply (@filter_is_idempotent review_diff review_kept).
  vm_compute. reflexivity.
Defined.

(** X12. The changes of two texts joined where a section starts are the
    changes of the first followed by the changes of the second. *)
Theorem changes_of_joined_diffs (a b : jsstring) (ref : jsref) :
  line_start (rev a) = true -> startsWith b DIFF_GIT = true ->
  parseTranslationChangesFromDiff (a ++ b) ref
  = parseTranslationChangesFromDiff a ref ++ parseTranslationChangesFromDiff b ref.
Proof.
  intros Ha Hb. rewrite !parse_sections, sections_app by assumption.
  apply flat_map_app.
Qed.

Lemma changes_of_joined_diffs_witness :
  parseTranslationChangesFromDiff (de_part ++ fr_part) englishTranslations
  = parseTranslationChangesFromDiff de_part englishTranslations
    ++ parseTranslationChangesFromDiff fr_part englishTranslations.
Proof.
  apply (@changes_of_joined_diffs de_part fr_part englishTranslations).
  - vm_compute. reflexivity.
  - vm_compute. reflexivity.
Defined.

(** X13. The changes of a text are the changes of its preamble followed
    by the changes of its spans, one after the other; the changes of the
    filtered text are the same without the changes of the spans that the
    filter drops, so filtering adds no change and keeps their order. *)
Theorem filter_drops_the_records_of_ignored_spans (d : jsstring) (ref : jsref) :
  let changes_of s := parseTranslationChangesFromDiff s ref in
  changes_of d
  = changes_of (preamble d (headers d))
    ++ flat_map (fun sp => changes_of (snd sp)) (spans d (headers d))
  /\ exists d',
       filterDiffByIgnoredFiles (JStr d) = Some (JStr d')
       /\ changes_of d'
          = changes_of (preamble d (headers d))
            ++ flat_map (fun sp => changes_of (snd sp))
                 (filter kept (spans d (headers d)))
       /\ forall c, In c (changes_of d') -> In c (changes_of d).
Proof.
  intros changes_of.
  destruct (headers_spec d) as (Hc & Hi).
  assert (Hok : Forall (header_ok d) (headers d))
    by (apply Forall_forall; intros h Hin; apply headers_ok; exact Hin).
  destruct (@spans_blocks d (headers d) 0 Hi Hok) as (Hs & Hcl).
  assert (Hp : spans d (headers d) <> [] ->
               line_start (rev (preamble d (headers d))) = true).
  { intros N. destruct (headers d) as [|h0 rest] eqn:E; [elim N; reflexivity|].
    inversion Hok as [|h' r' (_ & B & _) _]; subst. exact B. }
  assert (E1 : changes_of d
               = changes_of (preamble d (headers d))
                 ++ flat_map (fun sp => changes_of (snd sp)) (spans d (headers d))).
  { unfold changes_of. rewrite (@preamble_spans d (headers d) 0 Hi) at 1.
    apply parse_blocks; assumption. }
  assert (E2 : changes_of (preamble d (headers d)
                           ++ concat (map snd (filter kept (spans d (headers d)))))
               = changes_of (preamble d (headers d))
                 ++ flat_map (fun sp => changes_of (snd sp))
                      (filter kept (spans d (headers d)))).
  { unfold changes_of. apply parse_blocks.
    - apply Forall_filter_snd. exact Hs.
    - apply closed_blocks_filter. exact Hcl.
    - intros N. apply Hp. intros E. rewrite E in N. apply N. reflexivity. }
  split; [exact E1|].
  eexists. split; [apply filter_result|]. split; [exact E2|].
  intros c Hin. rewrite E2 in Hin. rewrite E1.
  apply in_app_or in Hin as [Hin | Hin]; apply in_or_app; [left; exact Hin|].
  right. apply in_flat_map in Hin as (sp & Hsp & Hin).
  apply in_flat_map. exists sp. split; [|exact Hin].
  apply filter_In in Hsp. apply Hsp.
Qed.

(** X14. The file loop always finishes, and every file whose content is
    kept for the line lookup has a content that is not null, a path that
    ends in [.json] and is not ignored, and comes from a header line of the
    text that is followed by a line feed and by a next line that does not
    begin with [deleted file mode]; the path is the captured text without
    the quotes around it. *)
Theorem touched_files_are_changed_translation_files
    (getFileContent : jsstring -> jsstring -> option jsstring)
    (diff commit : jsstring) :
  exists fileContents,
    getTouchedFilesContent getFileContent diff commit = Some fileContents
    /\ forall f, In f fileContents ->
         content f = getFileContent (path f) commit /\ content f <> None
         /\ endsWith (path f) (str ".json") = true /\ ignored (path f) = false
         /\ exists pre g, touched_at diff pre g /\ path f = strip_quotes g.
Proof.
  unfold getTouchedFilesContent.
  destruct (@collect_files_total diff (S (length diff)) 0 []) as (added & Ht & Ha);
    [lia | lia |].
  rewrite Ht. simpl app. eexists. split; [reflexivity|].
  intros f Hin. apply filter_In in Hin as (Hin & Hc).
  apply in_map_iff in Hin as (p & <- & Hp). cbn [path content].
  split; [reflexivity|]. split.
  - unfold has_content in Hc. cbn [content] in Hc.
    destruct (getFileContent p commit); [discriminate | discriminate].
  - destruct (Ha p Hp) as (H1 & H2 & pre & g & H3 & _ & H4).
    split; [exact H1|]. split; [exact H2|]. exists pre, g. auto.
Qed.

(** X15. Every file that is fetched for the line lookup is named by a
    header of the text as the filter reads it: where the file pattern
    matches, the header pattern matches too and captures the same path. *)
Theorem touched_files_are_named_by_headers
    (getFileContent : jsstring -> jsstring -> option jsstring)
    (diff commit : jsstring) :
  exists fileContents,
    getTouchedFilesContent getFileContent diff commit = Some fileContents
    /\ forall f, In f fileContents ->
         exists h, In h (headers diff) /\ h_path h = path f
                   /\ ignored (h_path h) = false.
Proof.
  unfold getTouchedFilesContent.
  destruct (@collect_files_total diff (S (length diff)) 0 []) as (added & Ht & Ha);
    [lia | lia |].
  rewrite Ht. simpl app. eexists. split; [reflexivity|].
  intros f Hin. apply filter_In in Hin as (Hin & _).
  apply in_map_iff in Hin as (p & <- & Hp). cbn [path].
  destruct (Ha p Hp) as (_ & Hi & pre & g & _ & Hm & ->).
  destruct (touched_file_has_a_header Hm) as (h & Hh & _ & Ep).
  exists h. rewrite Ep. auto.
Qed.

(** X16. The review filters the text before it looks for the files to
    fetch: every file fetched from the filtered text is named by a header
    of the text before filtering, its path is not ignored and ends in
    [.json]. *)
Theorem review_fetches_files_of_kept_sections
    (getFileContent : jsstring -> jsstring -> option jsstring)
    (diff filteredDiff commit : jsstring) :
  filterDiffByIgnoredFiles (JStr diff) = Some (JStr filteredDiff) ->
  exists fileContents,
    getTouchedFilesContent getFileContent filteredDiff commit = Some fileContents
    /\ forall f, In f fileContents ->
         exists h0, In h0 (headers diff) /\ h_path h0 = path f
                    /\ ignored (path f) = false
                    /\ endsWith (path f) (str ".json") = true.
Proof.
  intros Hf. destruct (@filter_twice diff filteredDiff Hf) as (Hh & _).
  unfold getTouchedFilesContent.
  destruct (@collect_files_total filteredDiff (S (length filteredDiff)) 0 [])
    as (added & Ht & Ha); [lia | lia |].
  rewrite Ht. simpl app. eexists. split; [reflexivity|].
  intros f Hin. apply filter_In in Hin as (Hin & _).
  apply in_map_iff in Hin as (p & <- & Hp). cbn [path].
  destruct (Ha p Hp) as (Hj & Hi & pre & g & _ & Hm & ->).
  destruct (touched_file_has_a_header Hm) as (h & Hh1 & _ & Ep).
  destruct (Hh h Hh1) as (h0 & Hh0 & E0 & _).
  exists h0. split; [exact Hh0|]. split; [congruence|]. split; assumption.
Qed.

Lemma review_fetches_files_of_kept_sections_witness :
  exists fileContents,
    getTouchedFilesContent (fun _ _ => Some []) review_kept [] = Some fileContents
    /\ forall f, In f fileContents ->
         exists h0, In h0 (headers review_diff) /\ h_path h0 = path f
                    /\ ignored (path f) = false
                    /\ endsWith (path f) (str ".json") = true.
Proof.
  apply (@review_fetches_files_of_kept_sections (fun _ _ => Some [])
           review_diff review_kept []).
  vm_compute. reflexivity.
Defined.

(** X17. One step of the loop over the issues. When no fetched file has
    the path of the issue, the issue stays as it is. Otherwise the first
    fetched file with that path is searched for the line content: when the
    pattern of the line content is rejected, the issue stays as it is; when
    the search gives -1, the line number becomes -1 and the path and the
    line content are appended to the comment; when it gives another number,
    that number becomes the line number, it is the number of a line of the
    file, and the comment stays as it is. Path and line content are kept in
    every case, and for a line content without a backslash the pattern is
    never rejected. *)
Theorem issue_step_sets_the_line_number
    (fileContents : list fileContent) (e : issue) :
  ((forall f, In f fileContents -> path f <> filePath e) ->
     locateIssue fileContents e = POk e)
  /\ (forall pre f post,
        fileContents = pre ++ f :: post -> path f = filePath e ->
        (forall g, In g pre -> path g <> filePath e) ->
        (getLineNumber (text_arg (content f)) (JStr (lineContent e)) = PSyntaxError ->
           locateIssue fileContents e = POk e)
        /\ (getLineNumber (text_arg (content f)) (JStr (lineContent e)) = POk (-1)%Z ->
              locateIssue fileContents e
              = POk (Issue (filePath e) (lineContent e)
                       (comment e ++ notFoundNote (filePath e) (lineContent e))
                       (Some (-1)%Z)))
        /\ (forall n,
              getLineNumber (text_arg (content f)) (JStr (lineContent e)) = POk n ->
              n <> (-1)%Z ->
              locateIssue fileContents e
              = POk (Issue (filePath e) (lineContent e) (comment e) (Some n))
              /\ exists t, content f = Some t
                   /\ (1 <= n <= Z.of_nat (length (split_on LF t)))%Z)
        /\ (no_backslash (lineContent e) ->
              exists n,
                getLineNumber (text_arg (content f)) (JStr (lineContent e)) = POk n))
  /\ locateIssue de_contents greeting_issue = POk greeting_located.
Proof.
  split; [|split; [|vm_compute; reflexivity]].
  - intros H. unfold locateIssue. rewrite (@find_no_path _ _ H). reflexivity.
  - intros pre f post E Ep Hpre. unfold locateIssue.
    rewrite (@find_first _ _ pre f post E Ep Hpre).
    split; [intros ->; reflexivity|].
    split; [intros ->; reflexivity|]. split.
    + intros n En Nn. rewrite En.
      assert (Eb : Z.eqb n (-1) = false) by (apply Z.eqb_neq; exact Nn).
      rewrite Eb. split; [reflexivity|].
      destruct (getLineNumber_in_range _ _ En) as [-> | (t & Et & Hn)]; [contradiction|].
      exists t. split; [|exact Hn].
      destruct (content f); simpl in Et; [inversion Et; reflexivity | discriminate].
    + intros Hs.
      destruct (content f) as [[|c t]|]; cbn [text_arg];
        try (exists (-1)%Z; reflexivity).
      destruct (lineContent e) as [|d s] eqn:El; [exists (-1)%Z; reflexivity|].
      unfold getLineNumber. rewrite convert_pattern, (pattern_compiles Hs).
      cbn [pbind]. destruct (exec false _ _); eexists; reflexivity.
Qed.

(** X18. The fields of a record go together: the [line] field holds no
    line feed and reads as whitespace, the record's key in double quotes,
    a colon, whitespace, the record's value in double quotes and a rest;
    the key holds no double quote, the value no line terminator; and the
    English value is never the empty string. *)
Theorem record_fields_read_off_the_line (diff : jsstring) (ref : jsref)
    (c : change) :
  In c (parseTranslationChangesFromDiff diff ref) ->
  kv_shape (line c) (key c) (value c)
  /\ ~ In LF (line c)
  /\ all_in not_dq (key c)
  /\ all_in not_newline (value c)
  /\ englishValue c <> [].
Proof.
  intros H.
  apply parse_In in H as (section & f & l & k & v & _ & _ & Hl & Q & ->).
  destruct Q as (content & -> & _ & K). cbn [record_of line key value englishValue skipn].
  split; [exact K|]. split.
  - intros Hin. apply (split_on_no_sep _ _ _ Hl). right. exact Hin.
  - destruct K as (ws1 & ws2 & rest & _ & _ & _ & Hk & _ & Hv & _).
    split; [exact Hk|]. split; [exact Hv|].
    destruct (getNestedValue ref k) as [[|a s]|]; cbn [or_else]; discriminate.
Qed.

Lemma record_fields_read_off_the_line_witness :
  kv_shape (line title_change) (key title_change) (value title_change)
  /\ ~ In LF (line title_change)
  /\ all_in not_dq (key title_change)
  /\ all_in not_newline (value title_change)
  /\ englishValue title_change <> [].
Proof.
  apply (@record_fields_read_off_the_line title_diff title_ref title_change).
  vm_compute. left. reflexivity.
Defined.

(** ** The cases of the test suite *)

(** The source of the ignore pattern is accepted by the constructor, so
    [ignoredRegex] is the compiled pattern and not a default. *)
Lemma ignoredRegex_compiles : RegExp_new ignoredSource = POk ignoredRegex.
Proof. vm_compute. reflexivity. Qed.

Example test_nested_simple :
  getNestedValue translations (str "simple_key") = Some (str "Simple value")
  /\ getNestedValue translations (str "non_existent") = None
  /\ getNestedValue RNull (str "key") = None
  /\ getNestedValue RUndefined (str "key") = None
  /\ getNestedValue translations (str "nested.child") = Some (str "Nested value")
  /\ getNestedValue translations (str "nested.deep.key") = Some (str "Deep nested value")
  /\ getNestedValue translations (str "charger")
     = Some (qstr "{`zero`:`No charges`,`one`:`One charge`,`other`:`{{count}} charges`}").
Proof. repeat split; vm_compute; reflexivity. Qed.

Example test_parse_simple :
  parseTranslationChangesFromDiff de_diff englishTranslations
  = [Change (str "de.json") (str "starting_point") (str "Startpunkt")
       (str "Starting point") (qstr "  `starting_point`: `Startpunkt`,")].
Proof. vm_compute; reflexivity. Qed.

Example test_parse_skips :
  parseTranslationChangesFromDiff en_diff englishTranslations = []
  /\ parseTranslationChangesFromDiff readme_diff englishTranslations = []
  /\ map file (parseTranslationChangesFromDiff two_files_diff englishTranslations)
     = [str "de.json"; str "fr.json"]
  /\ map file (parseTranslationChangesFromDiff zh_diff englishTranslations)
     = [str "zh-CN.json"]
  /\ map englishValue (parseTranslationChangesFromDiff title_diff englishTranslations)
     = [noEnglish].
Proof. repeat split; vm_compute; reflexivity. Qed.

Example test_convert :
  convertToRegexPattern (str "foo.bar*baz?") = str "foo\.bar\*baz\?"
  /\ convertToRegexPattern (str "func(a, b) => [c]") = str "func\(a,\s+b\)\s+\=>\s+\[c\]"
  /\ convertToRegexPattern (str "foo-bar") = str "foo\-bar"
  /\ convertToRegexPattern (str "const   x  =  1") = str "const\s+x\s+\=\s+1"
  /\ convertToRegexPattern (str "line1
  line2") = str "line1\s+line2".
Proof. repeat split; vm_compute; reflexivity. Qed.

Example test_line_numbers :
  getLineNumber (JStr sampleCode) (JStr (str "const [count, setCount] = useState(0);"))
  = POk 4%Z
  /\ getLineNumber (JStr sampleCode) (JStr (str "import React from 'react';")) = POk 1%Z
  /\ getLineNumber (JStr sampleCode) (JStr (str "export default Component;")) = POk 13%Z
  /\ getLineNumber (JStr sampleCode) (JStr (str "const handleClick = () => {
    setCount(count + 1);
  };")) = POk 8%Z
  /\ getLineNumber (JStr sampleCode) (JStr (str "import React from 'react';

const Component = () => {")) = POk 3%Z
  /\ getLineNumber (JStr sampleCode) (JStr (str "const handleClick  =  ()  =>  {
    setCount(count  +  1);
  };")) = POk 8%Z
  /\ getLineNumber (JStr sampleCode) (JStr (str "this does not exist")) = POk (-1)%Z
  /\ getLineNumber (JStr sampleCode) (JStr []) = POk (-1)%Z
  /\ getLineNumber JNull (JStr (str "test")) = POk (-1)%Z
  /\ getLineNumber (JStr sampleCode) JNull = POk (-1)%Z
  /\ getLineNumber JUndefined (JStr (str "test")) = POk (-1)%Z
  /\ getLineNumber (JStr codeWithDuplicates) (JStr (str "console.log('first');"))
     = POk 1%Z.
Proof. repeat split; vm_compute; reflexivity. Qed.

Example test_filter :
  filterDiffByIgnoredFiles (JStr de_diff) = Some (JStr de_diff)
  /\ includes (text_or_empty (filterDiffByIgnoredFiles (JStr yarn_diff)))
       (str "src/App.tsx") = true
  /\ includes (text_or_empty (filterDiffByIgnoredFiles (JStr yarn_diff)))
       (str "yarn.lock") = false
  /\ filterDiffByIgnoredFiles (JStr (str "This is just some plain text
with no diff headers"))
     = Some (JStr (str "This is just some plain text
with no diff headers"))
  /\ includes (text_or_empty (filterDiffByIgnoredFiles (JStr quoted_diff)))
       (str "path with spaces/file.ts") = true
  /\ includes (text_or_empty (filterDiffByIgnoredFiles (JStr preamble_diff)))
       (str "Some preamble text") = true
  /\ includes (text_or_empty (filterDiffByIgnoredFiles (JStr preamble_diff)))
       (str "src/App.tsx") = true.
Proof. repeat split; vm_compute; reflexivity. Qed.

(** Three cases of the test suite ask for what the filter does not do. *)
Example test_filter_failing :
  includes (text_or_empty (filterDiffByIgnoredFiles (JStr png_diff)))
    (str "icon.png") = true
  /\ includes (text_or_empty (filterDiffByIgnoredFiles (JStr podfile_diff)))
       (str "Podfile.lock") = true
  /\ includes (text_or_empty (filterDiffByIgnoredFiles (JStr nitrogen_diff)))
       (str "nitrogen/generated") = true.
Proof. repeat split; vm_compute; reflexivity. Qed.
